(** * Path planning over a city map: graph model, search problems, A* reduction

    A shallow embedding of [mapUtil.py] and [submission.py] of the route
    planning assignment, with the properties of the design document stated as
    theorems about the embedded functions.  [util.py] is not part of the
    sources at hand: its declarations and its uniform-cost search follow the
    design document.

    Conventions of the embedding.
    - Python exceptions are values: a function that can raise returns a
      [result].
    - Python numbers ([int] and [float] costs, coordinates) are an abstract
      type [R] carrying the operations the code uses ([Number]).  No law of
      arithmetic is assumed unless a theorem states it as a hypothesis.
      Two instances are used at concrete maps: the integers, and [pynum],
      the [int] and binary64 [float] values with Python's mixed arithmetic.
    - [computeDistance] is floating-point trigonometry and stays a
      parameter; it returns a [result], since it raises on an infinite
      coordinate.
    - The three dictionaries of a [CityMap] are finite maps keyed by the
      label; where the code iterates over one of them it sorts the outcome
      or takes a minimum.  The inner dictionary [distances[a]] is an
      insertion-ordered association list, because [successorsAndCosts]
      turns its iteration order into the order of the list it returns. *)

From Stdlib Require Import ZArith String Ascii List Lia Permutation SpecFloat.
From stdpp Require Import base tactics option list sorting gmap strings pretty.

Local Open Scope string_scope.
Local Open Scope Z_scope.
Local Open Scope list_scope.

(* ===================================================================== *)
(** * The Python layer: exceptions, numbers, strings, list and dict helpers *)
(* ===================================================================== *)

Module Py.

Inductive exn : Type :=
| KeyError
| TypeError
| ValueError
| AssertionError
| AttributeError
| Exception (msg : string).

Inductive result (A : Type) : Type :=
| Ok (a : A)
| Raise (e : exn).
Arguments Ok {A} a.
Arguments Raise {A} e.

Definition bind {A B} (m : result A) (k : A -> result B) : result B :=
  match m with
  | Ok a => k a
  | Raise e => Raise e
  end.

(** [x ← e; k] runs [e] and, unless it raised, continues with [k]. *)
#[export] Instance result_bind : MBind result := fun A B k m => bind m k.

(** [for x in xs: body] where the body computes one element of the output
    and may raise: the first exception aborts the loop. *)
Fixpoint for_each {A B} (body : A -> result B) (xs : list A) : result (list B) :=
  match xs with
  | [] => Ok []
  | x :: xs' =>
      bind (body x) (fun y =>
      bind (for_each body xs') (fun ys => Ok (y :: ys)))
  end.

(** Numbers.  [num_of_Z] reads an [int]: a literal ([1], [50]) or an
    integer computed by the program ([len(...) * 50]).  [num_float] reads a
    [float] literal of integral value ([0.0], [250.0], [10000000.00]). *)
Class Number (R : Type) := {
  num_of_Z : Z -> R;
  num_float : Z -> R;
  num_add : R -> R -> R;
  num_ltb : R -> R -> bool;
  num_eqb : R -> R -> bool
}.

#[export] Instance Z_Number : Number Z := {|
  num_of_Z := fun z => z;
  num_float := fun z => z;
  num_add := Z.add;
  num_ltb := Z.ltb;
  num_eqb := Z.eqb
|}.

(** ** The numbers of Python: [int] and [float]

    An [int] is unbounded; a [float] is an IEEE 754 binary64, the
    [spec_float] of the Standard Library at precision 53 and exponent
    bound 1024. *)
Inductive pynum : Type :=
| PyInt (z : Z)
| PyFloat (f : spec_float).

(** [float(z)]: the nearest binary64, ties to even.  (Beyond the range of
    binary64 Python raises [OverflowError] where this gives an infinity.) *)
Definition float_of_int (z : Z) : spec_float := binary_normalize 53 1024 z 0 false.

Definition as_float (x : pynum) : spec_float :=
  match x with
  | PyInt z => float_of_int z
  | PyFloat f => f
  end.

(** [x + y]: exact on two [int]s; otherwise an [int] operand is converted
    and the result is the binary64 sum, a [float]. *)
Definition pynum_add (x y : pynum) : pynum :=
  match x, y with
  | PyInt a, PyInt b => PyInt (a + b)
  | _, _ => PyFloat (SFadd 53 1024 (as_float x) (as_float y))
  end.

(** An [int] and a [float] are compared by their exact values, without
    conversion; nothing compares with NaN. *)
Definition compare_int_float (a : Z) (f : spec_float) : option comparison :=
  match f with
  | S754_zero _ => Some (a ?= 0)
  | S754_infinity s => Some (if s then Gt else Lt)
  | S754_nan => None
  | S754_finite s m e =>
      let v := if s then Z.neg m else Z.pos m in
      Some (if 0 <=? e then a ?= v * 2 ^ e else a * 2 ^ (- e) ?= v)
  end.

Definition pynum_compare (x y : pynum) : option comparison :=
  match x, y with
  | PyInt a, PyInt b => Some (a ?= b)
  | PyInt a, PyFloat f => compare_int_float a f
  | PyFloat f, PyInt b => option_map CompOpp (compare_int_float b f)
  | PyFloat f, PyFloat g => SFcompare f g
  end.

#[export] Instance PyNumber : Number pynum := {|
  num_of_Z := PyInt;
  num_float := fun z => PyFloat (float_of_int z);
  num_add := pynum_add;
  num_ltb := fun x y => match pynum_compare x y with Some Lt => true | _ => false end;
  num_eqb := fun x y => match pynum_compare x y with Some Eq => true | _ => false end
|}.

(** The laws of a strict total order, for the theorems that compare
    numbers; they hold of the integers and of the floats other than NaN. *)
Class NumberOrder (R : Type) `{Number R} : Prop := {
  num_eqb_eq : forall a b : R, num_eqb a b = true <-> a = b;
  num_ltb_irrefl : forall a : R, num_ltb a a = false;
  num_ltb_trans : forall a b c : R,
    num_ltb a b = true -> num_ltb b c = true -> num_ltb a c = true;
  num_ltb_total : forall a b : R, a = b \/ num_ltb a b = true \/ num_ltb b a = true
}.

(** [str] comparison is lexicographic on the characters.  A [string] here
    is the UTF-8 form of the Python [str]; on UTF-8 the byte-wise order is
    the code-point order that Python uses. *)
Definition str_le (a b : string) : Prop := String.leb a b = true.

#[export] Instance str_le_dec : RelDecision str_le.
Proof. intros a b. unfold str_le. apply _. Defined.

(** [sorted(xs)] on a list of strings. *)
Definition sorted (xs : list string) : list string := merge_sort str_le xs.

(** [tag in tags] *)
Definition contains (x : string) (xs : list string) : bool := bool_decide (x ∈ xs).

(** [xs.index(x)]: position of the first occurrence, [ValueError] if none. *)
Fixpoint index (x : string) (xs : list string) : result nat :=
  match xs with
  | [] => Raise ValueError
  | y :: ys =>
      if decide (y = x) then Ok 0%nat
      else bind (index x ys) (fun i => Ok (S i))
  end.

(** [xs.pop(i)] for [0 <= i < len(xs)]: the list without position [i]. *)
Definition pop (i : nat) (xs : list string) : list string := delete i xs.

(** [d[k]] on a plain [dict]: [KeyError] when the key is missing. *)
Definition getitem {V} (d : gmap string V) (k : string) : result V :=
  match d !! k with
  | Some v => Ok v
  | None => Raise KeyError
  end.

(** [d[k]] on a [defaultdict(factory)]: the factory's value when the key is
    missing.  (The read also stores that default under [k]; every reader
    below goes through [getdefault], for which a stored default and a
    missing key are the same, see [dd_touch].) *)
Definition getdefault {V} (dflt : V) (d : gmap string V) (k : string) : V :=
  default dflt (d !! k).

(** What a read of [d[k]] leaves behind in a [defaultdict]. *)
Definition dd_touch {V} (dflt : V) (d : gmap string V) (k : string) : gmap string V :=
  match d !! k with
  | Some _ => d
  | None => <[k := dflt]> d
  end.

(** An insertion-ordered [dict]: assignment to a present key keeps its
    position, assignment to a new key appends it. *)
Fixpoint od_set {K V} `{EqDecision K} (k : K) (v : V) (d : list (K * V))
    : list (K * V) :=
  match d with
  | [] => [(k, v)]
  | (k', v') :: d' =>
      if decide (k' = k) then (k, v) :: d' else (k', v') :: od_set k v d'
  end.

Fixpoint od_get {K V} `{EqDecision K} (k : K) (d : list (K * V)) : option V :=
  match d with
  | [] => None
  | (k', v') :: d' => if decide (k' = k) then Some v' else od_get k d'
  end.

Fixpoint od_del {K V} `{EqDecision K} (k : K) (d : list (K * V)) : list (K * V) :=
  match d with
  | [] => []
  | (k', v') :: d' => if decide (k' = k) then d' else (k', v') :: od_del k d'
  end.

(** [min(items)] on a sequence of [(number, str)] tuples.  Tuples compare
    lexicographically: the first components decide unless they are [==]. *)
Definition tuple_lt {R} `{Number R} (a b : R * string) : bool :=
  if num_eqb a.1 b.1 then String.ltb a.2 b.2 else num_ltb a.1 b.1.

Definition min_tuple {R} `{Number R} (items : list (R * string)) : result (R * string) :=
  match items with
  | [] => Raise ValueError
  | x :: rest =>
      Ok (fold_left (fun best item => if tuple_lt item best then item else best) rest x)
  end.

End Py.

Import Py.

(* ===================================================================== *)
(** * mapUtil.py *)
(* ===================================================================== *)

Module mapUtil.
Section WithNumber.
Context {R : Type} `{Number R}.

Record GeoLocation : Type := {
  latitude : R;
  longitude : R
}.

(** [computeDistance] is the haversine formula in floating point
    ([radians], [sin], [cos], [asin], [sqrt]); its body is a parameter of
    the development.  It can raise: [sin] and [cos] raise [ValueError] on
    an infinite argument, so the call fails on an infinite coordinate. *)
Variable computeDistance : GeoLocation -> GeoLocation -> result R.

Record CityMap : Type := {
  geoLocations : gmap string GeoLocation;
  tags : gmap string (list string);
  distances : gmap string (list (string * R))
}.

(** [CityMap.__init__] *)
Definition CityMap_init : CityMap :=
  {| geoLocations := ∅; tags := ∅; distances := ∅ |}.

(** [cityMap.tags[label]] and [cityMap.distances[label]] are reads of a
    [defaultdict]. *)
Definition tags_at (m : CityMap) (label : string) : list string :=
  getdefault [] (tags m) label.

Definition distances_at (m : CityMap) (label : string) : list (string * R) :=
  getdefault [] (distances m) label.

(** [distances[a][b]] when both keys are present. *)
Definition distance (m : CityMap) (a b : string) : option R :=
  inner ← distances m !! a; od_get b inner.

Definition makeTag (key value : string) : string := key +:+ "=" +:+ value.

Definition addLocation (label : string) (location : GeoLocation)
    (tags0 : list string) (m : CityMap) : result CityMap :=
  match geoLocations m !! label with
  | Some _ => Raise AssertionError
  | None =>
      Ok {| geoLocations := <[label := location]> (geoLocations m);
            tags := <[label := makeTag "label" label :: tags0]> (tags m);
            distances := distances m |}
  end.

(** [self.distances[source][target] = distance] *)
Definition set_distance (source target : string) (d : R)
    (ds : gmap string (list (string * R))) : gmap string (list (string * R)) :=
  <[source := od_set target d (getdefault [] ds source)]> ds.

Definition addConnection (source target : string) (distance0 : option R)
    (m : CityMap) : result CityMap :=
  d ← match distance0 with
       | Some d => Ok d
       | None =>
           g1 ← getitem (geoLocations m) source;
           g2 ← getitem (geoLocations m) target;
           computeDistance g1 g2
       end;
  Ok {| geoLocations := geoLocations m;
        tags := tags m;
        distances := set_distance target source d
                       (set_distance source target d (distances m)) |}.

(** One entry of the landmark file, after [json.load] and the parsing of
    its ["geo"] field; ["landmark"] and ["amenity"] are optional keys. *)
Record Landmark : Type := {
  geo : GeoLocation;
  landmark : option string;
  amenity : option string
}.

(** [cityMap.tags[bestLabel].append(tag)] *)
Definition append_tag (label tag : string) (ts : gmap string (list string))
    : gmap string (list string) :=
  <[label := getdefault [] ts label ++ [tag]]> ts.

Definition append_key (key : string) (value : option string) (label : string)
    (ts : gmap string (list string)) : gmap string (list string) :=
  match value with
  | Some v => append_tag label (makeTag key v) ts
  | None => ts
  end.

(** The generator [(computeDistance(geo, existingGeo), existingLabel) for
    ... in cityMap.geoLocations.items()] that [min] consumes: the first
    call of [computeDistance] that raises ends it. *)
Definition landmark_distances (item : Landmark) (m : CityMap)
    : result (list (R * string)) :=
  for_each (fun kv : string * GeoLocation =>
              d ← computeDistance (geo item) kv.2; Ok (d, kv.1))
           (map_to_list (geoLocations m)).

(** The body of the loop of [addLandmarks] for one [item]. *)
Definition addLandmark (toleranceMeters : R) (item : Landmark) (m : CityMap)
    : result CityMap :=
  items ← landmark_distances item m;
  best ← min_tuple items;
  let '(bestDistance, bestLabel) := best in
  if num_ltb bestDistance toleranceMeters then
    Ok {| geoLocations := geoLocations m;
          tags := append_key "amenity" (amenity item) bestLabel
                    (append_key "landmark" (landmark item) bestLabel (tags m));
          distances := distances m |}
  else Ok m.

Fixpoint addLandmarks (landmarks : list Landmark) (toleranceMeters : R)
    (m : CityMap) : result CityMap :=
  match landmarks with
  | [] => Ok m
  | item :: rest =>
      m' ← addLandmark toleranceMeters item m;
      addLandmarks rest toleranceMeters m'
  end.

(** The default [toleranceMeters = 250.0]. *)
Definition default_tolerance : R := num_float 250.

Definition locationFromTag (tag : string) (m : CityMap) : option string :=
  let possibleLocations :=
    sorted (map fst (filter (fun kv => contains tag kv.2 = true)
                            (map_to_list (tags m)))) in
  head possibleLocations.

(** Building a map: a sequence of calls on a [CityMap], stopped by the
    first exception.  A call that raises does so before it writes, so a
    caller that catches the exception and goes on builds the map of the
    same sequence without that call. *)
Inductive call : Type :=
| AddLocation (label : string) (location : GeoLocation) (tags0 : list string)
| AddConnection (source target : string) (distance0 : option R)
| AddLandmarks (landmarks : list Landmark) (toleranceMeters : R).

Definition exec (c : call) (m : CityMap) : result CityMap :=
  match c with
  | AddLocation l g ts => addLocation l g ts m
  | AddConnection s t d => addConnection s t d m
  | AddLandmarks ls tol => addLandmarks ls tol m
  end.

Fixpoint run (calls : list call) (m : CityMap) : result CityMap :=
  match calls with
  | [] => Ok m
  | c :: rest => m' ← exec c m; run rest m'
  end.

(** ** Paths *)

(** The loop of [checkValid] over the adjacent locations of the path:
    [path[i + 1] not in cityMap.distances[path[i]]] ends it with [False]. *)
Fixpoint connected (m : CityMap) (path : list string) : bool :=
  match path with
  | a :: (b :: _) as rest =>
      match od_get b (distances_at m a) with
      | Some _ => connected m rest
      | None => false
      end
  | _ => true
  end.

(** [set(tag for location in path for tag in cityMap.tags[location])], as
    the list of its elements. *)
Definition doneTags (m : CityMap) (path : list string) : list string :=
  flat_map (tags_at m) path.

(** [checkValid]; the messages it prints are left out.  The only exception
    it can raise is the [IndexError] of [path[0]] on an empty path, which is
    the result [None]. *)
Definition checkValid (path : list string) (m : CityMap) (startLocation endTag : string)
    (waypointTags : list string) : option bool :=
  match path with
  | [] => None
  | first :: _ =>
      if negb (bool_decide (first = startLocation)) then Some false
      else if negb (contains endTag (tags_at m (List.last path first))) then Some false
      else if negb (connected m path) then Some false
      else if negb (forallb (fun tag => contains tag (doneTags m path)) waypointTags)
           then Some false
      else Some true
  end.

(** The loop of [getTotalCost], entered with the cost so far;
    [cityMap.distances[a]] is a read of the defaultdict, [...[b]] a read of
    the plain dict it holds. *)
Fixpoint getTotalCost_from (cost : R) (m : CityMap) (path : list string) : result R :=
  match path with
  | a :: (b :: _) as rest =>
      match od_get b (distances_at m a) with
      | Some d => getTotalCost_from (num_add cost d) m rest
      | None => Raise KeyError
      end
  | _ => Ok cost
  end.

Definition getTotalCost (path : list string) (m : CityMap) : result R :=
  getTotalCost_from (num_float 0) m path.

(** ** Grid maps *)

(** [makeGridLabel]: the f-string [f"{x},{y}"] of two integers. *)
Definition makeGridLabel (x y : Z) : string := pretty x +:+ "," +:+ pretty y.

(** [x * UNIT_DELTA], a floating-point product, is a parameter. *)
Variable times_UNIT_DELTA : Z -> R.

(** The body of the two loops of [createGridMap] at the cell [(x, y)], with
    the extra tags that [createGridMapWithCustomTags] adds. *)
Definition grid_cell (x y : nat) (custom : list string) : list call :=
  [ AddLocation (makeGridLabel (Z.of_nat x) (Z.of_nat y))
      {| latitude := times_UNIT_DELTA (Z.of_nat x);
         longitude := times_UNIT_DELTA (Z.of_nat y) |}
      ([makeTag "x" (pretty (Z.of_nat x)); makeTag "y" (pretty (Z.of_nat y))] ++ custom) ]
  ++ (if (0 <? x)%nat
      then [ AddConnection (makeGridLabel (Z.of_nat x - 1) (Z.of_nat y))
               (makeGridLabel (Z.of_nat x) (Z.of_nat y)) (Some (num_of_Z 1)) ]
      else [])
  ++ (if (0 <? y)%nat
      then [ AddConnection (makeGridLabel (Z.of_nat x) (Z.of_nat y - 1))
               (makeGridLabel (Z.of_nat x) (Z.of_nat y)) (Some (num_of_Z 1)) ]
      else []).

(** The calls of [createGridMap(width, height)], in the order of the loops
    [for x in range(width): for y in range(height)]. *)
Definition grid_calls (width height : Z) : list call :=
  flat_map (fun x => flat_map (fun y => grid_cell x y []) (seq 0 (Z.to_nat height)))
           (seq 0 (Z.to_nat width)).

Definition createGridMap (width height : Z) : result CityMap :=
  run (grid_calls width height) CityMap_init.

(** The cells of the grid in the order of the two loops. *)
Definition grid_cells (width height : Z) : list (nat * nat) :=
  flat_map (fun x => map (pair x) (seq 0 (Z.to_nat height))) (seq 0 (Z.to_nat width)).

(** The loops of [createGridMapWithCustomTags] over the cells that are
    left: [tags[(x, y)]] is a read of a plain dict keyed by the cell. *)
Fixpoint custom_cells (custom : gmap (Z * Z) (list string)) (cells : list (nat * nat))
    (m : CityMap) : result CityMap :=
  match cells with
  | [] => Ok m
  | (x, y) :: rest =>
      match custom !! (Z.of_nat x, Z.of_nat y) with
      | None => Raise KeyError
      | Some ts =>
          m' ← run (grid_cell x y ts) m;
          custom_cells custom rest m'
      end
  end.

Definition createGridMapWithCustomTags (width height : Z)
    (custom : gmap (Z * Z) (list string)) : result CityMap :=
  custom_cells custom (grid_cells width height) CityMap_init.

End WithNumber.
Arguments GeoLocation R : clear implicits.
Arguments CityMap R : clear implicits.
Arguments Landmark R : clear implicits.
Arguments call R : clear implicits.
End mapUtil.

(* ===================================================================== *)
(** * util.py *)
(* ===================================================================== *)

Module util.
Section WithNumber.
Context {R : Type} `{Number R}.

(** Modelled from the spec: the [State] declaration of [util.py], "the unit
    of search: (current location label, optional immutable auxiliary
    memory)"; two states are equal iff both fields match.  [memory] is
    [None] or a tuple of tags. *)
Record State : Type := {
  location : string;
  memory : option (list string)
}.

#[export] Instance State_eq_dec : EqDecision State.
Proof. solve_decision. Defined.

(** Modelled from the spec: the [SearchProblem] interface of [util.py],
    "polymorphic over {start state, goal test, successor generator}".  A
    Python problem object may also carry a [cityMap] attribute, which
    [aStarReduction] reads; [attr_cityMap] is [None] for an object without
    that attribute. *)
Record SearchProblem : Type := {
  startState : State;
  isEnd : State -> bool;
  successorsAndCosts : State -> result (list (string * State * R));
  attr_cityMap : option (mapUtil.CityMap R)
}.

(** Modelled from the spec: the [Heuristic] interface of [util.py],
    "polymorphic over {evaluate(state)}". *)
Record Heuristic : Type := {
  evaluate : State -> result R
}.

(** Modelled from the spec: [UniformCostSearch] of [util.py], after the
    state machine of the design document: a frontier of (state,
    best-known cost) pairs explored by minimum cost, an explored set,
    predecessor links, relaxation on strictly lower cost, failure when the
    frontier is exhausted.  Ties among equal-cost frontier entries are
    resolved to the entry that entered the frontier first. *)
Record SearchResult : Type := {
  actions : option (list string);
  pathCost : option R;
  pastCosts : list (State * R)
}.

(** Modelled from the spec: what a run of [UniformCostSearch.solve] ends
    with: a result, an exception of the problem's operations, or no more
    fuel. *)
Inductive outcome : Type :=
| Finished (r : SearchResult)
| Raised (e : exn)
| OutOfFuel.

(** Modelled from the spec: the extraction of "the minimum-cost unexplored
    state" of [UniformCostSearch]; [min_entry] is the frontier entry of
    minimum cost. *)
Definition min_entry (first : State * R) (rest : list (State * R)) : State * R :=
  fold_left (fun best x => if num_ltb x.2 best.2 then x else best) rest first.

(** Modelled from the spec: the removal of that entry from the frontier of
    [UniformCostSearch]; [None] when the frontier is empty. *)
Definition removeMin (frontier : list (State * R))
    : option (State * R * list (State * R)) :=
  match frontier with
  | [] => None
  | first :: rest =>
      let best := min_entry first rest in
      Some (best.1, best.2, od_del best.1 frontier)
  end.

(** Modelled from the spec: the frontier update of [UniformCostSearch],
    "insert/update the frontier entry if the new cost is strictly lower
    than any previously recorded cost for that state"; [None] when the
    frontier keeps its entry. *)
Definition update (frontier : list (State * R)) (s : State) (c : R)
    : option (list (State * R)) :=
  match od_get s frontier with
  | None => Some (frontier ++ [(s, c)])
  | Some old => if num_ltb c old then Some (od_set s c frontier) else None
  end.

(** Modelled from the spec: the relaxation step of [UniformCostSearch] over
    the successors of the state [s] extracted at cost [c]; explored
    successors are skipped, and a successor that enters or improves the
    frontier gets [s] as predecessor. *)
Fixpoint relax (explored : list (State * R)) (s : State) (c : R)
    (succs : list (string * State * R))
    (frontier : list (State * R)) (back : list (State * (string * State)))
    : list (State * R) * list (State * (string * State)) :=
  match succs with
  | [] => (frontier, back)
  | (action, newState, cost) :: succs' =>
      match od_get newState explored with
      | Some _ => relax explored s c succs' frontier back
      | None =>
          match update frontier newState (num_add c cost) with
          | Some frontier' =>
              relax explored s c succs' frontier' (od_set newState (action, s) back)
          | None => relax explored s c succs' frontier back
          end
      end
  end.

(** Modelled from the spec: the path reconstruction of [UniformCostSearch],
    "following recorded predecessor links back to the start". *)
Fixpoint reconstruct (steps : nat) (back : list (State * (string * State)))
    (start s : State) (acc : list string) : option (list string) :=
  if decide (s = start) then Some acc
  else match steps with
       | O => None
       | S steps' =>
           match od_get s back with
           | Some (action, prev) => reconstruct steps' back start prev (action :: acc)
           | None => None
           end
       end.

(** Modelled from the spec: the main loop of [UniformCostSearch.solve];
    [fuel] bounds the number of extractions.  An exhausted frontier gives
    the "no solution" result (no actions, no cost); in every result
    [pastCosts] maps the explored states to their costs. *)
Fixpoint search (fuel : nat) (problem : SearchProblem)
    (frontier explored : list (State * R)) (back : list (State * (string * State)))
    : outcome :=
  match fuel with
  | O => OutOfFuel
  | S fuel' =>
      match removeMin frontier with
      | None =>
          Finished {| actions := None; pathCost := None; pastCosts := explored |}
      | Some (s, c, frontier') =>
          if isEnd problem s then
            Finished {| actions := reconstruct (length back) back (startState problem) s [];
                        pathCost := Some c;
                        pastCosts := explored |}
          else
            let explored' := explored ++ [(s, c)] in
            match successorsAndCosts problem s with
            | Raise e => Raised e
            | Ok succs =>
                let '(frontier'', back') := relax explored' s c succs frontier' back in
                search fuel' problem frontier'' explored' back'
            end
      end
  end.

(** Modelled from the spec: [UniformCostSearch.solve], "initialize frontier
    with the problem's start state at cost 0". *)
Definition solve (fuel : nat) (problem : SearchProblem) : outcome :=
  search fuel problem [(startState problem, num_of_Z 0)] [] [].

End WithNumber.
Arguments State : clear implicits.
Arguments SearchProblem R : clear implicits.
Arguments Heuristic R : clear implicits.
Arguments SearchResult R : clear implicits.
Arguments outcome R : clear implicits.
End util.

(* ===================================================================== *)
(** * submission.py *)
(* ===================================================================== *)

Module submission.
Section WithNumber.
Context {R : Type} `{Number R}.
Import mapUtil util.

Variable computeDistance : GeoLocation R -> GeoLocation R -> result R.

(** ** ShortestPathProblem *)

Definition ShortestPathProblem_startState (startLocation : string) : State :=
  {| location := startLocation; memory := None |}.

Definition ShortestPathProblem_isEnd (endTag : string) (cityMap : CityMap R)
    (state : State) : bool :=
  contains endTag (tags_at cityMap (location state)).

Definition ShortestPathProblem_successorsAndCosts (cityMap : CityMap R)
    (state : State) : result (list (string * State * R)) :=
  Ok (map (fun kv : string * R =>
             let next_location := kv.1 in
             let distance := kv.2 in
             (next_location, {| location := next_location; memory := None |}, distance))
          (distances_at cityMap (location state))).

Definition ShortestPathProblem (startLocation endTag : string)
    (cityMap : CityMap R) : SearchProblem R :=
  {| startState := ShortestPathProblem_startState startLocation;
     isEnd := ShortestPathProblem_isEnd endTag cityMap;
     successorsAndCosts := ShortestPathProblem_successorsAndCosts cityMap;
     attr_cityMap := Some cityMap |}.

(** ** WaypointsShortestPathProblem *)

(** [not state.memory]: [None] and the empty tuple are falsy. *)
Definition not_memory (memory : option (list string)) : bool :=
  match memory with
  | None => true
  | Some [] => true
  | Some (_ :: _) => false
  end.

(** [list(memory)] and [for tag in state.memory] need an iterable. *)
Definition iter (memory : option (list string)) : result (list string) :=
  match memory with
  | Some t => Ok t
  | None => Raise TypeError
  end.

(** The inner loop
    [for tag in state.memory: if tag in tags[location]: pop(index(tag))],
    run over the tags [todo] still to visit with the current
    [next_state_memory]. *)
Fixpoint pop_satisfied (tagsHere : list string) (todo : list string)
    (next_state_memory : list string) : result (list string) :=
  match todo with
  | [] => Ok next_state_memory
  | tag :: todo' =>
      if contains tag tagsHere then
        tag_index ← index tag next_state_memory;
        pop_satisfied tagsHere todo' (pop tag_index next_state_memory)
      else pop_satisfied tagsHere todo' next_state_memory
  end.

Definition WaypointsShortestPathProblem_startState (startLocation : string)
    (waypointTags : list string) : State :=
  {| location := startLocation; memory := Some (sorted waypointTags) |}.

Definition WaypointsShortestPathProblem_isEnd (endTag : string)
    (cityMap : CityMap R) (state : State) : bool :=
  if contains endTag (tags_at cityMap (location state))
  then not_memory (memory state)
  else false.

(** [print(memory)] only writes to the standard output and is left out. *)
Definition WaypointsShortestPathProblem_successorsAndCosts (cityMap : CityMap R)
    (state : State) : result (list (string * State * R)) :=
  for_each
    (fun kv : string * R =>
       let next_location := kv.1 in
       let distance := kv.2 in
       next_state_memory ← iter (memory state);
       todo ← iter (memory state);
       next_state_memory ←
         pop_satisfied (tags_at cityMap (location state)) todo next_state_memory;
       let distance :=
         num_add distance (num_of_Z (Z.of_nat (length next_state_memory) * 50)) in
       let next_state_memory := sorted next_state_memory in
       Ok (next_location,
           {| location := next_location; memory := Some next_state_memory |},
           distance))
    (distances_at cityMap (location state)).

Definition WaypointsShortestPathProblem (startLocation : string)
    (waypointTags : list string) (endTag : string) (cityMap : CityMap R)
    : SearchProblem R :=
  {| startState := WaypointsShortestPathProblem_startState startLocation waypointTags;
     isEnd := WaypointsShortestPathProblem_isEnd endTag cityMap;
     successorsAndCosts := WaypointsShortestPathProblem_successorsAndCosts cityMap;
     attr_cityMap := Some cityMap |}.

(** ** aStarReduction *)

(** [problem.cityMap]: [AttributeError] on an object without the
    attribute. *)
Definition getattr_cityMap (problem : SearchProblem R) : result (CityMap R) :=
  match attr_cityMap problem with
  | Some cm => Ok cm
  | None => Raise AttributeError
  end.

Definition NewSearchProblem_successorsAndCosts (problem : SearchProblem R)
    (heuristic : Heuristic R) (state : State)
    : result (list (string * State * R)) :=
  cityMap ← getattr_cityMap problem;
  for_each
    (fun kv : string * R =>
       let next_location := kv.1 in
       let new_state := {| location := next_location; memory := None |} in
       let past_cost := kv.2 in
       future_cost ← evaluate heuristic new_state;
       Ok (next_location, new_state, num_add past_cost future_cost))
    (distances_at cityMap (location state)).

Definition aStarReduction (problem : SearchProblem R) (heuristic : Heuristic R)
    : SearchProblem R :=
  {| startState := startState problem;
     isEnd := isEnd problem;
     successorsAndCosts := NewSearchProblem_successorsAndCosts problem heuristic;
     attr_cityMap := None |}.

(** ** StraightLineHeuristic *)

(** [__init__]: the coordinates of the locations carrying [endTag]. *)
Definition StraightLineHeuristic_targets (endTag : string) (cityMap : CityMap R)
    : list (GeoLocation R) :=
  map snd (filter (fun kv : string * GeoLocation R =>
                     contains endTag (tags_at cityMap kv.1) = true)
                  (map_to_list (geoLocations cityMap))).

(** The loop [for target in self.targets] of [evaluate], entered with the
    shortest distance so far. *)
Fixpoint StraightLineHeuristic_loop (state_geo_location : GeoLocation R)
    (targets : list (GeoLocation R)) (shortest_target_distance : R) : result R :=
  match targets with
  | [] => Ok shortest_target_distance
  | target :: rest =>
      target_distance ← computeDistance target state_geo_location;
      StraightLineHeuristic_loop state_geo_location rest
        (if num_ltb target_distance shortest_target_distance
         then target_distance else shortest_target_distance)
  end.

Definition StraightLineHeuristic_evaluate (endTag : string) (cityMap : CityMap R)
    (state : State) : result R :=
  let shortest_target_distance := num_float 10000000 in
  state_geo_location ← getitem (geoLocations cityMap) (location state);
  StraightLineHeuristic_loop state_geo_location
    (StraightLineHeuristic_targets endTag cityMap) shortest_target_distance.

Definition StraightLineHeuristic (endTag : string) (cityMap : CityMap R)
    : Heuristic R :=
  {| evaluate := StraightLineHeuristic_evaluate endTag cityMap |}.

(** ** NoWaypointsHeuristic *)

(** [evaluate] is [raise Exception("Not implemented yet")]. *)
Definition NoWaypointsHeuristic_evaluate (endTag : string) (cityMap : CityMap R)
    (state : State) : result R :=
  Raise (Exception "Not implemented yet").

End WithNumber.
End submission.

(* ===================================================================== *)
(** * grader.py *)
(* ===================================================================== *)

Module grader.
Section WithNumber.
Context {R : Type} `{Number R}.
Import mapUtil util.

(** [ZeroHeuristic.evaluate] returns [0.0]. *)
Definition ZeroHeuristic (endTag : string) (cityMap : CityMap R) : Heuristic R :=
  {| evaluate := fun _ => Ok (num_float 0) |}.

(** [extractPath], for a search that found a path: [search.actions] is the
    list of the actions. *)
Definition extractPath (startLocation : string) (actions : list string) : list string :=
  startLocation :: actions.

End WithNumber.
End grader.

(* ===================================================================== *)
(** * The properties stated about the graph model *)
(* ===================================================================== *)

Module Props.
Section WithNumber.
Context {R : Type} `{Number R}.
Import mapUtil.
Local Existing Instance util.State_eq_dec.

Variable computeDistance : GeoLocation R -> GeoLocation R -> result R.

(** [distances[a][b]] is present iff [distances[b][a]] is, with the same
    value. *)
Definition symmetric (m : CityMap R) : Prop :=
  forall a b, distance m a b = distance m b a.

(** Every outer key and every inner key of [distances] is a key of
    [geoLocations]. *)
Definition labels_closed (m : CityMap R) : Prop :=
  (forall a, is_Some (distances m !! a) -> is_Some (geoLocations m !! a)) /\
  (forall a inner b, distances m !! a = Some inner -> b ∈ inner.*1 ->
                     is_Some (geoLocations m !! b)).

(** A call of [addConnection] that passes an explicit distance names two
    labels that [addLocation] has already added. *)
Definition endpoints_known (c : call R) (m : CityMap R) : bool :=
  match c with
  | AddConnection source target (Some _) =>
      bool_decide (is_Some (geoLocations m !! source)) &&
      bool_decide (is_Some (geoLocations m !! target))
  | _ => true
  end.

Fixpoint run_endpoints_known (calls : list (call R)) (m : CityMap R) : bool :=
  match calls with
  | [] => true
  | c :: rest =>
      endpoints_known c m &&
      match exec computeDistance c m with
      | Ok m' => run_endpoints_known rest m'
      | Raise _ => true
      end
  end.

(** The labels that a call names. *)
Definition mentions (c : call R) (label : string) : Prop :=
  match c with
  | AddLocation l _ _ => label = l
  | AddConnection source target _ => label = source \/ label = target
  | AddLandmarks _ _ => False
  end.

(** The label is a key of one of the three mappings. *)
Definition has_entry (m : CityMap R) (label : string) : Prop :=
  is_Some (geoLocations m !! label) \/ is_Some (tags m !! label) \/
  is_Some (distances m !! label).

(** The states a [ShortestPathProblem] can reach: the start state and the
    states at the inner keys of [distances]. *)
Definition ShortestPathProblem_states (startLocation : string) (cityMap : CityMap R)
    : list util.State :=
  submission.ShortestPathProblem_startState startLocation ::
  map (fun l => {| util.location := l; util.memory := None |})
      (concat (map (fun kv : string * list (string * R) => map fst kv.2)
                   (map_to_list (distances cityMap)))).

(** The frontier holds each state once, holds states of [U] only, and holds
    no explored state. *)
Definition frontier_ok (U : list util.State) (frontier explored : list (util.State * R))
    : Prop :=
  NoDup frontier.*1 /\
  (forall s, s ∈ frontier.*1 -> s ∈ U) /\
  (forall s, s ∈ frontier.*1 -> s ∉ explored.*1).

(** A sequence of transitions of a search problem from the state [s]: each
    step is one of the triples that [successorsAndCosts] returns at the
    state reached so far. *)
Fixpoint follows (problem : util.SearchProblem R) (s : util.State)
    (steps : list (string * util.State * R)) : Prop :=
  match steps with
  | [] => True
  | step :: rest =>
      (exists succs, util.successorsAndCosts problem s = Ok succs /\ step ∈ succs) /\
      follows problem step.1.2 rest
  end.

(** The state that the steps end in. *)
Definition final_state (s : util.State) (steps : list (string * util.State * R))
    : util.State :=
  List.last (map (fun step => step.1.2) steps) s.

(** Every inner dictionary of [distances] has each key once. *)
Definition inner_keys_unique (m : CityMap R) : Prop :=
  forall a inner, distances m !! a = Some inner -> NoDup inner.*1.

(** Every location has a tag list, and it starts with the location's own
    label tag; no other label has a tag list. *)
Definition tags_labelled (m : CityMap R) : Prop :=
  forall l, match tags m !! l with
            | Some ts => is_Some (geoLocations m !! l) /\
                         exists rest, ts = makeTag "label" l :: rest
            | None => geoLocations m !! l = None
            end.

(** The labels that the [addLocation] calls of a sequence add. *)
Definition added_labels (calls : list (call R)) : list string :=
  omap (fun c => match c with AddLocation l _ _ => Some l | _ => None end) calls.

(** The string has no comma. *)
Fixpoint no_comma (s : string) : Prop :=
  match s with
  | EmptyString => True
  | String c s' => c <> ","%char /\ no_comma s'
  end.

(** The call is an [addConnection] with an explicit distance that names the
    label as one of its two endpoints. *)
Definition names_endpoint (c : call R) (label : string) : Prop :=
  match c with
  | AddConnection source target (Some _) => label = source \/ label = target
  | _ => False
  end.

(** The cost of a sequence of transitions entered at the cost [c]: the
    costs of the steps are added to it in path order, as the search
    accumulates them. *)
Definition path_cost (c : R) (steps : list (string * util.State * R)) : R :=
  fold_left num_add (map (fun step => step.2) steps) c.

(** [b] is not below [a]. *)
Definition num_le (a b : R) : Prop := num_ltb b a = false.

(** The predecessor links [back] lead from the state [x] back to [start]
    through states of [E], and the transitions they record are [steps], in
    path order. *)
Inductive linked (back : list (util.State * (string * util.State)))
    (start : util.State) (E : list util.State)
    : util.State -> list (string * util.State * R) -> Prop :=
| linked_start : linked back start E start []
| linked_step (x : util.State) (a : string) (prev : util.State) (c : R)
    (steps : list (string * util.State * R)) :
    x <> start -> od_get x back = Some (a, prev) -> prev ∈ E ->
    linked back start E prev steps ->
    linked back start E x (steps ++ [(a, x, c)]).

(** The links record a path of the problem from its start state to [x], of
    cost [c] and of at most [n] steps. *)
Definition recorded (problem : util.SearchProblem R)
    (back : list (util.State * (string * util.State))) (E : list util.State)
    (n : nat) (x : util.State) (c : R) : Prop :=
  exists steps,
    linked back (util.startState problem) E x steps /\
    (length steps <= n)%nat /\
    follows problem (util.startState problem) steps /\
    final_state (util.startState problem) steps = x /\
    path_cost (num_of_Z 0) steps = c.

(** What the loop of the search maintains about the paths it has found:
    the frontier and the explored list hold each state once and share
    none; every frontier entry and every explored entry is the end and the
    cost of a recorded path through states explored before it; the links
    are those of frontier and explored states. *)
Definition search_inv (problem : util.SearchProblem R)
    (frontier explored : list (util.State * R))
    (back : list (util.State * (string * util.State))) : Prop :=
  NoDup frontier.*1 /\
  (forall s, s ∈ frontier.*1 -> s ∉ explored.*1) /\
  (forall x c, (x, c) ∈ frontier ->
     recorded problem back explored.*1 (length explored) x c) /\
  (forall i x c, explored !! i = Some (x, c) ->
     recorded problem back (take i explored).*1 i x c) /\
  (forall x, x ∈ back.*1 -> x ∈ frontier.*1 \/ x ∈ explored.*1) /\
  (length explored + length frontier <= length back + 1)%nat /\
  (util.startState problem ∈ explored.*1 \/
   explored = [] /\ frontier.*1 = [util.startState problem]).

(** What the loop maintains about the costs: an explored state is no end
    state, its cost is that of a cheapest path to it, and each of its
    successors is explored or waits in the frontier at no more than the
    cost through it. *)
Definition search_opt (problem : util.SearchProblem R)
    (frontier explored : list (util.State * R)) : Prop :=
  (forall x, x ∈ explored.*1 -> util.isEnd problem x = false) /\
  (forall x c steps, (x, c) ∈ explored ->
     follows problem (util.startState problem) steps ->
     final_state (util.startState problem) steps = x ->
     num_le c (path_cost (num_of_Z 0) steps)) /\
  (forall x cx succs a y d, (x, cx) ∈ explored ->
     util.successorsAndCosts problem x = Ok succs -> (a, y, d) ∈ succs ->
     y ∈ explored.*1 \/ exists cy, (y, cy) ∈ frontier /\ num_le cy (num_add cx d)) /\
  (util.startState problem ∈ explored.*1 \/
   explored = [] /\ frontier = [(util.startState problem, num_of_Z 0)]).

(** The sequence has no [addLandmarks] call and no [addConnection] call
    that leaves the distance out. *)
Definition explicit_call (c : call R) : bool :=
  match c with
  | AddLocation _ _ _ => true
  | AddConnection _ _ (Some _) => true
  | _ => false
  end.

End WithNumber.
End Props.

(* ===================================================================== *)
(** * Concrete maps and problems, with integer costs *)
(* ===================================================================== *)

Module Examples.
Import mapUtil util submission grader.

(** A stand-in for [computeDistance] on integer coordinates. *)
Definition flat_distance (g1 g2 : GeoLocation Z) : result Z :=
  Ok (Z.abs (latitude g1 - latitude g2) + Z.abs (longitude g1 - longitude g2)).

Definition at_ (lat lon : Z) : GeoLocation Z :=
  {| latitude := lat; longitude := lon |}.

Definition built (calls : list (call Z)) : CityMap Z :=
  match run flat_distance calls CityMap_init with
  | Ok m => m
  | Raise _ => CityMap_init
  end.

(** Two locations joined by one connection of cost 1; ["b"] carries the
    tag ["e"]. *)
Definition two_nodes_calls : list (call Z) :=
  [ AddLocation "a" (at_ 0 0) [];
    AddLocation "b" (at_ 0 1) ["e"];
    AddConnection "a" "b" (Some 1) ].

Definition two_nodes : CityMap Z := built two_nodes_calls.

(** The same connection on a map to which no location was added. *)
Definition dangling_calls : list (call Z) := [ AddConnection "a" "b" (Some 1) ].

Definition dangling : CityMap Z := built dangling_calls.

(** A waypoint problem on [two_nodes]: from ["a"] to the tag ["e"] through
    the waypoint tag ["w"], which no location carries. *)
Definition waypoints_problem : SearchProblem Z :=
  WaypointsShortestPathProblem "a" ["w"] "e" two_nodes.

(** One landmark next to ["a"]. *)
Definition one_landmark : Landmark Z :=
  {| geo := at_ 0 0; landmark := Some "gates"; amenity := None |}.

(** The path from ["a"] to ["b"] on [two_nodes], as the transitions of a
    shortest-path problem and of a waypoint problem whose waypoint is the
    label tag of ["a"]. *)
Definition plain_steps : list (string * State * Z) :=
  [ ("b", {| location := "b"; memory := None |}, 1) ].

Definition waypoint_steps : list (string * State * Z) :=
  [ ("b", {| location := "b"; memory := Some [] |}, 1) ].

(** [two_nodes] after one more call that overwrites the connection. *)
Definition reconnected : CityMap Z :=
  match addConnection flat_distance "a" "b" (Some 5) two_nodes with
  | Ok m => m
  | Raise _ => two_nodes
  end.

(** [two_nodes] after the landmark [one_landmark] was added. *)
Definition with_landmark : CityMap Z :=
  match addLandmark flat_distance default_tolerance one_landmark two_nodes with
  | Ok m => m
  | Raise _ => two_nodes
  end.

(** The map of [createGridMap(2, 2)]. *)
Definition grid_2x2 : CityMap Z :=
  match createGridMap flat_distance (fun z => z) 2 2 with
  | Ok m => m
  | Raise _ => CityMap_init
  end.

(** ** With the numbers of Python *)

(** The calls below pass every distance, so [computeDistance] is not
    called; this stand-in for it raises. *)
Definition no_distance (g1 g2 : GeoLocation pynum) : result pynum :=
  Raise ValueError.

Definition origin : GeoLocation pynum :=
  {| latitude := num_float 0; longitude := num_float 0 |}.

(** Two locations joined by one connection whose cost is the [int]
    [2**53 + 1]. *)
Definition int_edge_calls : list (call pynum) :=
  [ AddLocation "a" origin [];
    AddLocation "b" origin [];
    AddConnection "a" "b" (Some (PyInt (2 ^ 53 + 1))) ].

Definition int_edge : CityMap pynum :=
  match run no_distance int_edge_calls CityMap_init with
  | Ok m => m
  | Raise _ => CityMap_init
  end.

(** The same two locations joined at the [float] cost [1.0]. *)
Definition float_edge_calls : list (call pynum) :=
  [ AddLocation "a" origin [];
    AddLocation "b" origin [];
    AddConnection "a" "b" (Some (num_float 1)) ].

Definition float_edge : CityMap pynum :=
  match run no_distance float_edge_calls CityMap_init with
  | Ok m => m
  | Raise _ => CityMap_init
  end.

End Examples.

(* ===================================================================== *)
(** * Facts about the Python layer *)
(* ===================================================================== *)

Section PyFacts.

Lemma bind_Ok_inv {A B} (m : result A) (k : A -> result B) (b : B) :
  (a ← m; k a) = Ok b -> exists a, m = Ok a /\ k a = Ok b.
Proof. destruct m as [a|e]; simpl; [eauto | discriminate]. Qed.

Lemma for_each_Ok {A B} (f : A -> B) (body : A -> result B) (xs : list A) :
  (forall x, x ∈ xs -> body x = Ok (f x)) ->
  for_each body xs = Ok (map f xs).
Proof.
  induction xs as [|x xs IH]; intros Hbody; simpl; [reflexivity|].
  rewrite Hbody by left. simpl.
  rewrite IH; [reflexivity|]. intros y Hy. apply Hbody. by right.
Qed.

(** A loop that returns has run its body on every element, in order. *)
Lemma for_each_Ok_inv {A B} (body : A -> result B) (xs : list A) (ys : list B) :
  for_each body xs = Ok ys -> Forall2 (fun x y => body x = Ok y) xs ys.
Proof.
  revert ys. induction xs as [|x xs IH]; intros ys; simpl.
  - intros [= <-]. constructor.
  - destruct (body x) as [y|e] eqn:Hx; simpl; [|discriminate].
    destruct (for_each body xs) as [ys'|e]; simpl; [|discriminate].
    intros [= <-]. constructor; [done|by apply IH].
Qed.

(** A loop whose body returns on every element returns. *)
Lemma for_each_defined {A B} (body : A -> result B) (xs : list A) :
  (forall x, x ∈ xs -> exists y, body x = Ok y) ->
  exists ys, for_each body xs = Ok ys.
Proof.
  induction xs as [|x xs IH]; intros Hbody; simpl; [eauto|].
  destruct (Hbody x) as [y ->]; [left|]. simpl.
  destruct IH as [ys ->]; [|simpl; eauto].
  intros x' Hx'. apply Hbody. by right.
Qed.

(** ** Ordered dictionaries *)

Context {K V : Type} `{EqDecision K}.

Lemma od_get_set (k k' : K) (v : V) (d : list (K * V)) :
  od_get k' (od_set k v d) = if decide (k = k') then Some v else od_get k' d.
Proof.
  induction d as [|[k0 v0] d IH]; simpl.
  - repeat case_decide; congruence.
  - destruct (decide (k0 = k)) as [->|Hne]; simpl.
    + repeat case_decide; congruence.
    + rewrite IH. repeat case_decide; congruence.
Qed.

Lemma od_get_None (k : K) (d : list (K * V)) :
  od_get k d = None <-> k ∉ d.*1.
Proof.
  induction d as [|[k0 v0] d IH]; simpl.
  - split; [intros _; apply not_elem_of_nil | done].
  - rewrite not_elem_of_cons. case_decide; subst.
    + split; [discriminate | intros [? _]; congruence].
    + rewrite IH. split; [intros ?; split; [congruence | done] | by intros [_ ?]].
Qed.

Lemma od_set_keys (k k' : K) (v : V) (d : list (K * V)) :
  k' ∈ (od_set k v d).*1 <-> k' = k \/ k' ∈ d.*1.
Proof.
  induction d as [|[k0 v0] d IH]; simpl.
  - rewrite list_elem_of_singleton, elem_of_nil. tauto.
  - case_decide; subst; simpl; rewrite !elem_of_cons; [tauto|].
    rewrite IH. tauto.
Qed.

Lemma od_del_keys (k k' : K) (d : list (K * V)) :
  k' ∈ (od_del k d).*1 -> k' ∈ d.*1.
Proof.
  induction d as [|[k0 v0] d IH]; simpl; [done|].
  case_decide; simpl; rewrite !elem_of_cons; [tauto|].
  intros [->|Hin]; [by left|right; by apply IH].
Qed.

Lemma od_del_NoDup (k : K) (d : list (K * V)) :
  NoDup d.*1 -> NoDup (od_del k d).*1 /\ k ∉ (od_del k d).*1.
Proof.
  induction d as [|[k0 v0] d IH]; simpl.
  - intros _. split; [constructor | apply not_elem_of_nil].
  - rewrite NoDup_cons. intros [Hk0 Hd]. case_decide; subst; [done|].
    destruct (IH Hd) as [IH1 IH2]. simpl. split.
    + apply NoDup_cons. split; [|done]. intros Hin. by apply Hk0, (od_del_keys k).
    + apply not_elem_of_cons. split; [congruence | done].
Qed.

Lemma od_set_keys_present (k : K) (v : V) (d : list (K * V)) :
  k ∈ d.*1 -> (od_set k v d).*1 = d.*1.
Proof.
  induction d as [|[k0 v0] d IH]; simpl.
  - intros Hin. by apply elem_of_nil in Hin.
  - rewrite elem_of_cons. case_decide; subst; simpl; [done|].
    intros [->|Hin]; [done|]. f_equal. by apply IH.
Qed.

End PyFacts.

(** ** The integers as numbers *)

#[export] Instance Z_NumberOrder : NumberOrder Z.
Proof.
  split; simpl.
  - intros a b. apply Z.eqb_eq.
  - intros a. apply Z.ltb_irrefl.
  - intros a b c. rewrite !Z.ltb_lt. lia.
  - intros a b. rewrite !Z.ltb_lt. lia.
Qed.

(** ** The order on strings *)

Section StringOrder.

Lemma ascii_compare_refl (a : ascii) : Ascii.compare a a = Eq.
Proof. unfold Ascii.compare. apply N.compare_refl. Qed.

Lemma ascii_compare_lt_trans (a b c : ascii) :
  Ascii.compare a b = Lt -> Ascii.compare b c = Lt -> Ascii.compare a c = Lt.
Proof.
  unfold Ascii.compare. rewrite !N.compare_lt_iff. apply N.lt_trans.
Qed.

Lemma string_leb_refl (s : string) : String.leb s s = true.
Proof.
  unfold String.leb. induction s as [|a s IH]; simpl; [reflexivity|].
  by rewrite ascii_compare_refl.
Qed.

Lemma string_leb_trans (s1 s2 s3 : string) :
  String.leb s1 s2 = true -> String.leb s2 s3 = true -> String.leb s1 s3 = true.
Proof.
  unfold String.leb. revert s2 s3.
  induction s1 as [|a s1 IH]; intros [|b s2] [|c s3]; simpl; try done.
  destruct (Ascii.compare a b) eqn:Hab; try done;
    destruct (Ascii.compare b c) eqn:Hbc; try done.
  - apply Ascii.compare_eq_iff in Hab, Hbc. subst.
    rewrite ascii_compare_refl. apply IH.
  - apply Ascii.compare_eq_iff in Hab. subst. by rewrite Hbc.
  - apply Ascii.compare_eq_iff in Hbc. subst. by rewrite Hab.
  - by rewrite (ascii_compare_lt_trans a b c).
Qed.

#[export] Instance str_le_refl : Reflexive str_le.
Proof. intros s. apply string_leb_refl. Qed.

#[export] Instance str_le_trans : Transitive str_le.
Proof. intros a b c. apply string_leb_trans. Qed.

#[export] Instance str_le_total : Total str_le.
Proof. intros a b. apply String.leb_total. Qed.

#[export] Instance str_le_antisym : AntiSymm (=) str_le.
Proof. intros a b. apply String.leb_antisym. Qed.

Lemma sorted_Permutation (xs : list string) : sorted xs ≡ₚ xs.
Proof. apply merge_sort_Permutation. Qed.

(** Any sorting of [xs] is [sorted xs]: the order is total and
    antisymmetric, so the choice of the sorting algorithm is immaterial. *)
Lemma sorted_unique (xs ys : list string) :
  Sorted str_le ys -> ys ≡ₚ xs -> ys = sorted xs.
Proof.
  intros Hsorted Hperm. apply (Sorted_unique str_le); [done| |].
  - apply Sorted_merge_sort, _.
  - by rewrite Hperm, sorted_Permutation.
Qed.

Lemma sorted_length (xs : list string) : length (sorted xs) = length xs.
Proof. by rewrite sorted_Permutation. Qed.

Lemma sorted_elem_of (x : string) (xs : list string) : x ∈ sorted xs <-> x ∈ xs.
Proof. by rewrite sorted_Permutation. Qed.

(** The first element of [sorted(xs)] is a least element of [xs]. *)
Lemma sorted_head_least (xs : list string) (x : string) :
  head (sorted xs) = Some x -> x ∈ xs /\ forall y, y ∈ xs -> str_le x y.
Proof.
  intros Hhead.
  pose proof (StronglySorted_merge_sort str_le xs) as Hsorted.
  fold (sorted xs) in Hsorted.
  destruct (sorted xs) as [|x0 rest] eqn:Hs; simplify_eq/=.
  apply StronglySorted_inv in Hsorted as [_ Hall].
  split.
  - apply sorted_elem_of. rewrite Hs. left.
  - intros y Hy. apply sorted_elem_of in Hy. rewrite Hs in Hy.
    apply elem_of_cons in Hy as [->|Hy]; [reflexivity|].
    rewrite Forall_forall in Hall. by apply Hall.
Qed.

Lemma sorted_head_None (xs : list string) : head (sorted xs) = None -> xs = [].
Proof.
  intros Hhead. destruct (sorted xs) eqn:Hs; [|discriminate].
  apply Permutation_nil_r. rewrite <- Hs. symmetry. apply sorted_Permutation.
Qed.

End StringOrder.

(* ===================================================================== *)
(** * The graph model *)
(* ===================================================================== *)

Section MapFacts.
Context {R : Type} `{Number R}.
Import mapUtil Props.

Variable computeDistance : GeoLocation R -> GeoLocation R -> result R.

Local Abbreviation addConnection := (addConnection computeDistance).
Local Abbreviation addLandmark := (addLandmark computeDistance).
Local Abbreviation addLandmarks := (addLandmarks computeDistance).
Local Abbreviation exec := (exec computeDistance).
Local Abbreviation run := (run computeDistance).

(** ** Reads of a defaultdict *)

(** The default that a missed read stores is invisible to later reads. *)
Lemma getdefault_dd_touch {V} (dflt : V) (d : gmap string V) (k k' : string) :
  getdefault dflt (dd_touch dflt d k) k' = getdefault dflt d k'.
Proof.
  unfold getdefault, dd_touch. destruct (d !! k) eqn:Hk; [reflexivity|].
  destruct (decide (k = k')) as [->|Hne].
  - by rewrite lookup_insert_eq, Hk.
  - by rewrite lookup_insert_ne.
Qed.

(** ** One assignment [distances[source][target] = d] *)

Lemma lookup_set_distance (source target : string) (d : R)
    (ds : gmap string (list (string * R))) (a b : string) :
  (inner ← set_distance source target d ds !! a; od_get b inner) =
  if decide (a = source /\ b = target) then Some d
  else inner ← ds !! a; od_get b inner.
Proof.
  unfold set_distance, getdefault.
  destruct (decide (source = a)) as [->|Hne].
  - rewrite lookup_insert_eq. simpl. rewrite od_get_set.
    destruct (decide (target = b)) as [->|Hb].
    + by rewrite decide_True.
    + rewrite decide_False by (intros [_ ?]; congruence).
      by destruct (ds !! a).
  - rewrite lookup_insert_ne by done.
    by rewrite decide_False by (intros [? _]; congruence).
Qed.

Lemma set_distance_keys (source target : string) (d : R)
    (ds : gmap string (list (string * R))) (a : string) (inner : list (string * R)) :
  set_distance source target d ds !! a = Some inner ->
  (a = source /\ forall b, b ∈ inner.*1 -> b = target \/
      exists inner0, ds !! a = Some inner0 /\ b ∈ inner0.*1) \/
  ds !! a = Some inner.
Proof.
  unfold set_distance, getdefault.
  destruct (decide (source = a)) as [->|Hne].
  - rewrite lookup_insert_eq. intros [= <-]. left. split; [done|].
    intros b Hb. apply od_set_keys in Hb as [->|Hb]; [by left|right].
    destruct (ds !! a) as [inner0|]; simpl in Hb; [eauto|].
    by apply elem_of_nil in Hb.
  - rewrite lookup_insert_ne by done. by right.
Qed.

(** ** What each call changes *)

Lemma addLocation_Ok label location tags0 (m m' : CityMap R) :
  addLocation label location tags0 m = Ok m' ->
  geoLocations m !! label = None /\
  geoLocations m' = <[label := location]> (geoLocations m) /\
  tags m' = <[label := makeTag "label" label :: tags0]> (tags m) /\
  distances m' = distances m.
Proof.
  unfold addLocation. destruct (geoLocations m !! label); [discriminate|].
  by intros [= <-].
Qed.

Lemma addConnection_Ok source target distance0 (m m' : CityMap R) :
  addConnection source target distance0 m = Ok m' ->
  exists d,
    match distance0 with
    | Some d0 => d = d0
    | None => exists g1 g2, geoLocations m !! source = Some g1 /\
                            geoLocations m !! target = Some g2 /\
                            computeDistance g1 g2 = Ok d
    end /\
    geoLocations m' = geoLocations m /\
    tags m' = tags m /\
    distances m' = set_distance target source d
                     (set_distance source target d (distances m)).
Proof.
  unfold mapUtil.addConnection. intros Hrun.
  apply bind_Ok_inv in Hrun as (d & Hd & Hm). injection Hm as <-.
  exists d. split; [|done].
  destruct distance0 as [d0|]; [by injection Hd|].
  apply bind_Ok_inv in Hd as (g1 & Hg1 & Hd).
  apply bind_Ok_inv in Hd as (g2 & Hg2 & Hd).
  unfold getitem in Hg1, Hg2.
  destruct (geoLocations m !! source) eqn:Hs; [|discriminate].
  destruct (geoLocations m !! target) eqn:Ht; [|discriminate].
  injection Hg1 as ->. injection Hg2 as ->. eauto.
Qed.

(** The items that [min] compares in [addLandmarks]: one per location, the
    distance of the landmark to it and its label. *)
Lemma landmark_distances_Ok item (m : CityMap R) (items : list (R * string)) :
  landmark_distances computeDistance item m = Ok items ->
  (forall d l, (d, l) ∈ items ->
     exists g, geoLocations m !! l = Some g /\ computeDistance (geo item) g = Ok d) /\
  (forall l g, geoLocations m !! l = Some g ->
     exists d, computeDistance (geo item) g = Ok d /\ (d, l) ∈ items).
Proof.
  unfold landmark_distances. intros Hitems. apply for_each_Ok_inv in Hitems.
  split.
  - intros d l Hin.
    destruct (proj1 (list_elem_of_lookup _ _) Hin) as [i Hi].
    destruct (Forall2_lookup_r _ _ _ _ _ Hitems Hi) as ([l0 g0] & Hkv & Hbody).
    simpl in Hbody. apply bind_Ok_inv in Hbody as (d0 & Hd0 & [= <- <-]).
    exists g0. split; [|done].
    apply elem_of_map_to_list. by eapply list_elem_of_lookup_2.
  - intros l g Hl. apply elem_of_map_to_list in Hl.
    destruct (proj1 (list_elem_of_lookup _ _) Hl) as [i Hi].
    destruct (Forall2_lookup_l _ _ _ _ _ Hitems Hi) as ([d0 l0] & Hitem & Hbody).
    simpl in Hbody. apply bind_Ok_inv in Hbody as (d & Hd & [= <- <-]).
    exists d. split; [done|]. by eapply list_elem_of_lookup_2.
Qed.

Lemma landmark_distances_defined item (m : CityMap R) :
  (forall l g, geoLocations m !! l = Some g ->
     exists d, computeDistance (geo item) g = Ok d) ->
  exists items, landmark_distances computeDistance item m = Ok items /\
                length items = length (map_to_list (geoLocations m)).
Proof.
  intros Hdefined. unfold landmark_distances.
  destruct (for_each_defined
              (fun kv : string * GeoLocation R =>
                 d ← computeDistance (geo item) kv.2; Ok (d, kv.1))
              (map_to_list (geoLocations m))) as [items Hitems].
  - intros [l g] Hin. apply elem_of_map_to_list in Hin.
    destruct (Hdefined l g Hin) as [d Hd]. simpl. rewrite Hd. simpl. eauto.
  - exists items. split; [done|].
    apply for_each_Ok_inv in Hitems. symmetry. by eapply Forall2_length.
Qed.

Lemma addLandmark_Ok tol item (m m' : CityMap R) :
  addLandmark tol item m = Ok m' ->
  geoLocations m' = geoLocations m /\ distances m' = distances m.
Proof.
  unfold mapUtil.addLandmark. intros Hrun.
  apply bind_Ok_inv in Hrun as (items & _ & Hrun).
  apply bind_Ok_inv in Hrun as ([bestDistance bestLabel] & _ & Hm).
  destruct (num_ltb bestDistance tol); by injection Hm as <-.
Qed.

(** [addLandmarks] leaves [geoLocations] and [distances] as they are. *)
Lemma addLandmarks_frame landmarks tol (m m' : CityMap R) :
  addLandmarks landmarks tol m = Ok m' ->
  geoLocations m' = geoLocations m /\ distances m' = distances m.
Proof.
  revert m. induction landmarks as [|item rest IH]; intros m; simpl.
  - by intros [= <-].
  - intros Hrun. apply bind_Ok_inv in Hrun as (m1 & H1 & Hrest).
    apply addLandmark_Ok in H1 as [Hg Hd].
    apply IH in Hrest as [Hg' Hd']. split; congruence.
Qed.

(** A property that every call preserves holds after every run. *)
Lemma run_preserves (P : CityMap R -> Prop) :
  (forall c m m', P m -> exec c m = Ok m' -> P m') ->
  forall calls m m', P m -> run calls m = Ok m' -> P m'.
Proof.
  intros Hstep calls. induction calls as [|c rest IH]; intros m m' HP; simpl.
  - by intros [= <-].
  - intros Hrun. apply bind_Ok_inv in Hrun as (m1 & H1 & Hrest).
    eapply IH; [|exact Hrest]. eapply Hstep; eauto.
Qed.

(** ** Symmetry of the distances *)

Lemma symmetric_init : symmetric (CityMap_init (R := R)).
Proof. intros a b. reflexivity. Qed.

Lemma distance_addConnection source target distance0 (m m' : CityMap R) :
  addConnection source target distance0 m = Ok m' ->
  exists d, forall a b,
    distance m' a b =
    if decide ((a = source /\ b = target) \/ (a = target /\ b = source))
    then Some d else distance m a b.
Proof.
  intros Hrun. apply addConnection_Ok in Hrun as (d & _ & _ & _ & Hds).
  exists d. intros a b. unfold distance. rewrite Hds.
  rewrite !lookup_set_distance.
  repeat case_decide; try reflexivity; tauto.
Qed.

Lemma symmetric_exec (c : call R) (m m' : CityMap R) :
  symmetric m -> exec c m = Ok m' -> symmetric m'.
Proof.
  intros Hsym Hexec. destruct c as [l g ts|s t d0|ls tol]; simpl in Hexec.
  - apply addLocation_Ok in Hexec as (_ & _ & _ & Hds).
    intros a b. unfold distance. rewrite Hds. apply Hsym.
  - apply distance_addConnection in Hexec as (d & Hd).
    intros a b. rewrite !Hd.
    repeat case_decide; try reflexivity; try tauto. apply Hsym.
  - apply addLandmarks_frame in Hexec as (_ & Hds).
    intros a b. unfold distance. rewrite Hds. apply Hsym.
Qed.

(** C4.  After any sequence of [addLocation], [addConnection] (with or
    without an explicit distance) and [addLandmarks] calls on a new
    [CityMap], the distances are symmetric: for all labels [a] and [b],
    [distances[a][b]] is present iff [distances[b][a]] is present, and the
    two values are then equal. *)
Theorem distances_symmetric (calls : list (call R)) (m : CityMap R) :
  run calls CityMap_init = Ok m ->
  forall a b, distance m a b = distance m b a.
Proof.
  intros Hrun. change (symmetric m).
  eapply run_preserves; [apply symmetric_exec | apply symmetric_init | exact Hrun].
Qed.

(** ** Labels of [distances] and keys of [geoLocations] *)

Lemma set_distance_closed (P : string -> Prop) (source target : string) (d : R)
    (ds : gmap string (list (string * R))) :
  P source -> P target ->
  (forall a, is_Some (ds !! a) -> P a) ->
  (forall a inner b, ds !! a = Some inner -> b ∈ inner.*1 -> P b) ->
  (forall a, is_Some (set_distance source target d ds !! a) -> P a) /\
  (forall a inner b, set_distance source target d ds !! a = Some inner ->
                     b ∈ inner.*1 -> P b).
Proof.
  intros Hs Ht Houter Hinner. split.
  - intros a [inner Ha].
    apply set_distance_keys in Ha as [[-> _]|Ha]; [done|]. apply Houter. eauto.
  - intros a inner b Ha Hb.
    apply set_distance_keys in Ha as [[-> Hkeys]|Ha].
    + destruct (Hkeys b Hb) as [->|(inner0 & H0 & Hb0)]; [done|]. eauto.
    + eauto.
Qed.

Lemma labels_closed_init : labels_closed (CityMap_init (R := R)).
Proof.
  split.
  - intros a [inner Ha]. simpl in Ha. by rewrite lookup_empty in Ha.
  - intros a inner b Ha. simpl in Ha. by rewrite lookup_empty in Ha.
Qed.

Lemma labels_closed_exec (c : call R) (m m' : CityMap R) :
  labels_closed m -> endpoints_known c m = true -> exec c m = Ok m' ->
  labels_closed m'.
Proof.
  intros [Houter Hinner] Hknown Hexec.
  destruct c as [l g ts|s t d0|ls tol]; simpl in Hexec.
  - apply addLocation_Ok in Hexec as (_ & Hg & _ & Hds).
    unfold labels_closed. rewrite Hg, Hds.
    split; [intros a Ha|intros a inner b Ha Hb];
      apply lookup_insert_is_Some'; right; eauto.
  - apply addConnection_Ok in Hexec as (d & Hd & Hg & _ & Hds).
    assert (is_Some (geoLocations m !! s) /\ is_Some (geoLocations m !! t))
      as [Hs Ht].
    { destruct d0 as [d0|].
      - simpl in Hknown. apply andb_prop in Hknown as [H1 H2].
        split; eapply bool_decide_eq_true_1; eassumption.
      - destruct Hd as (g1 & g2 & -> & -> & _). eauto. }
    unfold labels_closed. rewrite Hg, Hds.
    destruct (set_distance_closed (fun l => is_Some (geoLocations m !! l))
                s t d (distances m)) as [Houter1 Hinner1]; try done.
    by apply set_distance_closed.
  - apply addLandmarks_frame in Hexec as (Hg & Hds).
    unfold labels_closed. by rewrite Hg, Hds.
Qed.

Lemma labels_closed_run (calls : list (call R)) (m0 m : CityMap R) :
  labels_closed m0 -> run calls m0 = Ok m ->
  run_endpoints_known computeDistance calls m0 = true -> labels_closed m.
Proof.
  revert m0. induction calls as [|c rest IH]; intros m0 Hclosed; simpl.
  - by intros [= <-].
  - intros Hrun Hknown. apply bind_Ok_inv in Hrun as (m1 & H1 & Hrest).
    apply andb_prop in Hknown as [Hc Hk]. rewrite H1 in Hk.
    eapply IH; [|exact Hrest|exact Hk]. by eapply labels_closed_exec.
Qed.

(** C6, amended.  For every [CityMap] built by a sequence of [addLocation],
    [addConnection] and [addLandmarks] calls in which every [addConnection]
    that passes an explicit distance names two labels already added by
    [addLocation], every label occurring as an outer key or as an inner key
    of [distances] is a key of [geoLocations].  (A call that omits the
    distance needs no such condition: it reads both coordinates first.) *)
Theorem distances_labels_known (calls : list (call R)) (m : CityMap R) :
  run calls CityMap_init = Ok m ->
  run_endpoints_known computeDistance calls CityMap_init = true ->
  labels_closed m.
Proof. apply labels_closed_run, labels_closed_init. Qed.

(** ** locationFromTag *)

Lemma elem_of_tagged (tag : string) (m : CityMap R) (l : string) :
  l ∈ map fst (filter (fun kv : string * list string => contains tag kv.2 = true)
                      (map_to_list (tags m)))
  <-> tag ∈ tags_at m l.
Proof.
  change (map fst ?xs) with (fst <$> xs).
  rewrite list_elem_of_fmap. unfold tags_at, getdefault, contains. split.
  - intros ([l0 ts] & -> & Hin). apply list_elem_of_filter in Hin as [Htag Hin].
    apply elem_of_map_to_list in Hin. simpl in *. rewrite Hin. simpl.
    by apply bool_decide_eq_true in Htag.
  - intros Htag. destruct (tags m !! l) as [ts|] eqn:Hl; simpl in Htag.
    + exists (l, ts). split; [done|]. apply list_elem_of_filter. split.
      * simpl. by apply bool_decide_eq_true.
      * by apply elem_of_map_to_list.
    + by apply elem_of_nil in Htag.
Qed.

(** C7.  [locationFromTag(tag, cityMap)] is a total function of the tag and
    the map (it raises nothing and changes nothing, so repeated calls on the
    same map agree).  When it returns a label, that label carries the tag
    and is lexicographically least among the labels that carry it; it
    returns [None] exactly when no location carries the tag. *)
Theorem locationFromTag_least (tag : string) (m : CityMap R) :
  match locationFromTag tag m with
  | Some l => tag ∈ tags_at m l /\ forall l', tag ∈ tags_at m l' -> str_le l l'
  | None => forall l', tag ∉ tags_at m l'
  end.
Proof.
  unfold locationFromTag.
  destruct (head _) as [l|] eqn:Hhead.
  - apply sorted_head_least in Hhead as [Hin Hleast]. split.
    + by apply elem_of_tagged.
    + intros l' Hl'. apply Hleast. by apply elem_of_tagged.
  - apply sorted_head_None in Hhead. intros l' Hl'.
    apply elem_of_tagged in Hl'. rewrite Hhead in Hl'. by apply elem_of_nil in Hl'.
Qed.

(** ** addLandmarks *)

(** C8.  On a map without locations, [addLandmarks] with a non-empty list of
    landmarks does not drop the landmark: [min] is applied to an empty
    sequence and raises [ValueError]. *)
Theorem addLandmarks_empty_map_raises (item : Landmark R) (rest : list (Landmark R))
    (toleranceMeters : R) :
  addLandmarks (item :: rest) toleranceMeters CityMap_init = Raise ValueError.
Proof.
  simpl. unfold mapUtil.addLandmark, landmark_distances. simpl.
  by rewrite map_to_list_empty.
Qed.

Lemma addLandmark_succeeds tol item (m : CityMap R) :
  geoLocations m <> ∅ ->
  (forall l g, geoLocations m !! l = Some g ->
     exists d, computeDistance (geo item) g = Ok d) ->
  exists m', addLandmark tol item m = Ok m'.
Proof.
  intros Hne Hdefined. unfold mapUtil.addLandmark.
  destruct (landmark_distances_defined item m Hdefined) as (items & -> & Hlen).
  simpl. destruct items as [|x rest].
  - destruct (map_to_list (geoLocations m)) eqn:Hl; [|discriminate].
    by apply map_to_list_empty_iff in Hl.
  - simpl. destruct (fold_left _ _ _) as [bestDistance bestLabel].
    destruct (num_ltb bestDistance tol); eauto.
Qed.

Lemma addLandmark_distances_defined tol item (m m' : CityMap R) :
  addLandmark tol item m = Ok m' ->
  forall l g, geoLocations m !! l = Some g ->
    exists d, computeDistance (geo item) g = Ok d.
Proof.
  unfold mapUtil.addLandmark. intros Hrun l g Hl.
  apply bind_Ok_inv in Hrun as (items & Hitems & _).
  apply landmark_distances_Ok in Hitems as [_ Hall].
  destruct (Hall l g Hl) as (d & Hd & _). eauto.
Qed.

(** X22.  On a map with at least one location, [addLandmarks] returns
    exactly when [computeDistance] returns for every landmark of the list
    and every location of the map; when it returns it has changed neither
    [geoLocations] nor [distances]. *)
Theorem addLandmarks_succeeds landmarks tol (m : CityMap R) :
  geoLocations m <> ∅ ->
  ((forall item l g, item ∈ landmarks -> geoLocations m !! l = Some g ->
      exists d, computeDistance (geo item) g = Ok d)
   <-> exists m', addLandmarks landmarks tol m = Ok m') /\
  (forall m', addLandmarks landmarks tol m = Ok m' ->
     geoLocations m' = geoLocations m /\ distances m' = distances m).
Proof.
  intros Hne. split; [|intros m'; apply addLandmarks_frame]. split.
  - revert m Hne. induction landmarks as [|item rest IH]; intros m Hne Hdefined; simpl.
    + eauto.
    + destruct (addLandmark_succeeds tol item m Hne) as [m1 H1].
      { intros l g. apply Hdefined. left. }
      rewrite H1. simpl.
      pose proof (addLandmark_Ok _ _ _ _ H1) as [Hg Hd].
      apply IH; [congruence|].
      intros item' l g Hin. rewrite Hg. apply Hdefined. by right.
  - intros [m' Hrun]. revert m Hne Hrun.
    induction landmarks as [|item rest IH]; intros m Hne Hrun item' l g Hin Hl.
    + by apply elem_of_nil in Hin.
    + simpl in Hrun. apply bind_Ok_inv in Hrun as (m1 & H1 & Hrest).
      pose proof (addLandmark_Ok _ _ _ _ H1) as [Hg Hd].
      apply elem_of_cons in Hin as [->|Hin].
      * by eapply addLandmark_distances_defined.
      * apply (IH m1) with (item := item') (l := l); [congruence|done|done|congruence].
Qed.

(** [min] returns one of its items. *)
Lemma min_tuple_elem (items : list (R * string)) (best : R * string) :
  min_tuple items = Ok best -> best ∈ items.
Proof.
  unfold min_tuple. destruct items as [|x rest]; [discriminate|].
  intros [= <-]. revert x. induction rest as [|y rest IH]; intros x; simpl; [by left|].
  destruct (tuple_lt y x).
  - right. apply IH.
  - specialize (IH x). apply elem_of_cons in IH as [->|IH]; [by left|].
    by do 2 right.
Qed.

(** Under the order laws, no item is below the outcome of [min]. *)
Lemma fold_min_least `{!NumberOrder R} (rest : list (R * string)) (acc : R * string) :
  let best := fold_left (fun best item => if tuple_lt item best then item else best)
                        rest acc in
  num_ltb acc.1 best.1 = false /\
  forall x, x ∈ rest -> num_ltb x.1 best.1 = false.
Proof.
  assert (forall a b c : R,
            num_ltb b a = false -> num_ltb c b = false -> num_ltb c a = false) as Hle.
  { intros a b c Hba Hcb. destruct (num_ltb c a) eqn:Hca; [|done].
    destruct (num_ltb_total a b) as [->|[Hab|Hab]]; [congruence| |congruence].
    rewrite (num_ltb_trans c a b) in Hcb; done. }
  revert acc. induction rest as [|y rest IH]; intros acc; simpl.
  - split; [apply num_ltb_irrefl|]. intros x Hx. by apply elem_of_nil in Hx.
  - destruct (tuple_lt y acc) eqn:Hlt.
    + destruct (IH y) as [Hy Hrest]. split.
      * apply (Hle _ y.1); [done|].
        unfold tuple_lt in Hlt. destruct (num_eqb y.1 acc.1) eqn:Heq.
        -- apply num_eqb_eq in Heq. rewrite Heq. apply num_ltb_irrefl.
        -- destruct (num_ltb acc.1 y.1) eqn:Hay; [|done].
           pose proof (num_ltb_trans _ _ _ Hlt Hay) as Hyy.
           by rewrite num_ltb_irrefl in Hyy.
      * intros x Hx. apply elem_of_cons in Hx as [->|Hx]; [done|by apply Hrest].
    + destruct (IH acc) as [Hacc Hrest]. split; [done|].
      intros x Hx. apply elem_of_cons in Hx as [->|Hx]; [|by apply Hrest].
      apply (Hle _ acc.1); [done|].
      unfold tuple_lt in Hlt. destruct (num_eqb y.1 acc.1) eqn:Heq; [|done].
      apply num_eqb_eq in Heq. rewrite Heq. apply num_ltb_irrefl.
Qed.

(** X23.  On a map with locations, under the order laws, the label that
    [addLandmark] picks is a nearest one; the landmark's tags are appended
    there when that distance is below the tolerance, and the map is left as
    it is otherwise. *)
Theorem addLandmark_nearest `{!NumberOrder R} tol item (m m' : CityMap R) :
  addLandmark tol item m = Ok m' ->
  exists bestLabel g bestDistance,
    geoLocations m !! bestLabel = Some g /\
    computeDistance (geo item) g = Ok bestDistance /\
    (forall l' g', geoLocations m !! l' = Some g' ->
       exists d', computeDistance (geo item) g' = Ok d' /\
                  num_ltb d' bestDistance = false) /\
    m' = if num_ltb bestDistance tol
         then {| geoLocations := geoLocations m;
                 tags := append_key "amenity" (amenity item) bestLabel
                           (append_key "landmark" (landmark item) bestLabel (tags m));
                 distances := distances m |}
         else m.
Proof.
  unfold mapUtil.addLandmark. intros Hrun.
  apply bind_Ok_inv in Hrun as (items & Hitems & Hrun).
  apply bind_Ok_inv in Hrun as ([bestDistance bestLabel] & Hmin & Hm).
  apply landmark_distances_Ok in Hitems as [Hfrom Hall].
  pose proof (min_tuple_elem _ _ Hmin) as Hbest.
  destruct (Hfrom _ _ Hbest) as (g0 & Hg0 & Hd0).
  exists bestLabel, g0, bestDistance. split; [done|]. split; [done|]. split.
  - intros l' g' Hl'. destruct (Hall l' g' Hl') as (d' & Hd' & Hmem).
    exists d'. split; [done|].
    unfold min_tuple in Hmin. destruct items as [|x rest]; [discriminate|].
    injection Hmin as Hmin.
    destruct (fold_min_least rest x) as [Hx Hrest]. rewrite Hmin in Hx, Hrest.
    apply elem_of_cons in Hmem as [<-|Hmem]; [done|]. by apply (Hrest _ Hmem).
  - destruct (num_ltb _ tol); by injection Hm as <-.
Qed.

(** ** Labels that no call names *)


Lemma append_key_entry (key : string) (value : option string) (label : string)
    (ts : gmap string (list string)) (l : string) :
  is_Some (append_key key value label ts !! l) -> l = label \/ is_Some (ts !! l).
Proof.
  unfold append_key, append_tag. destruct value as [v|]; [|by right].
  intros Hl. apply lookup_insert_is_Some in Hl as [<-|[_ Hl]]; [by left|by right].
Qed.

Lemma addLandmark_entries tol item (m m' : CityMap R) (l : string) :
  addLandmark tol item m = Ok m' -> has_entry m' l -> has_entry m l.
Proof.
  unfold mapUtil.addLandmark. intros Hrun.
  apply bind_Ok_inv in Hrun as (items & Hitems & Hrun).
  apply bind_Ok_inv in Hrun as ([bestDistance bestLabel] & Hmin & Hm).
  apply min_tuple_elem in Hmin.
  apply landmark_distances_Ok in Hitems as [Hfrom _].
  destruct (Hfrom _ _ Hmin) as (g0 & Hin & _).
  destruct (num_ltb _ tol); injection Hm as <-; [|done].
  intros [Hg|[Ht|Hd]]; [by left| |by right; right]. simpl in Ht.
  apply append_key_entry in Ht as [->|Ht]; [left; eauto|].
  apply append_key_entry in Ht as [->|Ht]; [left; eauto|]. by right; left.
Qed.

Lemma addLandmarks_entries landmarks tol (m m' : CityMap R) (l : string) :
  addLandmarks landmarks tol m = Ok m' -> has_entry m' l -> has_entry m l.
Proof.
  revert m. induction landmarks as [|item rest IH]; intros m; simpl.
  - by intros [= <-].
  - intros Hrun. apply bind_Ok_inv in Hrun as (m1 & H1 & Hrest).
    intros Hl. eapply addLandmark_entries; [exact H1|]. by eapply IH.
Qed.

Lemma exec_entries (c : call R) (m m' : CityMap R) (l : string) :
  exec c m = Ok m' -> has_entry m' l -> mentions c l \/ has_entry m l.
Proof.
  destruct c as [l0 g ts|s t d0|ls tol]; simpl; intros Hexec.
  - apply addLocation_Ok in Hexec as (_ & Hg & Ht & Hd).
    unfold has_entry. rewrite Hg, Ht, Hd.
    rewrite !lookup_insert_is_Some. intros [[->|[_ ?]]|[[->|[_ ?]]|?]]; auto.
  - apply addConnection_Ok in Hexec as (d & _ & Hg & Ht & Hd).
    unfold has_entry. rewrite Hg, Ht, Hd.
    intros [?|[?|[inner Hl]]]; auto.
    apply set_distance_keys in Hl as [[-> _]|Hl]; [auto|].
    apply set_distance_keys in Hl as [[-> _]|Hl]; [auto|].
    right. right. right. eauto.
  - intros Hl. right. by eapply addLandmarks_entries.
Qed.

(** X24.  On a map built by calls, a label that no call names has no
    entry in the tags and in the distances. *)
Lemma unmentioned_label_absent (calls : list (call R)) (m : CityMap R) (label : string) :
  run calls CityMap_init = Ok m ->
  (forall c, c ∈ calls -> ~ mentions c label) ->
  tags m !! label = None /\ distances m !! label = None.
Proof.
  intros Hrun Hcalls.
  assert (~ has_entry m label) as Hnone.
  { revert Hrun Hcalls.
    assert (~ has_entry (CityMap_init (R := R)) label) as Hinit.
    { unfold has_entry. simpl. rewrite !lookup_empty.
      intros [[? ?]|[[? ?]|[? ?]]]; discriminate. }
    revert Hinit. generalize (CityMap_init (R := R)) as m0.
    induction calls as [|c rest IH]; intros m0 Hm0; simpl.
    - by intros [= <-].
    - intros Hrun Hcalls. apply bind_Ok_inv in Hrun as (m1 & H1 & Hrest).
      apply (IH m1); [|done|].
      + intros Hl. apply (exec_entries _ _ _ _ H1) in Hl as [Hl|Hl]; [|done].
        apply (Hcalls c); [left|done].
      + intros c' Hc'. apply Hcalls. by right. }
  unfold has_entry in Hnone.
  split; apply eq_None_not_Some; tauto.
Qed.

End MapFacts.

(* ===================================================================== *)
(** * Search problems, the reduction and the heuristics *)
(* ===================================================================== *)

Section SubmissionFacts.
Context {R : Type} `{Number R}.
Import mapUtil util submission grader.

Variable computeDistance : GeoLocation R -> GeoLocation R -> result R.

(** ** ShortestPathProblem on a label without entries *)

(** The reads of the two defaultdicts yield the empty default at a label
    without entry: [isEnd] then reads [[]] and [successorsAndCosts] reads
    [{}]. *)
Lemma isEnd_without_tags (startLocation endTag : string) (cityMap : CityMap R)
    (state : State) :
  tags cityMap !! location state = None ->
  isEnd (ShortestPathProblem startLocation endTag cityMap) state = false.
Proof.
  intros Htags. simpl. unfold ShortestPathProblem_isEnd, tags_at, getdefault.
  by rewrite Htags.
Qed.

Lemma successors_without_distances (startLocation endTag : string)
    (cityMap : CityMap R) (state : State) :
  distances cityMap !! location state = None ->
  successorsAndCosts (ShortestPathProblem startLocation endTag cityMap) state = Ok [].
Proof.
  intros Hdist. simpl.
  unfold ShortestPathProblem_successorsAndCosts, distances_at, getdefault.
  by rewrite Hdist.
Qed.

(** ** WaypointsShortestPathProblem *)

Lemma index_app_fresh (x : string) (pre rest : list string) :
  x ∉ pre -> index x (pre ++ x :: rest) = Ok (length pre).
Proof.
  induction pre as [|y pre IH]; intros Hfresh; simpl.
  - by rewrite decide_True.
  - apply not_elem_of_cons in Hfresh as [Hne Hfresh].
    rewrite decide_False by congruence. by rewrite IH.
Qed.

(** The loop that pops the satisfied tags computes a filter. *)
Lemma pop_satisfied_filter (tagsHere todo pre : list string) :
  (forall t, t ∈ pre -> t ∉ tagsHere) ->
  pop_satisfied tagsHere todo (pre ++ todo) =
  Ok (pre ++ filter (fun t => t ∉ tagsHere) todo).
Proof.
  revert pre. induction todo as [|tag todo IH]; intros pre Hpre; simpl.
  - reflexivity.
  - unfold contains. destruct (decide (tag ∈ tagsHere)) as [Hin|Hnot].
    + rewrite bool_decide_eq_true_2 by done.
      rewrite index_app_fresh by (intros Hp; by apply (Hpre tag)).
      simpl. unfold pop. rewrite delete_middle.
      rewrite filter_cons_False by (intros Hn; by apply Hn).
      by apply IH.
    + rewrite bool_decide_eq_false_2 by done.
      rewrite filter_cons_True by done.
      rewrite (cons_middle tag pre todo), (cons_middle tag pre (filter _ todo)).
      rewrite !app_assoc. apply IH.
      intros t Ht. apply elem_of_app in Ht as [Ht|Ht]; [by apply Hpre|].
      apply list_elem_of_singleton in Ht. by subst.
Qed.

Lemma waypoints_successors_at (cityMap : CityMap R) (L : string) (mem : list string) :
  let next_memory := sorted (filter (fun t => t ∉ tags_at cityMap L) mem) in
  WaypointsShortestPathProblem_successorsAndCosts cityMap
    {| location := L; memory := Some mem |} =
  Ok (map (fun kv : string * R =>
             (kv.1, {| location := kv.1; memory := Some next_memory |},
              num_add kv.2 (num_of_Z (Z.of_nat (length next_memory) * 50))))
          (distances_at cityMap L)).
Proof.
  intros next_memory. unfold WaypointsShortestPathProblem_successorsAndCosts.
  apply for_each_Ok. intros kv _. simpl.
  rewrite (pop_satisfied_filter _ mem []) by (intros t Ht; by apply elem_of_nil in Ht).
  simpl. unfold next_memory. by rewrite sorted_length.
Qed.

(** C3.  For every [WaypointsShortestPathProblem] and every state
    [(L, memory)], [successorsAndCosts] returns one triple per entry [N] of
    [distances[L]]: the action is [N], the next state is at [N] with memory
    the sorted tuple of the tags of [memory] that are not on [L]'s tag list,
    and the cost is the distance from [L] to [N] plus 50 times the number of
    tags in that next memory.  In particular the successors of the start
    state have already lost the tags of the start location. *)
Theorem waypoints_successors (startLocation : string) (waypointTags : list string)
    (endTag : string) (cityMap : CityMap R) (L : string) (mem : list string) :
  let problem := WaypointsShortestPathProblem startLocation waypointTags endTag cityMap in
  let remaining (here : string) (memory : list string) :=
    sorted (filter (fun t => t ∉ tags_at cityMap here) memory) in
  let step (here : string) (memory : list string) (kv : string * R) :=
    (kv.1, {| location := kv.1; memory := Some (remaining here memory) |},
     num_add kv.2 (num_of_Z (Z.of_nat (length (remaining here memory)) * 50))) in
  successorsAndCosts problem {| location := L; memory := Some mem |} =
    Ok (map (step L mem) (distances_at cityMap L)) /\
  successorsAndCosts problem (startState problem) =
    Ok (map (step startLocation (sorted waypointTags))
            (distances_at cityMap startLocation)).
Proof.
  simpl. split; apply waypoints_successors_at.
Qed.

(** ** aStarReduction *)

(** Whatever the problem, the successors of the reduced problem are read
    off the problem's [cityMap]: one per entry of [distances], at a state
    without memory, at the edge distance plus the heuristic of that state. *)
Lemma aStarReduction_successors (problem : SearchProblem R) (cityMap : CityMap R)
    (heuristic : Heuristic R) (h : State -> R) (state : State) :
  attr_cityMap problem = Some cityMap ->
  (forall s, evaluate heuristic s = Ok (h s)) ->
  successorsAndCosts (aStarReduction problem heuristic) state =
  Ok (map (fun kv : string * R =>
             let next := {| location := kv.1; memory := None |} in
             (kv.1, next, num_add kv.2 (h next)))
          (distances_at cityMap (location state))).
Proof.
  intros Hmap Hh. simpl.
  unfold NewSearchProblem_successorsAndCosts, getattr_cityMap. rewrite Hmap. simpl.
  apply for_each_Ok. intros kv _. by rewrite Hh.
Qed.

(** On a [ShortestPathProblem] this is the forwarding of the successors,
    with the heuristic of the next state added to each cost. *)
Lemma aStarReduction_ShortestPath_successors (startLocation endTag : string)
    (cityMap : CityMap R) (heuristic : Heuristic R) (h : State -> R) (state : State) :
  (forall s, evaluate heuristic s = Ok (h s)) ->
  exists succs,
    successorsAndCosts (ShortestPathProblem startLocation endTag cityMap) state = Ok succs /\
    successorsAndCosts
      (aStarReduction (ShortestPathProblem startLocation endTag cityMap) heuristic) state =
    Ok (map (fun asc : string * State * R =>
               (asc.1.1, asc.1.2, num_add asc.2 (h asc.1.2))) succs).
Proof.
  intros Hh. eexists. split; [reflexivity|].
  rewrite (aStarReduction_successors _ cityMap _ h) by done.
  f_equal. rewrite map_map. reflexivity.
Qed.

(** The search reads a problem through its three operations only. *)
Lemma search_ext (p q : SearchProblem R) :
  startState p = startState q ->
  (forall s, isEnd p s = isEnd q s) ->
  (forall s, successorsAndCosts p s = successorsAndCosts q s) ->
  forall fuel frontier explored back,
    search fuel p frontier explored back = search fuel q frontier explored back.
Proof.
  intros Hstart Hend Hsucc fuel.
  induction fuel as [|fuel IH]; intros frontier explored back; simpl; [reflexivity|].
  destruct (removeMin frontier) as [[[s c] frontier']|]; [|reflexivity].
  rewrite Hend, Hsucc, Hstart.
  destruct (isEnd q s); [reflexivity|].
  destruct (successorsAndCosts q s) as [succs|e]; [|reflexivity].
  destruct (relax _ s c succs frontier' back) as [frontier'' back'].
  apply IH.
Qed.

(** ** The heuristics *)

(** C5.  [NoWaypointsHeuristic.evaluate] returns no cost: on every state it
    raises [Exception("Not implemented yet")]. *)
Theorem NoWaypointsHeuristic_evaluate_raises (endTag : string) (cityMap : CityMap R)
    (state : State) :
  NoWaypointsHeuristic_evaluate endTag cityMap state =
  Raise (Exception "Not implemented yet").
Proof. reflexivity. Qed.

(** C9, amended.  When no location carries the end tag, so that
    [StraightLineHeuristic] has precomputed no target,
    [StraightLineHeuristic.evaluate] raises [KeyError] if the state's
    location has no coordinates in the map and otherwise returns its
    initial value [10000000.0] without raising. *)
Theorem evaluate_without_targets (endTag : string) (cityMap : CityMap R) (state : State) :
  StraightLineHeuristic_targets endTag cityMap = [] ->
  StraightLineHeuristic_evaluate computeDistance endTag cityMap state =
    match geoLocations cityMap !! location state with
    | Some _ => Ok (num_float 10000000)
    | None => Raise KeyError
    end.
Proof.
  intros Htargets.
  unfold StraightLineHeuristic_evaluate, getitem. rewrite Htargets.
  by destruct (geoLocations cityMap !! location state).
Qed.

End SubmissionFacts.

(* ===================================================================== *)
(** * The search engine *)
(* ===================================================================== *)

Section SearchFacts.
Context {R : Type} `{Number R}.
Import mapUtil util submission grader Props.

Lemma min_entry_elem (first : State * R) (rest : list (State * R)) :
  min_entry first rest ∈ first :: rest.
Proof.
  unfold min_entry. revert first.
  induction rest as [|x rest IH]; intros first; simpl; [by left|].
  destruct (num_ltb x.2 first.2).
  - right. apply IH.
  - specialize (IH first). apply elem_of_cons in IH as [->|IH]; [by left|].
    by do 2 right.
Qed.

Lemma removeMin_Some (frontier frontier' : list (State * R)) (s : State) (c : R) :
  removeMin frontier = Some (s, c, frontier') ->
  s ∈ frontier.*1 /\ frontier' = od_del s frontier.
Proof.
  unfold removeMin. destruct frontier as [|first rest]; [discriminate|].
  intros [= <- <- <-]. split; [|done].
  apply list_elem_of_fmap_2, min_entry_elem.
Qed.

Lemma frontier_ok_update (U : list State) (frontier frontier' explored : list (State * R))
    (s : State) (c : R) :
  frontier_ok U frontier explored -> s ∈ U -> s ∉ explored.*1 ->
  update frontier s c = Some frontier' ->
  frontier_ok U frontier' explored.
Proof.
  intros (Hnodup & HU & Hfresh) HsU Hs. unfold update.
  destruct (od_get s frontier) as [old|] eqn:Hget.
  - destruct (num_ltb c old); [|discriminate]. intros [= <-].
    assert (s ∈ frontier.*1) as Hin.
    { destruct (decide (s ∈ frontier.*1)); [done|].
      apply od_get_None in n. congruence. }
    unfold frontier_ok. by rewrite od_set_keys_present.
  - intros [= <-]. apply od_get_None in Hget.
    unfold frontier_ok. rewrite fmap_app. simpl. repeat split.
    + apply NoDup_app. repeat split; [done| |apply NoDup_singleton].
      intros x Hx Hx'. apply list_elem_of_singleton in Hx'. by subst.
    + intros x Hx. apply elem_of_app in Hx as [Hx|Hx]; [by apply HU|].
      apply list_elem_of_singleton in Hx. by subst.
    + intros x Hx. apply elem_of_app in Hx as [Hx|Hx]; [by apply Hfresh|].
      apply list_elem_of_singleton in Hx. by subst.
Qed.

Lemma frontier_ok_relax (U : list State) (explored : list (State * R)) (s : State)
    (c : R) (succs : list (string * State * R)) :
  (forall a s' c', (a, s', c') ∈ succs -> s' ∈ U) ->
  forall frontier back frontier' back',
    frontier_ok U frontier explored ->
    relax explored s c succs frontier back = (frontier', back') ->
    frontier_ok U frontier' explored.
Proof.
  induction succs as [|[[a s'] c'] succs IH]; intros HU frontier back frontier' back' Hok;
    simpl.
  - by intros [= <- _].
  - assert (forall a0 s0 c0, (a0, s0, c0) ∈ succs -> s0 ∈ U) as HU'.
    { intros a0 s0 c0 Hin. eapply HU. right. exact Hin. }
    destruct (od_get s' explored) eqn:Hexp; [by eapply IH|].
    destruct (update frontier s' (num_add c c')) as [frontier1|] eqn:Hup;
      [|by eapply IH].
    apply IH; [done|].
    eapply frontier_ok_update; [exact Hok| | |exact Hup].
    + eapply HU. left.
    + by apply od_get_None.
Qed.

(** Exhaustion of the frontier is the termination guarantee: when the
    successors never raise and stay inside a finite list [U] of states, the
    search finishes within [length U + 1] extractions. *)
Lemma search_terminates (problem : SearchProblem R) (U : list State) :
  (forall s, exists succs, successorsAndCosts problem s = Ok succs /\
                           forall a s' c, (a, s', c) ∈ succs -> s' ∈ U) ->
  forall fuel frontier explored back,
    frontier_ok U frontier explored ->
    NoDup explored.*1 -> (forall s, s ∈ explored.*1 -> s ∈ U) ->
    (length U < fuel + length explored)%nat ->
    exists r, search fuel problem frontier explored back = Finished r.
Proof.
  intros Hsucc fuel.
  induction fuel as [|fuel IH]; intros frontier explored back Hok Hnodup HU Hfuel.
  - exfalso.
    pose proof (submseteq_length _ _ (NoDup_submseteq _ _ Hnodup HU)) as Hlen.
    rewrite length_fmap in Hlen. lia.
  - simpl. destruct (removeMin frontier) as [[[s c] frontier']|] eqn:Hmin; [|eauto].
    destruct (isEnd problem s); [eauto|].
    apply removeMin_Some in Hmin as [Hs ->].
    destruct Hok as (Hfn & HfU & Hfresh).
    destruct (Hsucc s) as (succs & -> & HsuccU).
    destruct (relax _ s c succs (od_del s frontier) back) as [frontier'' back'] eqn:Hrelax.
    assert (NoDup (explored ++ [(s, c)]).*1) as Hnodup'.
    { rewrite fmap_app. apply NoDup_app. repeat split; [done| |apply NoDup_singleton].
      intros x Hx Hx'. apply list_elem_of_singleton in Hx'. subst.
      by apply (Hfresh s). }
    assert (forall x, x ∈ (explored ++ [(s, c)]).*1 -> x ∈ U) as HU'.
    { intros x. rewrite fmap_app, elem_of_app. intros [Hx|Hx]; [by apply HU|].
      apply list_elem_of_singleton in Hx. subst. by apply HfU. }
    pose proof (submseteq_length _ _ (NoDup_submseteq _ _ Hnodup' HU')) as Hlen.
    rewrite length_fmap, length_app in Hlen. simpl in Hlen.
    apply IH; [|done|done|rewrite length_app; simpl; lia].
    eapply frontier_ok_relax; [exact HsuccU| |exact Hrelax].
    destruct (od_del_NoDup s frontier Hfn) as [Hdn Hds]. repeat split; [done| |].
    + intros x Hx. by apply HfU, (od_del_keys s).
    + intros x Hx. rewrite fmap_app, elem_of_app. intros [Hx'|Hx'].
      * by apply (Hfresh x), Hx'; apply (od_del_keys s).
      * apply list_elem_of_singleton in Hx'. by subst.
Qed.

Lemma ShortestPathProblem_successors_known (startLocation endTag : string)
    (cityMap : CityMap R) (s : State) :
  exists succs,
    successorsAndCosts (ShortestPathProblem startLocation endTag cityMap) s = Ok succs /\
    forall a s' c, (a, s', c) ∈ succs ->
                   s' ∈ ShortestPathProblem_states startLocation cityMap.
Proof.
  eexists. split; [reflexivity|]. intros a s' c Hin.
  change (map ?f ?xs) with (f <$> xs) in Hin.
  apply list_elem_of_fmap in Hin as ([l d] & [= -> -> ->] & Hin). simpl.
  unfold ShortestPathProblem_states. right.
  change (map ?f ?xs) with (f <$> xs).
  apply (list_elem_of_fmap_2 (fun l0 => {| location := l0; memory := None |})).
  unfold distances_at, getdefault in Hin.
  destruct (distances cityMap !! location s) as [inner|] eqn:Hinner; simpl in Hin;
    [|by apply elem_of_nil in Hin].
  apply list_elem_of_In, in_concat. exists (inner.*1). split.
  - apply list_elem_of_In.
    change (map ?f ?xs) with (f <$> xs).
    apply (list_elem_of_fmap_2' _ _ (location s, inner)); [|done].
    by apply elem_of_map_to_list.
  - apply list_elem_of_In. by apply (list_elem_of_fmap_2 fst _ (l, d)).
Qed.

End SearchFacts.

(* ===================================================================== *)
(** * Paths: checkValid, getTotalCost and the search problems *)
(* ===================================================================== *)

Section DictFacts.
Context {K V : Type} `{EqDecision K}.

Lemma od_get_is_Some (k : K) (d : list (K * V)) :
  is_Some (od_get k d) <-> k ∈ d.*1.
Proof.
  rewrite <- not_eq_None_Some, od_get_None.
  destruct (decide (k ∈ d.*1)); tauto.
Qed.

Lemma od_get_elem (k : K) (v : V) (d : list (K * V)) :
  od_get k d = Some v -> (k, v) ∈ d.
Proof.
  induction d as [|[k0 v0] d IH]; simpl; [discriminate|].
  case_decide; subst.
  - intros [= ->]. left.
  - intros Hget. right. by apply IH.
Qed.

Lemma od_get_unique (k : K) (v : V) (d : list (K * V)) :
  NoDup d.*1 -> (k, v) ∈ d -> od_get k d = Some v.
Proof.
  induction d as [|[k0 v0] d IH]; simpl.
  - intros _ Hin. by apply elem_of_nil in Hin.
  - rewrite NoDup_cons. intros [Hk0 Hd] Hin.
    apply elem_of_cons in Hin as [[= -> ->]|Hin].
    + by rewrite decide_True.
    + rewrite decide_False; [by apply IH|].
      intros ->. apply Hk0. by apply (list_elem_of_fmap_2 fst _ (k, v)).
Qed.

Lemma od_set_NoDup (k : K) (v : V) (d : list (K * V)) :
  NoDup d.*1 -> NoDup (od_set k v d).*1.
Proof.
  induction d as [|[k0 v0] d IH]; simpl.
  - intros _. apply NoDup_singleton.
  - rewrite NoDup_cons. intros [Hk0 Hd]. case_decide; subst; simpl.
    + by apply NoDup_cons.
    + apply NoDup_cons. split; [|by apply IH].
      rewrite od_set_keys. intros [->|Hin]; [done|by apply Hk0].
Qed.

End DictFacts.

Section PathFacts.
Context {R : Type} `{Number R}.
Import mapUtil util submission grader Props.

Variable computeDistance : GeoLocation R -> GeoLocation R -> result R.

Local Abbreviation run := (run computeDistance).
Local Abbreviation exec := (exec computeDistance).

Lemma sorted_perm_eq (xs ys : list string) : xs ≡ₚ ys -> sorted xs = sorted ys.
Proof.
  intros Hperm. apply sorted_unique.
  - apply Sorted_merge_sort, _.
  - by rewrite sorted_Permutation.
Qed.

Lemma sorted_Sorted (xs : list string) : Sorted str_le (sorted xs).
Proof. apply Sorted_merge_sort, _. Qed.

(** ** The loop over adjacent locations *)

Lemma connected_lookup (m : CityMap R) (path : list string) :
  connected m path = true <->
  forall i a b, path !! i = Some a -> path !! S i = Some b ->
                b ∈ (distances_at m a).*1.
Proof.
  induction path as [|a [|b rest] IH].
  - split; [|done]. intros _ i a b Hi. by rewrite lookup_nil in Hi.
  - split; [|done]. intros _ [|i] a0 b Ha Hb; simpl in *; by rewrite ?lookup_nil in *.
  - change (connected m (a :: b :: rest)) with
      (match od_get b (distances_at m a) with
       | Some _ => connected m (b :: rest)
       | None => false
       end).
    destruct (od_get b (distances_at m a)) as [d|] eqn:Hget.
    + rewrite IH. split.
      * intros Hrest [|i] a0 b0 Ha Hb.
        -- simpl in Ha, Hb. simplify_eq. apply od_get_is_Some. eauto.
        -- by apply (Hrest i).
      * intros Hall i a0 b0 Ha Hb. by apply (Hall (S i)).
    + split; [discriminate|]. intros Hall.
      apply od_get_None in Hget. exfalso. apply Hget. by apply (Hall 0%nat a b).
Qed.

Lemma doneTags_elem (m : CityMap R) (path : list string) (tag : string) :
  tag ∈ doneTags m path <-> exists l, l ∈ path /\ tag ∈ tags_at m l.
Proof.
  unfold doneTags. rewrite list_elem_of_In, in_flat_map.
  split; intros (l & Hl & Htag); exists l; by rewrite ?list_elem_of_In in *.
Qed.

Lemma contains_true (x : string) (xs : list string) : contains x xs = true <-> x ∈ xs.
Proof. unfold contains. apply bool_decide_eq_true. Qed.

Lemma checkValid_spec (path : list string) (m : CityMap R)
    (startLocation endTag : string) (waypointTags : list string) :
  (checkValid path m startLocation endTag waypointTags = None <-> path = []) /\
  (checkValid path m startLocation endTag waypointTags = Some true <->
   (exists rest, path = startLocation :: rest) /\
   endTag ∈ tags_at m (List.last path startLocation) /\
   (forall i a b, path !! i = Some a -> path !! S i = Some b ->
                  b ∈ (distances_at m a).*1) /\
   (forall tag, tag ∈ waypointTags -> exists l, l ∈ path /\ tag ∈ tags_at m l)).
Proof.
  split.
  { destruct path as [|first rest]; [done|]. unfold checkValid.
    split; [|discriminate]. by repeat case_match. }
  destruct path as [|first rest].
  { split; [discriminate|]. by intros [[rest [=]] _]. }
  unfold checkValid. rewrite <- connected_lookup.
  destruct (decide (first = startLocation)) as [->|Hne].
  2: { rewrite bool_decide_eq_false_2 by done. simpl.
       split; [discriminate|]. intros [[rest' [= ? _]] _]. done. }
  rewrite bool_decide_eq_true_2 by done. simpl negb at 1. cbv iota.
  destruct (contains endTag _) eqn:Hend; simpl negb at 1; cbv iota.
  2: { split; [discriminate|]. intros (_ & Hin & _).
       apply contains_true in Hin. congruence. }
  apply contains_true in Hend.
  destruct (connected m _) eqn:Hconn; simpl negb at 1; cbv iota.
  2: { split; [discriminate|]. by intros (_ & _ & [=] & _). }
  destruct (forallb _ waypointTags) eqn:Hall; simpl negb at 1; cbv iota.
  - split; [intros _|done]. split; [eauto|]. split; [done|]. split; [done|].
    intros tag Htag. rewrite forallb_forall in Hall.
    apply doneTags_elem, contains_true, Hall. by apply list_elem_of_In.
  - split; [discriminate|]. intros (_ & _ & _ & Hwp).
    assert (forallb (fun tag => contains tag (doneTags m (startLocation :: rest)))
              waypointTags = true) as Hall'; [|congruence].
    apply forallb_forall. intros tag Htag.
    apply contains_true, doneTags_elem, Hwp. by apply list_elem_of_In.
Qed.

(** X1.  [checkValid] raises ([IndexError]) exactly on the empty path.  It
    returns [True] exactly when the path starts with [startLocation], its
    last location carries [endTag], each location of the path is a key of
    the [distances] of the location before it, and every waypoint tag is on
    the tag list of some location of the path. *)
Theorem checkValid_true (path : list string) (m : CityMap R)
    (startLocation endTag : string) (waypointTags : list string) :
  (checkValid path m startLocation endTag waypointTags = None <-> path = []) /\
  (checkValid path m startLocation endTag waypointTags = Some true <->
   (exists rest, path = startLocation :: rest) /\
   endTag ∈ tags_at m (List.last path startLocation) /\
   (forall i a b, path !! i = Some a -> path !! S i = Some b ->
                  b ∈ (distances_at m a).*1) /\
   (forall tag, tag ∈ waypointTags -> exists l, l ∈ path /\ tag ∈ tags_at m l)).
Proof. apply checkValid_spec. Qed.

(** ** getTotalCost *)

Lemma getTotalCost_from_connected (m : CityMap R) (path : list string) (cost : R) :
  match getTotalCost_from cost m path with
  | Ok _ => connected m path = true
  | Raise e => e = KeyError /\ connected m path = false
  end.
Proof.
  revert cost. induction path as [|a [|b rest] IH]; intros cost; try done.
  change (getTotalCost_from cost m (a :: b :: rest)) with
    (match od_get b (distances_at m a) with
     | Some d => getTotalCost_from (num_add cost d) m (b :: rest)
     | None => Raise KeyError
     end).
  change (connected m (a :: b :: rest)) with
    (match od_get b (distances_at m a) with
     | Some _ => connected m (b :: rest)
     | None => false
     end).
  destruct (od_get b (distances_at m a)) as [d|]; [apply IH|done].
Qed.



(** ** Sequences of transitions *)

Lemma last_cons_default {A} (a d : A) (l : list A) :
  List.last (a :: l) d = List.last l a.
Proof.
  revert a d. induction l as [|b l IH]; intros a d; [done|].
  change (List.last (a :: b :: l) d) with (List.last (b :: l) d).
  by rewrite !IH.
Qed.

Lemma final_state_cons (s : State) (step : string * State * R)
    (rest : list (string * State * R)) :
  final_state s (step :: rest) = final_state step.1.2 rest.
Proof. unfold final_state. simpl map. apply last_cons_default. Qed.

(** The steps of a problem that moves along the connections of [m]: the
    action is the label of the next state, and that label is a key of the
    [distances] of the current location. *)
Lemma follows_path (problem : SearchProblem R) (m : CityMap R) :
  (forall s succs step,
     successorsAndCosts problem s = Ok succs -> step ∈ succs ->
     location step.1.2 = step.1.1 /\ step.1.1 ∈ (distances_at m (location s)).*1) ->
  forall steps s d,
    follows problem s steps ->
    connected m (location s :: map (fun step => step.1.1) steps) = true /\
    List.last (location s :: map (fun step => step.1.1) steps) d =
      location (final_state s steps).
Proof.
  intros Hstep steps. induction steps as [|step rest IH]; intros s d Hfollows.
  - done.
  - destruct Hfollows as [(succs & Hsuccs & Hin) Hrest].
    destruct (Hstep s succs step Hsuccs Hin) as [Hloc Hkey].
    destruct (IH step.1.2 (location s) Hrest) as [Hconn Hlast].
    rewrite final_state_cons. rewrite Hloc in Hconn, Hlast. split.
    + simpl map.
      change (connected m (location s :: step.1.1 :: ?l)) with
        (match od_get step.1.1 (distances_at m (location s)) with
         | Some _ => connected m (step.1.1 :: l)
         | None => false
         end).
      apply od_get_is_Some in Hkey as [d0 ->]. exact Hconn.
    + simpl map. rewrite last_cons_default. exact Hlast.
Qed.

Lemma ShortestPath_step (startLocation endTag : string) (m : CityMap R)
    (s : State) (succs : list (string * State * R)) (step : string * State * R) :
  successorsAndCosts (ShortestPathProblem startLocation endTag m) s = Ok succs ->
  step ∈ succs ->
  exists d, (step.1.1, d) ∈ distances_at m (location s) /\
            step = (step.1.1, {| location := step.1.1; memory := None |}, d).
Proof.
  simpl. unfold ShortestPathProblem_successorsAndCosts. intros [= <-] Hin.
  change (map ?f ?xs) with (f <$> xs) in Hin.
  apply list_elem_of_fmap in Hin as ([l d] & -> & Hin). simpl. eauto.
Qed.

Lemma Waypoints_step (startLocation : string) (waypointTags : list string)
    (endTag : string) (m : CityMap R)
    (s : State) (succs : list (string * State * R)) (step : string * State * R) :
  successorsAndCosts (WaypointsShortestPathProblem startLocation waypointTags endTag m) s
    = Ok succs ->
  step ∈ succs ->
  exists mem d,
    memory s = Some mem /\
    (step.1.1, d) ∈ distances_at m (location s) /\
    step.1.2 = {| location := step.1.1;
                  memory := Some (sorted (filter (fun t => t ∉ tags_at m (location s)) mem)) |}.
Proof.
  destruct s as [L [mem|]]; simpl.
  - rewrite waypoints_successors_at. intros [= <-] Hin.
    change (map ?f ?xs) with (f <$> xs) in Hin.
    apply list_elem_of_fmap in Hin as ([l d] & -> & Hin). simpl. eauto.
  - unfold WaypointsShortestPathProblem_successorsAndCosts. simpl.
    destruct (distances_at m L) as [|kv kvs]; simpl.
    + intros [= <-] Hin. by apply elem_of_nil in Hin.
    + discriminate.
Qed.

Lemma elem_of_keys {V} (k : string) (v : V) (d : list (string * V)) :
  (k, v) ∈ d -> k ∈ d.*1.
Proof. intros Hin. by apply (list_elem_of_fmap_2 fst _ (k, v)). Qed.

(** X4.  Every sequence of transitions of a [ShortestPathProblem] from its
    start state to a state that [isEnd] accepts gives, through
    [extractPath], a path that [checkValid] accepts. *)
Theorem ShortestPath_solution_valid (startLocation endTag : string) (m : CityMap R)
    (steps : list (string * State * R)) :
  let problem := ShortestPathProblem startLocation endTag m in
  follows problem (startState problem) steps ->
  isEnd problem (final_state (startState problem) steps) = true ->
  checkValid (extractPath startLocation (map (fun step => step.1.1) steps)) m
    startLocation endTag [] = Some true.
Proof.
  intros problem Hfollows Hend.
  destruct (follows_path problem m) with (steps := steps) (s := startState problem)
    (d := startLocation) as [Hconn Hlast]; [|done|].
  { intros s succs step Hsuccs Hin.
    destruct (ShortestPath_step _ _ _ _ _ _ Hsuccs Hin) as (d & Hd & Hstep).
    rewrite Hstep. simpl. split; [done|]. by eapply elem_of_keys. }
  assert (List.last (startLocation :: map (fun step => step.1.1) steps) startLocation
          = location (final_state (startState problem) steps)) as Hlast'
    by exact Hlast.
  apply checkValid_spec. unfold extractPath.
  split; [eauto|]. split; [|split].
  - rewrite Hlast'. by apply contains_true.
  - apply connected_lookup. exact Hconn.
  - intros tag Htag. by apply elem_of_nil in Htag.
Qed.

(** The tags of the memory at the start of a sequence of transitions of a
    waypoint problem are still in the memory at its end, or are on the tag
    list of a location of the path. *)
Lemma Waypoints_tags_accounted (startLocation : string) (waypointTags : list string)
    (endTag : string) (m : CityMap R) (steps : list (string * State * R)) :
  forall (L : string) (mem : list string),
    follows (WaypointsShortestPathProblem startLocation waypointTags endTag m)
      {| location := L; memory := Some mem |} steps ->
    exists mem',
      memory (final_state {| location := L; memory := Some mem |} steps) = Some mem' /\
      forall tag, tag ∈ mem ->
        tag ∈ mem' \/ tag ∈ doneTags m (L :: map (fun step => step.1.1) steps).
Proof.
  induction steps as [|step rest IH]; intros L mem Hfollows.
  - exists mem. split; [done|]. by left.
  - destruct Hfollows as [(succs & Hsuccs & Hin) Hrest].
    destruct (Waypoints_step _ _ _ _ _ _ _ Hsuccs Hin) as (mem0 & d & Hmem & Hd & Hstep).
    simpl in Hmem, Hd, Hstep. injection Hmem as <-.
    rewrite final_state_cons. rewrite Hstep in Hrest |- *.
    destruct (IH _ _ Hrest) as (mem' & Hfinal & Htags).
    exists mem'. split; [done|]. intros tag Htag.
    destruct (decide (tag ∈ tags_at m L)) as [Hhere|Hnot].
    + right. apply doneTags_elem. exists L. split; [left|done].
    + destruct (Htags tag) as [?|Hdone]; [|by left|].
      * apply sorted_elem_of, list_elem_of_filter. done.
      * right. apply doneTags_elem in Hdone as (l & Hl & Htl).
        apply doneTags_elem. exists l. split; [by right|done].
Qed.

(** X5.  Every sequence of transitions of a [WaypointsShortestPathProblem]
    from its start state to a state that [isEnd] accepts gives, through
    [extractPath], a path that [checkValid] accepts for the problem's
    waypoint tags: the path covers every waypoint. *)
Theorem Waypoints_solution_valid (startLocation : string) (waypointTags : list string)
    (endTag : string) (m : CityMap R) (steps : list (string * State * R)) :
  let problem := WaypointsShortestPathProblem startLocation waypointTags endTag m in
  follows problem (startState problem) steps ->
  isEnd problem (final_state (startState problem) steps) = true ->
  checkValid (extractPath startLocation (map (fun step => step.1.1) steps)) m
    startLocation endTag waypointTags = Some true.
Proof.
  intros problem Hfollows Hend.
  destruct (follows_path problem m) with (steps := steps) (s := startState problem)
    (d := startLocation) as [Hconn Hlast]; [|done|].
  { intros s succs step Hsuccs Hin.
    destruct (Waypoints_step _ _ _ _ _ _ _ Hsuccs Hin) as (mem & d & _ & Hd & Hstep).
    rewrite Hstep. simpl. split; [done|]. by eapply elem_of_keys. }
  destruct (Waypoints_tags_accounted startLocation waypointTags endTag m steps
              startLocation (sorted waypointTags) Hfollows) as (mem' & Hfinal & Htags).
  change (startState problem)
    with {| location := startLocation; memory := Some (sorted waypointTags) |} in Hend.
  change (isEnd problem ?s) with (WaypointsShortestPathProblem_isEnd endTag m s) in Hend.
  unfold WaypointsShortestPathProblem_isEnd in Hend.
  destruct (contains endTag _) eqn:Htag; [|discriminate].
  rewrite Hfinal in Hend.
  destruct mem' as [|t mem']; [|discriminate].
  assert (List.last (startLocation :: map (fun step => step.1.1) steps) startLocation
          = location (final_state (startState problem) steps)) as Hlast'
    by exact Hlast.
  apply checkValid_spec. unfold extractPath.
  split; [eauto|]. split; [|split].
  - rewrite Hlast'. by apply contains_true.
  - apply connected_lookup. exact Hconn.
  - intros tag Hwp. apply doneTags_elem.
    destruct (Htags tag) as [Hnil|Hdone]; [by apply sorted_elem_of| |done].
    by apply elem_of_nil in Hnil.
Qed.

(** ** The cost of a path *)

Lemma inner_keys_unique_exec (c : call R) (m m' : CityMap R) :
  inner_keys_unique m -> exec c m = Ok m' -> inner_keys_unique m'.
Proof.
  assert (forall s t d (ds : gmap string (list (string * R))),
            (forall a inner, ds !! a = Some inner -> NoDup inner.*1) ->
            forall a inner, set_distance s t d ds !! a = Some inner -> NoDup inner.*1)
    as Hset.
  { intros s t d ds Hds a inner. unfold set_distance, getdefault.
    destruct (decide (s = a)) as [->|Hne].
    - rewrite lookup_insert_eq. intros [= <-]. apply od_set_NoDup.
      destruct (ds !! a) as [inner0|] eqn:Ha; simpl; [by eapply Hds|constructor].
    - rewrite lookup_insert_ne by done. apply Hds. }
  intros Hm Hexec. destruct c as [l g ts|s t d0|ls tol]; simpl in Hexec.
  - apply addLocation_Ok in Hexec as (_ & _ & _ & Hds).
    unfold inner_keys_unique. by rewrite Hds.
  - apply (addConnection_Ok computeDistance) in Hexec as (d & _ & _ & _ & Hds).
    unfold inner_keys_unique. rewrite Hds. by apply Hset, Hset.
  - apply (addLandmarks_frame computeDistance) in Hexec as (_ & Hds).
    unfold inner_keys_unique. by rewrite Hds.
Qed.

Lemma inner_keys_unique_run (calls : list (call R)) (m : CityMap R) :
  run calls CityMap_init = Ok m -> inner_keys_unique m.
Proof.
  apply (run_preserves computeDistance inner_keys_unique).
  - apply inner_keys_unique_exec.
  - intros a inner Ha. simpl in Ha. by rewrite lookup_empty in Ha.
Qed.

Lemma ShortestPath_cost_from (startLocation endTag : string) (m : CityMap R) :
  inner_keys_unique m ->
  forall steps s cost,
    follows (ShortestPathProblem startLocation endTag m) s steps ->
    getTotalCost_from cost m (location s :: map (fun step => step.1.1) steps) =
    Ok (fold_left num_add (map (fun step => step.2) steps) cost).
Proof.
  intros Hunique steps. induction steps as [|step rest IH]; intros s cost Hfollows.
  - done.
  - destruct Hfollows as [(succs & Hsuccs & Hin) Hrest].
    destruct (ShortestPath_step _ _ _ _ _ _ Hsuccs Hin) as (d & Hd & Hstep).
    simpl map.
    change (getTotalCost_from cost m (location s :: step.1.1 :: ?l)) with
      (match od_get step.1.1 (distances_at m (location s)) with
       | Some d => getTotalCost_from (num_add cost d) m (step.1.1 :: l)
       | None => Raise KeyError
       end).
    assert (od_get step.1.1 (distances_at m (location s)) = Some d) as ->.
    { apply od_get_unique; [|done]. unfold distances_at, getdefault.
      destruct (distances m !! location s) as [inner|] eqn:Hinner; simpl;
        [by eapply Hunique|constructor]. }
    specialize (IH step.1.2 (num_add cost d) Hrest).
    rewrite Hstep in IH |- *. simpl in IH |- *. exact IH.
Qed.


(** ** The memory of the waypoint problem *)

(** X7.  The order in which the waypoint tags are given does not matter:
    two lists with the same tags give the same problem, and two states at
    one location whose memories hold the same tags have the same
    successors. *)
Theorem Waypoints_order_irrelevant (startLocation : string)
    (waypointTags waypointTags' : list string) (endTag : string) (m : CityMap R)
    (L : string) (mem mem' : list string) :
  waypointTags ≡ₚ waypointTags' ->
  mem ≡ₚ mem' ->
  WaypointsShortestPathProblem startLocation waypointTags endTag m =
    WaypointsShortestPathProblem startLocation waypointTags' endTag m /\
  successorsAndCosts (WaypointsShortestPathProblem startLocation waypointTags endTag m)
    {| location := L; memory := Some mem |} =
  successorsAndCosts (WaypointsShortestPathProblem startLocation waypointTags endTag m)
    {| location := L; memory := Some mem' |}.
Proof.
  intros Hwp Hmem. split.
  - unfold WaypointsShortestPathProblem, WaypointsShortestPathProblem_startState.
    by rewrite (sorted_perm_eq _ _ Hwp).
  - simpl. rewrite !waypoints_successors_at.
    assert (sorted (filter (fun t => t ∉ tags_at m L) mem) =
            sorted (filter (fun t => t ∉ tags_at m L) mem')) as ->; [|done].
    apply sorted_perm_eq. by rewrite Hmem.
Qed.

Lemma Waypoints_memory_from (startLocation : string) (waypointTags : list string)
    (endTag : string) (m : CityMap R) (steps : list (string * State * R)) :
  forall (L : string) (mem : list string),
    Sorted str_le mem ->
    follows (WaypointsShortestPathProblem startLocation waypointTags endTag m)
      {| location := L; memory := Some mem |} steps ->
    exists mem',
      memory (final_state {| location := L; memory := Some mem |} steps) = Some mem' /\
      Sorted str_le mem' /\ mem' ⊆+ mem.
Proof.
  induction steps as [|step rest IH]; intros L mem Hsorted Hfollows.
  - exists mem. done.
  - destruct Hfollows as [(succs & Hsuccs & Hin) Hrest].
    destruct (Waypoints_step _ _ _ _ _ _ _ Hsuccs Hin) as (mem0 & d & Hmem & Hd & Hstep).
    simpl in Hmem, Hd, Hstep. injection Hmem as <-.
    rewrite final_state_cons. rewrite Hstep in Hrest |- *.
    destruct (IH _ _ (sorted_Sorted _) Hrest) as (mem' & Hfinal & Hs & Hsub).
    exists mem'. split; [done|]. split; [done|].
    etrans; [exact Hsub|]. etrans.
    + apply Permutation_submseteq, sorted_Permutation.
    + apply sublist_submseteq, sublist_filter.
Qed.

(** X8.  Every state that a sequence of transitions of a
    [WaypointsShortestPathProblem] reaches from the start state has as
    memory a sorted tuple made of tags of the problem's waypoint tags, each
    at most as often as it is given there. *)
Theorem Waypoints_memory_canonical (startLocation : string) (waypointTags : list string)
    (endTag : string) (m : CityMap R) (steps : list (string * State * R)) :
  let problem := WaypointsShortestPathProblem startLocation waypointTags endTag m in
  follows problem (startState problem) steps ->
  exists mem,
    memory (final_state (startState problem) steps) = Some mem /\
    Sorted str_le mem /\ mem ⊆+ waypointTags.
Proof.
  intros problem Hfollows.
  destruct (Waypoints_memory_from startLocation waypointTags endTag m steps
              startLocation (sorted waypointTags) (sorted_Sorted _) Hfollows)
    as (mem & Hfinal & Hs & Hsub).
  exists mem. split; [exact Hfinal|]. split; [done|].
  etrans; [exact Hsub|]. apply Permutation_submseteq, sorted_Permutation.
Qed.

(** X9.  Provided adding [0] to a cost gives that cost, a waypoint problem
    without waypoint tags is the shortest-path problem with the memory
    [()] in place of [None]: at every location it has the same end test
    and the same successors, with the same actions and costs. *)
Theorem Waypoints_without_tags (startLocation endTag : string) (m : CityMap R)
    (L : string) :
  (forall x : R, num_add x (num_of_Z 0) = x) ->
  let waypoints := WaypointsShortestPathProblem startLocation [] endTag m in
  let plain := ShortestPathProblem startLocation endTag m in
  let with_memory (step : string * State * R) :=
    (step.1.1, {| location := location step.1.2; memory := Some [] |}, step.2) in
  startState waypoints = {| location := startLocation; memory := Some [] |} /\
  isEnd waypoints {| location := L; memory := Some [] |} =
    isEnd plain {| location := L; memory := None |} /\
  exists succs,
    successorsAndCosts plain {| location := L; memory := None |} = Ok succs /\
    successorsAndCosts waypoints {| location := L; memory := Some [] |} =
      Ok (map with_memory succs).
Proof.
  intros Hzero waypoints plain with_memory. split; [reflexivity|]. split.
  - simpl. unfold WaypointsShortestPathProblem_isEnd, ShortestPathProblem_isEnd. simpl.
    by destruct (contains endTag _).
  - eexists. split; [reflexivity|].
    simpl. rewrite waypoints_successors_at. f_equal. rewrite map_map.
    apply map_ext. intros [l d]. unfold with_memory. simpl.
    change (sorted []) with (@nil string). simpl. by rewrite Hzero.
Qed.

(** ** Waypoints are collected on departure *)

Lemma Waypoints_tags_collected (startLocation : string) (waypointTags : list string)
    (endTag : string) (m : CityMap R) (steps : list (string * State * R)) :
  forall (L : string) (mem : list string),
    follows (WaypointsShortestPathProblem startLocation waypointTags endTag m)
      {| location := L; memory := Some mem |} steps ->
    exists mem',
      memory (final_state {| location := L; memory := Some mem |} steps) = Some mem' /\
      forall tag, tag ∈ mem ->
        tag ∈ mem' \/
        tag ∈ doneTags m (removelast (L :: map (fun step => step.1.1) steps)).
Proof.
  induction steps as [|step rest IH]; intros L mem Hfollows.
  - exists mem. split; [done|]. by left.
  - destruct Hfollows as [(succs & Hsuccs & Hin) Hrest].
    destruct (Waypoints_step _ _ _ _ _ _ _ Hsuccs Hin) as (mem0 & d & Hmem & Hd & Hstep).
    simpl in Hmem, Hd, Hstep. injection Hmem as <-.
    rewrite final_state_cons. rewrite Hstep in Hrest |- *.
    destruct (IH _ _ Hrest) as (mem' & Hfinal & Htags).
    exists mem'. split; [done|]. intros tag Htag.
    simpl map.
    change (removelast (L :: step.1.1 :: ?l)) with (L :: removelast (step.1.1 :: l)).
    destruct (decide (tag ∈ tags_at m L)) as [Hhere|Hnot].
    + right. apply doneTags_elem. exists L. split; [left|done].
    + destruct (Htags tag) as [?|Hdone]; [|by left|].
      * apply sorted_elem_of, list_elem_of_filter. done.
      * right. apply doneTags_elem in Hdone as (l & Hl & Htl).
        apply doneTags_elem. exists l. split; [by right|done].
Qed.

(** X21.  A waypoint is counted when its location is left, not when it is
    reached: on every sequence of transitions of a
    [WaypointsShortestPathProblem] from the start state to a state that
    [isEnd] accepts, each waypoint tag is on the tag list of a location of
    the path other than its last one. *)
Theorem Waypoints_collected_before_end (startLocation : string)
    (waypointTags : list string) (endTag : string) (m : CityMap R)
    (steps : list (string * State * R)) :
  let problem := WaypointsShortestPathProblem startLocation waypointTags endTag m in
  follows problem (startState problem) steps ->
  isEnd problem (final_state (startState problem) steps) = true ->
  forall tag, tag ∈ waypointTags ->
    exists l, l ∈ removelast (extractPath startLocation (map (fun step => step.1.1) steps))
              /\ tag ∈ tags_at m l.
Proof.
  intros problem Hfollows Hend tag Htag.
  destruct (Waypoints_tags_collected startLocation waypointTags endTag m steps
              startLocation (sorted waypointTags) Hfollows) as (mem' & Hfinal & Htags).
  change (startState problem)
    with {| location := startLocation; memory := Some (sorted waypointTags) |} in Hend.
  change (isEnd problem ?s) with (WaypointsShortestPathProblem_isEnd endTag m s) in Hend.
  unfold WaypointsShortestPathProblem_isEnd in Hend.
  destruct (contains endTag _); [|discriminate].
  rewrite Hfinal in Hend. destruct mem' as [|t mem']; [|discriminate].
  apply doneTags_elem. unfold extractPath.
  destruct (Htags tag) as [Hnil|Hdone]; [by apply sorted_elem_of| |done].
  by apply elem_of_nil in Hnil.
Qed.

(** ** The search graph is undirected *)

Lemma distances_at_distance (m : CityMap R) (a b : string) (d : R) :
  inner_keys_unique m ->
  ((b, d) ∈ distances_at m a <-> distance m a b = Some d).
Proof.
  intros Hunique. unfold distances_at, getdefault, distance.
  destruct (distances m !! a) as [inner|] eqn:Ha; simpl.
  - split; [apply od_get_unique; by eapply Hunique|apply od_get_elem].
  - split; [intros Hin; by apply elem_of_nil in Hin|discriminate].
Qed.

(** X19.  On a map built by calls the search graph of a
    [ShortestPathProblem] is undirected: [b] is a successor of the state at
    [a] at cost [d] exactly when [a] is a successor of the state at [b] at
    the same cost. *)
Theorem ShortestPath_undirected (calls : list (call R)) (startLocation endTag : string)
    (m : CityMap R) (a b : string) (d : R) :
  run calls CityMap_init = Ok m ->
  let problem := ShortestPathProblem startLocation endTag m in
  exists succs_a succs_b,
    successorsAndCosts problem {| location := a; memory := None |} = Ok succs_a /\
    successorsAndCosts problem {| location := b; memory := None |} = Ok succs_b /\
    ((b, {| location := b; memory := None |}, d) ∈ succs_a <->
     (a, {| location := a; memory := None |}, d) ∈ succs_b).
Proof.
  intros Hrun problem.
  pose proof (inner_keys_unique_run _ _ Hrun) as Hunique.
  assert (symmetric m) as Hsym.
  { eapply (run_preserves computeDistance symmetric);
      [apply symmetric_exec|apply symmetric_init|exact Hrun]. }
  do 2 eexists. split; [reflexivity|]. split; [reflexivity|].
  assert (forall x y : string,
            (y, {| location := y; memory := None |}, d) ∈
              map (fun kv : string * R =>
                     (kv.1, {| location := kv.1; memory := None |}, kv.2))
                  (distances_at m x)
            <-> distance m x y = Some d) as Hsucc.
  { intros x y. rewrite list_elem_of_In, in_map_iff. split.
    - intros ([l d0] & Heq & Hin). simpl in Heq. simplify_eq.
      apply list_elem_of_In in Hin. by apply distances_at_distance.
    - intros Hd. apply distances_at_distance in Hd; [|done].
      exists (y, d). split; [done|]. by apply list_elem_of_In. }
  simpl. rewrite !Hsucc. by rewrite (Hsym a b).
Qed.

End PathFacts.

(* ===================================================================== *)
(** * The search engine: the path it returns *)
(* ===================================================================== *)

Section DictUpdates.
Context {K V : Type} `{EqDecision K}.

Lemma od_set_elem (k k' : K) (v v' : V) (d : list (K * V)) :
  NoDup d.*1 ->
  (k', v') ∈ od_set k v d -> (k', v') = (k, v) \/ (k', v') ∈ d /\ k' <> k.
Proof.
  induction d as [|[k0 v0] d IH]; simpl.
  - intros _. rewrite list_elem_of_singleton. by left.
  - rewrite NoDup_cons. intros [Hk0 Hd].
    case_decide; subst; rewrite !elem_of_cons.
    + intros [Heq|Hin]; [by left|]. right. split; [by right|].
      intros ->. apply Hk0. by apply (list_elem_of_fmap_2 fst _ (k, v')).
    + intros [[= -> ->]|Hin]; [right; split; [by left|done]|].
      destruct (IH Hd Hin) as [Heq|[Hin' Hne]]; [by left|].
      right. split; [by right|done].
Qed.

Lemma od_set_elem_new (k : K) (v : V) (d : list (K * V)) : (k, v) ∈ od_set k v d.
Proof.
  induction d as [|[k0 v0] d IH]; simpl; [by left|].
  case_decide; subst; [by left|by right].
Qed.

Lemma od_set_elem_keep (k k' : K) (v v' : V) (d : list (K * V)) :
  (k', v') ∈ d -> k' <> k -> (k', v') ∈ od_set k v d.
Proof.
  intros Hin Hne. induction d as [|[k0 v0] d IH]; simpl;
    [by apply elem_of_nil in Hin|].
  apply elem_of_cons in Hin as [[= <- <-]|Hin].
  - rewrite decide_False by done. by left.
  - case_decide; subst; right; [done|by apply IH].
Qed.

Lemma od_set_length (k : K) (v : V) (d : list (K * V)) :
  length (od_set k v d) = if decide (k ∈ d.*1) then length d else S (length d).
Proof.
  induction d as [|[k0 v0] d IH].
  - case_decide as Hin; [by apply elem_of_nil in Hin|done].
  - simpl od_set. rewrite fmap_cons. simpl fst.
    destruct (decide (k0 = k)) as [->|Hne]; simpl length.
    + rewrite decide_True; [done|by left].
    + rewrite IH. destruct (decide (k ∈ d.*1)).
      * rewrite decide_True; [done|by right].
      * rewrite decide_False; [done|]. rewrite not_elem_of_cons. split; congruence.
Qed.

Lemma od_del_length (k : K) (d : list (K * V)) :
  k ∈ d.*1 -> S (length (od_del k d)) = length d.
Proof.
  induction d as [|[k0 v0] d IH]; simpl.
  - intros Hin. by apply elem_of_nil in Hin.
  - rewrite elem_of_cons. case_decide; subst; [done|].
    intros [->|Hin]; [done|]. simpl. by rewrite IH.
Qed.

Lemma od_del_elem (k k' : K) (v' : V) (d : list (K * V)) :
  (k', v') ∈ od_del k d -> (k', v') ∈ d.
Proof.
  induction d as [|[k0 v0] d IH]; simpl; [done|].
  case_decide; subst; rewrite !elem_of_cons; [by right|].
  intros [Heq|Hin]; [by left|right; by apply IH].
Qed.

Lemma od_del_elem_keep (k k' : K) (v' : V) (d : list (K * V)) :
  (k', v') ∈ d -> k' <> k -> (k', v') ∈ od_del k d.
Proof.
  intros Hin Hne. induction d as [|[k0 v0] d IH]; simpl;
    [by apply elem_of_nil in Hin|].
  apply elem_of_cons in Hin as [[= <- <-]|Hin].
  - rewrite decide_False by done. by left.
  - case_decide; subst; [done|right; by apply IH].
Qed.

End DictUpdates.

Section SearchPaths.
Context {R : Type} `{Number R}.
Import mapUtil util submission grader Props.

Variable problem : SearchProblem R.

Local Abbreviation start := (startState problem).

(** ** Sequences of transitions, extended at the end *)

Lemma final_state_snoc (s : State) (steps : list (string * State * R))
    (step : string * State * R) :
  final_state s (steps ++ [step]) = step.1.2.
Proof.
  unfold final_state. rewrite map_app. simpl. apply last_last.
Qed.

Lemma follows_snoc (s : State) (steps : list (string * State * R))
    (step : string * State * R) :
  follows problem s (steps ++ [step]) <->
  follows problem s steps /\
  exists succs, successorsAndCosts problem (final_state s steps) = Ok succs /\
                step ∈ succs.
Proof.
  revert s. induction steps as [|step0 steps IH]; intros s.
  - simpl. unfold final_state. simpl. tauto.
  - change ((step0 :: steps) ++ [step]) with (step0 :: (steps ++ [step])).
    simpl. rewrite IH, final_state_cons. tauto.
Qed.

Lemma follows_app (s : State) (pre post : list (string * State * R)) :
  follows problem s (pre ++ post) <->
  follows problem s pre /\ follows problem (final_state s pre) post.
Proof.
  revert s. induction pre as [|step0 pre IH]; intros s.
  - simpl. unfold final_state. simpl. tauto.
  - change ((step0 :: pre) ++ post) with (step0 :: (pre ++ post)).
    simpl. rewrite IH, final_state_cons. tauto.
Qed.

Lemma path_cost_snoc (c : R) (steps : list (string * State * R))
    (step : string * State * R) :
  path_cost c (steps ++ [step]) = num_add (path_cost c steps) step.2.
Proof. unfold path_cost. rewrite map_app, fold_left_app. reflexivity. Qed.

(** ** The predecessor links *)

(** [reconstruct] follows the links and returns the actions they record. *)
Lemma reconstruct_linked (back : list (State * (string * State))) (E : list State)
    (x : State) (steps : list (string * State * R)) :
  linked back start E x steps ->
  forall n acc, (length steps <= n)%nat ->
    reconstruct n back start x acc = Some (map (fun step => step.1.1) steps ++ acc).
Proof.
  induction 1 as [|x a prev c steps Hx Hget Hprev Hlinked IH]; intros n acc Hn.
  - destruct n; simpl; by rewrite decide_True.
  - rewrite length_app in Hn. simpl in Hn.
    destruct n as [|n]; [lia|]. simpl.
    rewrite decide_False by done. rewrite Hget.
    rewrite IH by lia. by rewrite map_app, <- app_assoc.
Qed.

(** Links are not disturbed by a new link at a state that is neither the
    one they start from nor one they pass through. *)
Lemma linked_od_set (back : list (State * (string * State))) (E : list State)
    (x y : State) (v : string * State) (steps : list (string * State * R)) :
  linked back start E x steps -> y <> x -> y ∉ E ->
  linked (od_set y v back) start E x steps.
Proof.
  intros Hlinked. revert y.
  induction Hlinked as [|x a prev c steps Hx Hget Hprev Hlinked IH]; intros y Hy HE.
  - constructor.
  - apply linked_step with (prev := prev); [done| |done|].
    + rewrite od_get_set. by rewrite decide_False.
    + apply IH; [|done]. intros ->. by apply HE.
Qed.

Lemma linked_mono (back : list (State * (string * State))) (E E' : list State)
    (x : State) (steps : list (string * State * R)) :
  linked back start E x steps -> (forall s, s ∈ E -> s ∈ E') ->
  linked back start E' x steps.
Proof.
  intros Hlinked HE.
  induction Hlinked as [|x a prev c steps Hx Hget Hprev Hlinked IH];
    [constructor|apply linked_step with (prev := prev); auto].
Qed.

Lemma recorded_od_set (back : list (State * (string * State))) (E : list State)
    (n : nat) (x y : State) (c : R) (v : string * State) :
  recorded problem back E n x c -> y <> x -> y ∉ E ->
  recorded problem (od_set y v back) E n x c.
Proof.
  intros (steps & Hlinked & Hlen & Hfollows & Hfinal & Hcost) Hy HE.
  exists steps. repeat split; try done. by apply linked_od_set.
Qed.

Lemma recorded_mono (back : list (State * (string * State))) (E E' : list State)
    (n n' : nat) (x : State) (c : R) :
  recorded problem back E n x c -> (forall s, s ∈ E -> s ∈ E') -> (n <= n')%nat ->
  recorded problem back E' n' x c.
Proof.
  intros (steps & Hlinked & Hlen & Hfollows & Hfinal & Hcost) HE Hn.
  exists steps. repeat split; try done; [by eapply linked_mono|lia].
Qed.

(** The path recorded for a state, extended by one of its successors. *)
Lemma recorded_step (back : list (State * (string * State))) (E : list State)
    (n : nat) (s y : State) (c cost : R) (a : string)
    (succs : list (string * State * R)) :
  recorded problem back E n s c ->
  successorsAndCosts problem s = Ok succs -> (a, y, cost) ∈ succs ->
  s ∈ E -> y ∉ E -> start ∈ E ->
  recorded problem (od_set y (a, s) back) E (S n) y (num_add c cost).
Proof.
  intros (steps & Hlinked & Hlen & Hfollows & Hfinal & Hcost) Hsuccs Hin Hs Hy Hstart.
  exists (steps ++ [(a, y, cost)]). repeat split.
  - apply linked_step with (prev := s).
    + intros ->. by apply Hy.
    + rewrite od_get_set. by rewrite decide_True.
    + done.
    + apply linked_od_set; [done| |done]. intros ->. by apply Hy.
  - rewrite length_app. simpl. lia.
  - apply follows_snoc. split; [done|]. rewrite Hfinal. eauto.
  - by rewrite final_state_snoc.
  - by rewrite path_cost_snoc, Hcost.
Qed.

(** ** The invariant of the loop *)

Lemma removeMin_elem (frontier frontier' : list (State * R)) (s : State) (c : R) :
  removeMin frontier = Some (s, c, frontier') ->
  (s, c) ∈ frontier /\ frontier' = od_del s frontier.
Proof.
  unfold removeMin. destruct frontier as [|first rest]; [discriminate|].
  intros [= <- <- <-]. split; [|done].
  pose proof (min_entry_elem first rest) as Hin.
  by destruct (min_entry first rest).
Qed.

Lemma search_inv_init :
  search_inv problem [(start, num_of_Z 0)] [] [].
Proof.
  repeat split.
  - apply NoDup_singleton.
  - intros s _. apply not_elem_of_nil.
  - intros x c Hin. apply list_elem_of_singleton in Hin as [= -> ->].
    exists []. repeat split; [constructor|done].
  - intros i x c Hi. by rewrite lookup_nil in Hi.
  - intros x Hx. by apply elem_of_nil in Hx.
  - simpl. lia.
  - by right.
Qed.

(** The extracted state joins the explored list. *)
Lemma search_inv_extract (frontier explored : list (State * R))
    (back : list (State * (string * State))) (s : State) (c : R) :
  search_inv problem frontier explored back ->
  (s, c) ∈ frontier ->
  search_inv problem (od_del s frontier) (explored ++ [(s, c)]) back.
Proof.
  intros (Hnodup & Hfresh & Hfront & Hexp & Hback & Hlen & Hstart) Hin.
  assert (s ∈ frontier.*1) as Hs by by apply (list_elem_of_fmap_2 fst _ (s, c)).
  destruct (od_del_NoDup s frontier Hnodup) as [Hdn Hds].
  assert (forall x, x ∈ explored.*1 -> x ∈ (explored ++ [(s, c)]).*1) as Hsub.
  { intros x Hx. rewrite fmap_app, elem_of_app. by left. }
  repeat split.
  - done.
  - intros x Hx. rewrite fmap_app, elem_of_app. intros [Hx'|Hx'].
    + by apply (Hfresh x); [apply (od_del_keys s)|].
    + apply list_elem_of_singleton in Hx'. simpl in Hx'. by subst.
  - intros x cx Hx. apply od_del_elem in Hx.
    eapply recorded_mono; [by apply Hfront|done|].
    rewrite length_app. simpl. lia.
  - intros i x cx Hi. apply lookup_snoc_Some in Hi as [[Hlt Hi]|[-> [= <- <-]]].
    + rewrite take_app_le by lia. by apply Hexp.
    + rewrite take_app_length. by apply Hfront.
  - intros x Hx. destruct (Hback x Hx) as [Hf|He]; [|right; by apply Hsub].
    destruct (decide (x = s)) as [->|Hne].
    + right. rewrite fmap_app, elem_of_app. right. simpl. by left.
    + left. apply list_elem_of_fmap in Hf as ([x' cx] & -> & Hf).
      apply (list_elem_of_fmap_2 fst _ (x', cx)). by apply od_del_elem_keep.
  - rewrite length_app. simpl. pose proof (od_del_length s frontier Hs). lia.
  - left. destruct Hstart as [Hstart|[-> Hfront1]]; [by apply Hsub|].
    rewrite Hfront1 in Hs. apply list_elem_of_singleton in Hs. subst.
    simpl. by left.
Qed.

(** One successor enters the frontier, or improves its entry there. *)
Lemma search_inv_update (frontier frontier' explored : list (State * R))
    (back : list (State * (string * State))) (s y : State) (c cost : R)
    (a : string) (succs : list (string * State * R)) :
  search_inv problem frontier explored back ->
  (s, c) ∈ explored ->
  successorsAndCosts problem s = Ok succs -> (a, y, cost) ∈ succs ->
  y ∉ explored.*1 ->
  update frontier y (num_add c cost) = Some frontier' ->
  search_inv problem frontier' explored (od_set y (a, s) back).
Proof.
  intros (Hnodup & Hfresh & Hfront & Hexp & Hback & Hlen & Hstart)
    Hs Hsuccs Hin Hy Hup.
  assert (start ∈ explored.*1) as Hstart'.
  { destruct Hstart as [?|[-> _]]; [done|]. by apply elem_of_nil in Hs. }
  assert (recorded problem (od_set y (a, s) back) explored.*1 (length explored)
            y (num_add c cost)) as Hnew.
  { apply list_elem_of_lookup in Hs as [i Hi].
    pose proof (lookup_lt_Some _ _ _ Hi) as Hlt.
    eapply recorded_mono; [eapply (recorded_step back explored.*1 i s y)| |].
    - eapply recorded_mono; [by apply Hexp| |done].
      intros x Hx. rewrite <- (take_drop i explored), fmap_app, elem_of_app. by left.
    - exact Hsuccs.
    - exact Hin.
    - apply (list_elem_of_fmap_2 fst _ (s, c)). by eapply list_elem_of_lookup_2.
    - done.
    - done.
    - done.
    - lia. }
  assert (forall x cx, (x, cx) ∈ frontier -> x <> y ->
            recorded problem (od_set y (a, s) back) explored.*1 (length explored) x cx)
    as Hold.
  { intros x cx Hx Hne. apply recorded_od_set; [by apply Hfront|congruence|done]. }
  assert (forall i x cx, explored !! i = Some (x, cx) ->
            recorded problem (od_set y (a, s) back) (take i explored).*1 i x cx)
    as Hexp'.
  { intros i x cx Hi. apply recorded_od_set; [by apply Hexp| |].
    - intros ->. apply Hy. apply (list_elem_of_fmap_2 fst _ (x, cx)).
      by eapply list_elem_of_lookup_2.
    - intros Hin'. apply Hy.
      rewrite <- (take_drop i explored), fmap_app, elem_of_app. by left. }
  unfold update in Hup. destruct (od_get y frontier) as [old|] eqn:Hget.
  - destruct (num_ltb (num_add c cost) old); [|discriminate].
    injection Hup as <-.
    assert (y ∈ frontier.*1) as Hyf.
    { apply od_get_is_Some. by rewrite Hget. }
    repeat split.
    + by rewrite od_set_keys_present.
    + rewrite od_set_keys_present by done. exact Hfresh.
    + intros x cx Hx. apply od_set_elem in Hx as [[= -> ->]|[Hx Hne]]; [done| |done].
      by apply Hold.
    + exact Hexp'.
    + intros x Hx. rewrite od_set_keys_present by done.
      apply od_set_keys in Hx as [->|Hx]; [by left|by apply Hback].
    + rewrite !od_set_length. rewrite decide_True by done.
      destruct (decide (y ∈ back.*1)); lia.
    + by left.
  - injection Hup as <-. apply od_get_None in Hget.
    repeat split.
    + rewrite fmap_app. apply NoDup_app. repeat split; [done| |apply NoDup_singleton].
      intros x Hx Hx'. apply list_elem_of_singleton in Hx'. simpl in Hx'. by subst.
    + intros x. rewrite fmap_app, elem_of_app. intros [Hx|Hx]; [by apply Hfresh|].
      apply list_elem_of_singleton in Hx. simpl in Hx. by subst.
    + intros x cx Hx. apply elem_of_app in Hx as [Hx|Hx].
      * apply Hold; [done|]. intros ->. apply Hget.
        by apply (list_elem_of_fmap_2 fst _ (y, cx)).
      * apply list_elem_of_singleton in Hx as [= -> ->]. done.
    + exact Hexp'.
    + intros x Hx. rewrite fmap_app, elem_of_app.
      apply od_set_keys in Hx as [->|Hx].
      * left. right. simpl. by left.
      * destruct (Hback x Hx); [by left; left|by right].
    + rewrite od_set_length, length_app. simpl.
      rewrite decide_False; [lia|].
      intros Hyb. destruct (Hback y Hyb); done.
    + by left.
Qed.

(** The relaxation step maintains the invariant. *)
Lemma search_inv_relax (explored : list (State * R)) (s : State) (c : R)
    (all : list (string * State * R)) :
  (s, c) ∈ explored ->
  successorsAndCosts problem s = Ok all ->
  forall succs frontier back frontier' back',
    (forall step, step ∈ succs -> step ∈ all) ->
    search_inv problem frontier explored back ->
    relax explored s c succs frontier back = (frontier', back') ->
    search_inv problem frontier' explored back'.
Proof.
  intros Hs Hall succs.
  induction succs as [|[[a y] cost] succs IH];
    intros frontier back frontier' back' Hsub Hinv; simpl.
  - by intros [= <- <-].
  - assert (forall step, step ∈ succs -> step ∈ all) as Hsub'.
    { intros step Hstep. apply Hsub. by right. }
    destruct (od_get y explored) eqn:Hexp; [by apply IH|].
    destruct (update frontier y (num_add c cost)) as [frontier1|] eqn:Hup;
      [|by apply IH].
    apply IH; [done|].
    eapply search_inv_update; [exact Hinv|exact Hs|exact Hall| | |exact Hup].
    + apply Hsub. by left.
    + by apply od_get_None.
Qed.

(** When the search finishes with a cost, it also returns actions: they
    are the actions of a path of the problem from its start state to an end
    state, and the cost is the cost of that path. *)
Lemma search_path (fuel : nat) :
  forall frontier explored back r c,
    search_inv problem frontier explored back ->
    search fuel problem frontier explored back = Finished r ->
    pathCost r = Some c ->
    exists steps,
      actions r = Some (map (fun step => step.1.1) steps) /\
      follows problem start steps /\
      isEnd problem (final_state start steps) = true /\
      c = path_cost (num_of_Z 0) steps.
Proof.
  induction fuel as [|fuel IH]; intros frontier explored back r c Hinv; simpl;
    [discriminate|].
  destruct (removeMin frontier) as [[[s cs] frontier']|] eqn:Hmin.
  - apply removeMin_elem in Hmin as [Hin ->].
    destruct (isEnd problem s) eqn:Hend.
    + intros [= <-]. simpl. intros [= <-].
      destruct Hinv as (Hnodup & Hfresh & Hfront & Hexp & Hback & Hlen & Hstart).
      destruct (Hfront s cs Hin) as (steps & Hlinked & Hsteps & Hfollows & Hfinal & Hcost).
      exists steps. repeat split; [|done|by rewrite Hfinal|done].
      rewrite (reconstruct_linked back explored.*1 s steps Hlinked).
      * by rewrite app_nil_r.
      * assert (0 < length frontier)%nat; [|lia].
        destruct frontier; [by apply elem_of_nil in Hin|simpl; lia].
    + destruct (successorsAndCosts problem s) as [succs|e] eqn:Hsuccs; [|discriminate].
      destruct (relax _ s cs succs (od_del s frontier) back) as [frontier'' back'] eqn:Hrelax.
      apply IH.
      eapply (search_inv_relax (explored ++ [(s, cs)]) s cs succs);
        [| exact Hsuccs | | |exact Hrelax]; [|done|].
      * rewrite elem_of_app. right. by left.
      * by apply search_inv_extract.
  - intros [= <-]. discriminate.
Qed.

End SearchPaths.

(* ===================================================================== *)
(** * The search engine: the cost it returns *)
(* ===================================================================== *)

Section SearchCosts.
Context {R : Type} `{Number R} `{!NumberOrder R}.
Import mapUtil util submission grader Props.

Variable problem : SearchProblem R.

Local Abbreviation start := (startState problem).

(** Addition is monotone in its first argument, and the cost of a
    transition does not lower the cost it is added to. *)
Hypothesis add_monotone :
  forall a b c : R, num_le a b -> num_le (num_add a c) (num_add b c).
Hypothesis costs_nonnegative :
  forall s succs a y d, successorsAndCosts problem s = Ok succs -> (a, y, d) ∈ succs ->
    forall x : R, num_le x (num_add x d).

Lemma num_le_refl (a : R) : num_le a a.
Proof. apply num_ltb_irrefl. Qed.

Lemma num_le_transitive (a b c : R) : num_le a b -> num_le b c -> num_le a c.
Proof.
  unfold num_le. intros Hab Hbc. destruct (num_ltb c a) eqn:Hca; [|done].
  destruct (num_ltb_total a b) as [->|[Hlt|Hlt]]; [congruence| |congruence].
  rewrite (num_ltb_trans c a b) in Hbc; done.
Qed.

Lemma num_lt_le (a b : R) : num_ltb a b = true -> num_le a b.
Proof.
  unfold num_le. intros Hab. destruct (num_ltb b a) eqn:Hba; [|done].
  pose proof (num_ltb_trans _ _ _ Hab Hba) as Haa.
  by rewrite num_ltb_irrefl in Haa.
Qed.

(** ** The entry that is extracted *)

Lemma min_entry_least (rest : list (State * R)) (first : State * R) :
  num_le (min_entry first rest).2 first.2 /\
  forall x, x ∈ rest -> num_le (min_entry first rest).2 x.2.
Proof.
  unfold min_entry. revert first.
  induction rest as [|y rest IH]; intros first; simpl.
  - split; [apply num_le_refl|]. intros x Hx. by apply elem_of_nil in Hx.
  - destruct (num_ltb y.2 first.2) eqn:Hlt.
    + destruct (IH y) as [Hy Hrest]. split.
      * eapply num_le_transitive; [exact Hy|by apply num_lt_le].
      * intros x Hx. apply elem_of_cons in Hx as [->|Hx]; [done|by apply Hrest].
    + destruct (IH first) as [Hfirst Hrest]. split; [done|].
      intros x Hx. apply elem_of_cons in Hx as [->|Hx]; [|by apply Hrest].
      eapply num_le_transitive; [exact Hfirst|exact Hlt].
Qed.

Lemma removeMin_least (frontier frontier' : list (State * R)) (s : State) (c : R) :
  removeMin frontier = Some (s, c, frontier') ->
  forall y cy, (y, cy) ∈ frontier -> num_le c cy.
Proof.
  unfold removeMin. destruct frontier as [|first rest]; [discriminate|].
  intros [= <- <- <-] y cy Hin.
  destruct (min_entry_least rest first) as [Hfirst Hrest].
  apply elem_of_cons in Hin as [<-|Hin]; [done|]. by apply (Hrest (y, cy)).
Qed.

Lemma removeMin_None (frontier : list (State * R)) :
  removeMin frontier = None -> frontier = [].
Proof. by destruct frontier. Qed.

(** ** Costs of paths *)

Lemma path_cost_app (c : R) (pre post : list (string * State * R)) :
  path_cost c (pre ++ post) = path_cost (path_cost c pre) post.
Proof. unfold path_cost. by rewrite map_app, fold_left_app. Qed.

(** A path costs no less than the cost it is entered with. *)
Lemma path_cost_grows (steps : list (string * State * R)) (s : State) (c : R) :
  follows problem s steps -> num_le c (path_cost c steps).
Proof.
  revert s c. induction steps as [|[[a y] d] steps IH]; intros s c.
  - intros _. apply num_le_refl.
  - intros [(succs & Hsuccs & Hin) Hrest].
    change (path_cost c ((a, y, d) :: steps)) with (path_cost (num_add c d) steps).
    eapply num_le_transitive; [by eapply costs_nonnegative|].
    by apply (IH y).
Qed.

(** A path that starts inside a set of states and ends outside of it has a
    first transition that leaves the set. *)
Lemma first_leaving (E : list State) (steps : list (string * State * R)) (s : State) :
  s ∈ E -> final_state s steps ∉ E ->
  exists pre a y d post,
    steps = pre ++ (a, y, d) :: post /\ final_state s pre ∈ E /\ y ∉ E.
Proof.
  revert s. induction steps as [|[[a y] d] steps IH]; intros s Hs Hfinal.
  - done.
  - rewrite final_state_cons in Hfinal. simpl in Hfinal.
    destruct (decide (y ∈ E)) as [Hy|Hy].
    + destruct (IH y Hy Hfinal) as (pre & a' & y' & d' & post & -> & Hpre & Hy').
      exists ((a, y, d) :: pre), a', y', d', post.
      split; [done|]. by rewrite final_state_cons.
    + by exists [], a, y, d, steps.
Qed.

(** ** The invariant on the costs *)

Lemma search_opt_init : search_opt problem [(start, num_of_Z 0)] [].
Proof.
  repeat split.
  - intros x Hx. by apply elem_of_nil in Hx.
  - intros x c steps Hx. by apply elem_of_nil in Hx.
  - intros x cx succs a y d Hx. by apply elem_of_nil in Hx.
  - by right.
Qed.

(** Every path that ends at an unexplored state costs no less than some
    entry of the frontier. *)
Lemma frontier_lower_bound (frontier explored : list (State * R))
    (steps : list (string * State * R)) :
  search_opt problem frontier explored ->
  follows problem start steps ->
  final_state start steps ∉ explored.*1 ->
  exists y cy, (y, cy) ∈ frontier /\ num_le cy (path_cost (num_of_Z 0) steps).
Proof.
  intros (Hend & Hbest & Hclosed & Hstart) Hfollows Hfinal.
  destruct Hstart as [Hstart|[-> ->]].
  - destruct (first_leaving explored.*1 steps start Hstart Hfinal)
      as (pre & a & y & d & post & -> & Hpre & Hy).
    apply follows_app in Hfollows as [Hfpre [(succs & Hsuccs & Hin) Hfpost]].
    apply list_elem_of_fmap in Hpre as ([x cx] & Hx & Hxin). simpl in Hx.
    rewrite Hx in Hsuccs.
    destruct (Hclosed x cx succs a y d Hxin Hsuccs Hin) as [Hy'|(cy & Hcy & Hle)];
      [done|].
    exists y, cy. split; [done|].
    eapply num_le_transitive; [exact Hle|].
    eapply num_le_transitive.
    + apply add_monotone. by apply (Hbest x cx pre).
    + rewrite path_cost_app.
      change (path_cost (path_cost (num_of_Z 0) pre) ((a, y, d) :: post))
        with (path_cost (num_add (path_cost (num_of_Z 0) pre) d) post).
      by apply (path_cost_grows post y).
  - exists start, (num_of_Z 0). split; [by left|].
    by apply (path_cost_grows steps start).
Qed.

(** ** The relaxation step *)

Lemma update_NoDup (frontier frontier' : list (State * R)) (y : State) (v : R) :
  NoDup frontier.*1 -> update frontier y v = Some frontier' -> NoDup frontier'.*1.
Proof.
  intros Hnodup. unfold update. destruct (od_get y frontier) as [old|] eqn:Hget.
  - destruct (num_ltb v old); [|discriminate]. intros [= <-]. by apply od_set_NoDup.
  - intros [= <-]. apply od_get_None in Hget.
    rewrite fmap_app. apply NoDup_app. repeat split; [done| |apply NoDup_singleton].
    intros x Hx Hx'. apply list_elem_of_singleton in Hx'. simpl in Hx'. by subst.
Qed.

(** An update keeps every entry of the frontier, at no higher cost, and
    leaves the updated state in the frontier at no more than the new
    cost. *)
Lemma update_entries (frontier frontier' : list (State * R)) (y : State) (v : R) :
  NoDup frontier.*1 -> update frontier y v = Some frontier' ->
  (exists cy, (y, cy) ∈ frontier' /\ num_le cy v) /\
  forall x cx, (x, cx) ∈ frontier ->
    exists cx', (x, cx') ∈ frontier' /\ num_le cx' cx.
Proof.
  intros Hnodup. unfold update. destruct (od_get y frontier) as [old|] eqn:Hget.
  - destruct (num_ltb v old) eqn:Hlt; [|discriminate]. intros [= <-]. split.
    + exists v. split; [apply od_set_elem_new|apply num_le_refl].
    + intros x cx Hx. destruct (decide (x = y)) as [->|Hne].
      * exists v. split; [apply od_set_elem_new|].
        rewrite (od_get_unique y cx frontier Hnodup Hx) in Hget.
        injection Hget as ->. by apply num_lt_le.
      * exists cx. split; [by apply od_set_elem_keep|apply num_le_refl].
  - intros [= <-]. split.
    + exists v. split; [|apply num_le_refl]. rewrite elem_of_app. right. by left.
    + intros x cx Hx. exists cx. split; [|apply num_le_refl].
      rewrite elem_of_app. by left.
Qed.

Lemma update_kept (frontier : list (State * R)) (y : State) (v : R) :
  update frontier y v = None ->
  exists cy, (y, cy) ∈ frontier /\ num_le cy v.
Proof.
  unfold update. destruct (od_get y frontier) as [old|] eqn:Hget; [|discriminate].
  destruct (num_ltb v old) eqn:Hlt; [discriminate|]. intros _.
  exists old. split; [by apply od_get_elem|exact Hlt].
Qed.

(** The relaxation keeps every entry of the frontier, at no higher cost. *)
Lemma relax_entries (explored : list (State * R)) (s : State) (c : R)
    (succs : list (string * State * R)) :
  forall frontier back frontier' back',
    NoDup frontier.*1 ->
    relax explored s c succs frontier back = (frontier', back') ->
    NoDup frontier'.*1 /\
    forall x cx, (x, cx) ∈ frontier ->
      exists cx', (x, cx') ∈ frontier' /\ num_le cx' cx.
Proof.
  induction succs as [|[[a y] d] succs IH]; intros frontier back frontier' back' Hnodup;
    simpl.
  - intros [= <- <-]. split; [done|]. intros x cx Hx. exists cx.
    split; [done|apply num_le_refl].
  - destruct (od_get y explored); [by apply IH|].
    destruct (update frontier y (num_add c d)) as [frontier1|] eqn:Hup; [|by apply IH].
    intros Hrelax.
    pose proof (update_NoDup _ _ _ _ Hnodup Hup) as Hnodup1.
    destruct (update_entries _ _ _ _ Hnodup Hup) as [_ Hkeep].
    destruct (IH _ _ _ _ Hnodup1 Hrelax) as [Hnodup' Hrest].
    split; [done|]. intros x cx Hx.
    destruct (Hkeep x cx Hx) as (cx1 & Hx1 & Hle1).
    destruct (Hrest x cx1 Hx1) as (cx' & Hx' & Hle').
    exists cx'. split; [done|]. by eapply num_le_transitive.
Qed.

(** After the relaxation every successor is explored or waits in the
    frontier at no more than the cost through the relaxed state. *)
Lemma relax_closed (explored : list (State * R)) (s : State) (c : R)
    (succs : list (string * State * R)) :
  forall frontier back frontier' back',
    NoDup frontier.*1 ->
    relax explored s c succs frontier back = (frontier', back') ->
    forall a y d, (a, y, d) ∈ succs ->
      y ∈ explored.*1 \/ exists cy, (y, cy) ∈ frontier' /\ num_le cy (num_add c d).
Proof.
  induction succs as [|[[a0 y0] d0] succs IH];
    intros frontier back frontier' back' Hnodup; simpl.
  - intros _ a y d Hin. by apply elem_of_nil in Hin.
  - destruct (od_get y0 explored) as [c0|] eqn:Hexp.
    + intros Hrelax a y d Hin. apply elem_of_cons in Hin as [[= -> -> ->]|Hin].
      * left. apply od_get_is_Some. by rewrite Hexp.
      * by eapply IH.
    + destruct (update frontier y0 (num_add c d0)) as [frontier1|] eqn:Hup.
      * intros Hrelax a y d Hin.
        pose proof (update_NoDup _ _ _ _ Hnodup Hup) as Hnodup1.
        apply elem_of_cons in Hin as [[= -> -> ->]|Hin]; [|by eapply IH].
        right. destruct (update_entries _ _ _ _ Hnodup Hup) as [(cy & Hcy & Hle) _].
        destruct (relax_entries _ _ _ _ _ _ _ _ Hnodup1 Hrelax) as [_ Hrest].
        destruct (Hrest y0 cy Hcy) as (cy' & Hcy' & Hle').
        exists cy'. split; [done|]. by eapply num_le_transitive.
      * intros Hrelax a y d Hin.
        apply elem_of_cons in Hin as [[= -> -> ->]|Hin]; [|by eapply IH].
        right. destruct (update_kept _ _ _ Hup) as (cy & Hcy & Hle).
        destruct (relax_entries _ _ _ _ _ _ _ _ Hnodup Hrelax) as [_ Hrest].
        destruct (Hrest y0 cy Hcy) as (cy' & Hcy' & Hle').
        exists cy'. split; [done|]. by eapply num_le_transitive.
Qed.

(** One iteration of the loop maintains the invariant on the costs. *)
Lemma search_opt_step (frontier explored frontier' : list (State * R))
    (back back' : list (State * (string * State))) (s : State) (c : R)
    (succs : list (string * State * R)) :
  NoDup frontier.*1 -> (forall x, x ∈ frontier.*1 -> x ∉ explored.*1) ->
  search_opt problem frontier explored ->
  removeMin frontier = Some (s, c, od_del s frontier) ->
  isEnd problem s = false ->
  successorsAndCosts problem s = Ok succs ->
  relax (explored ++ [(s, c)]) s c succs (od_del s frontier) back = (frontier', back') ->
  search_opt problem frontier' (explored ++ [(s, c)]).
Proof.
  intros Hnodup Hfresh Hopt Hmin Hnotend Hsuccs Hrelax.
  pose proof (removeMin_least _ _ _ _ Hmin) as Hleast.
  apply removeMin_elem in Hmin as [Hin _].
  assert (s ∈ frontier.*1) as Hs by by apply (list_elem_of_fmap_2 fst _ (s, c)).
  destruct (od_del_NoDup s frontier Hnodup) as [Hdn _].
  destruct (relax_entries _ _ _ _ _ _ _ _ Hdn Hrelax) as [_ Hkeep].
  pose proof (relax_closed _ _ _ _ _ _ _ _ Hdn Hrelax) as Hnew.
  pose proof Hopt as (Hend & Hbest & Hclosed & Hstart).
  repeat split.
  - intros x. rewrite fmap_app, elem_of_app. intros [Hx|Hx]; [by apply Hend|].
    apply list_elem_of_singleton in Hx. simpl in Hx. by subst.
  - intros x cx steps Hx Hfollows Hfinal.
    apply elem_of_app in Hx as [Hx|Hx]; [by eapply Hbest|].
    apply list_elem_of_singleton in Hx as [= -> ->].
    destruct (frontier_lower_bound frontier explored steps Hopt Hfollows)
      as (y & cy & Hy & Hle).
    { rewrite Hfinal. by apply Hfresh. }
    eapply num_le_transitive; [by eapply Hleast|exact Hle].
  - intros x cx succs' a y d Hx Hsuccs' Hy.
    rewrite fmap_app, elem_of_app.
    apply elem_of_app in Hx as [Hx|Hx].
    + destruct (Hclosed x cx succs' a y d Hx Hsuccs' Hy) as [Hy'|(cy & Hcy & Hle)];
        [by left; left|].
      destruct (decide (y = s)) as [->|Hne].
      * left. right. simpl. by left.
      * right. destruct (Hkeep y cy) as (cy' & Hcy' & Hle');
          [by apply od_del_elem_keep|].
        exists cy'. split; [done|]. by eapply num_le_transitive.
    + apply list_elem_of_singleton in Hx as [= -> ->].
      rewrite Hsuccs in Hsuccs'. injection Hsuccs' as <-.
      destruct (Hnew a y d Hy) as [Hy'|Hy']; [|by right].
      left. by rewrite fmap_app, elem_of_app in Hy'.
  - left. rewrite fmap_app, elem_of_app.
    destruct Hstart as [Hstart|[-> ->]]; [by left|].
    apply list_elem_of_singleton in Hin as [= -> ->]. right. simpl. by left.
Qed.

(** When the search finishes, no path of the problem from its start state
    to an end state costs less than the cost it returns; in particular it
    returns a cost when there is such a path. *)
Lemma search_optimal (fuel : nat) :
  forall frontier explored back r,
    search_inv problem frontier explored back ->
    search_opt problem frontier explored ->
    search fuel problem frontier explored back = Finished r ->
    forall steps,
      follows problem start steps ->
      isEnd problem (final_state start steps) = true ->
      exists c, pathCost r = Some c /\ num_le c (path_cost (num_of_Z 0) steps).
Proof.
  induction fuel as [|fuel IH]; intros frontier explored back r Hinv Hopt; simpl;
    [discriminate|].
  assert (forall steps, follows problem start steps ->
            isEnd problem (final_state start steps) = true ->
            exists y cy, (y, cy) ∈ frontier /\ num_le cy (path_cost (num_of_Z 0) steps))
    as Hbound.
  { intros steps Hfollows Hend. apply (frontier_lower_bound _ explored); [done|done|].
    intros Hin. destruct Hopt as (Hnotend & _). rewrite (Hnotend _ Hin) in Hend.
    discriminate. }
  destruct (removeMin frontier) as [[[s cs] frontier']|] eqn:Hmin.
  - pose proof (removeMin_least _ _ _ _ Hmin) as Hleast.
    pose proof (removeMin_elem _ _ _ _ Hmin) as [Hin ->].
    destruct (isEnd problem s) eqn:Hend.
    + intros [= <-] steps Hfollows Hgoal. simpl.
      destruct (Hbound steps Hfollows Hgoal) as (y & cy & Hy & Hle).
      exists cs. split; [done|]. eapply num_le_transitive; [by eapply Hleast|done].
    + destruct (successorsAndCosts problem s) as [succs|e] eqn:Hsuccs; [|discriminate].
      destruct (relax _ s cs succs (od_del s frontier) back) as [frontier'' back']
        eqn:Hrelax.
      apply IH.
      * eapply (search_inv_relax problem (explored ++ [(s, cs)]) s cs succs);
          [| exact Hsuccs | | |exact Hrelax]; [|done|].
        -- rewrite elem_of_app. right. by left.
        -- by apply search_inv_extract.
      * destruct Hinv as (Hnodup & Hfresh & _).
        by eapply search_opt_step.
  - apply removeMin_None in Hmin as ->.
    intros [= <-] steps Hfollows Hgoal.
    destruct (Hbound steps Hfollows Hgoal) as (y & cy & Hy & _).
    by apply elem_of_nil in Hy.
Qed.

End SearchCosts.

(* ===================================================================== *)
(** * The reduction with the zero heuristic *)
(* ===================================================================== *)

Section ZeroHeuristicFacts.
Context {R : Type} `{Number R}.
Import mapUtil util submission grader Props.

(** The costs of the transitions of a [ShortestPathProblem] are the stored
    distances. *)
Lemma ShortestPathProblem_costs (startLocation endTag : string) (cityMap : CityMap R)
    (s : State) (succs : list (string * State * R)) (a : string) (y : State) (d : R) :
  successorsAndCosts (ShortestPathProblem startLocation endTag cityMap) s = Ok succs ->
  (a, y, d) ∈ succs -> (a, d) ∈ distances_at cityMap (location s).
Proof.
  simpl. unfold ShortestPathProblem_successorsAndCosts. intros [= <-] Hin.
  apply list_elem_of_In, in_map_iff in Hin as ([l d0] & [= <- <- <-] & Hin).
  by apply list_elem_of_In.
Qed.


End ZeroHeuristicFacts.

(* ===================================================================== *)
(** * The straight-line heuristic *)
(* ===================================================================== *)

Section LoopFacts.
Context {R : Type} `{Number R}.
Import mapUtil util submission.

Variable computeDistance : GeoLocation R -> GeoLocation R -> result R.

(** The loop of [StraightLineHeuristic.evaluate] returns when
    [computeDistance] returns for every target. *)
Lemma StraightLineHeuristic_loop_defined (g : GeoLocation R)
    (targets : list (GeoLocation R)) (init : R) :
  (forall target, target ∈ targets -> exists d, computeDistance target g = Ok d) ->
  exists v, StraightLineHeuristic_loop computeDistance g targets init = Ok v.
Proof.
  revert init. induction targets as [|y targets IH]; intros init Hdefined; simpl.
  - eauto.
  - destruct (Hdefined y) as [d ->]; [left|]. simpl.
    apply IH. intros target Htarget. apply Hdefined. by right.
Qed.

End LoopFacts.

Section HeuristicFacts.
Context {R : Type} `{Number R} `{!NumberOrder R}.
Import mapUtil util submission grader Props.

Variable computeDistance : GeoLocation R -> GeoLocation R -> result R.

Lemma num_le_trans (a b c : R) :
  num_ltb b a = false -> num_ltb c b = false -> num_ltb c a = false.
Proof.
  intros Hba Hcb. destruct (num_ltb c a) eqn:Hca; [|done].
  destruct (num_ltb_total a b) as [->|[Hab|Hab]]; [congruence| |congruence].
  rewrite (num_ltb_trans c a b) in Hcb; done.
Qed.

(** The running minimum of the loop
    [if target_distance < shortest: shortest = target_distance], when the
    loop returns. *)
Lemma StraightLineHeuristic_loop_bound (g : GeoLocation R)
    (targets : list (GeoLocation R)) (init v : R) :
  StraightLineHeuristic_loop computeDistance g targets init = Ok v ->
  num_ltb init v = false /\
  (forall target, target ∈ targets ->
     exists d, computeDistance target g = Ok d /\ num_ltb d v = false) /\
  (v = init \/ exists target, target ∈ targets /\ computeDistance target g = Ok v).
Proof.
  revert init. induction targets as [|y targets IH]; intros init; simpl.
  - intros [= <-]. split; [apply num_ltb_irrefl|]. split; [|by left].
    intros x Hx. by apply elem_of_nil in Hx.
  - intros Hloop. apply bind_Ok_inv in Hloop as (dy & Hdy & Hloop).
    destruct (IH _ Hloop) as (Hinit & Hall & Hv).
    destruct (num_ltb dy init) eqn:Hlt.
    + split; [|split].
      * apply (num_le_trans _ dy); [done|].
        destruct (num_ltb init dy) eqn:Hgt; [|done].
        pose proof (num_ltb_trans _ _ _ Hlt Hgt) as Hyy.
        by rewrite num_ltb_irrefl in Hyy.
      * intros x Hx. apply elem_of_cons in Hx as [->|Hx]; [eauto|by apply Hall].
      * right. destruct Hv as [->|(x & Hx & Hxv)]; [exists y|exists x];
          split; try done; [left|by right].
    + split; [done|]. split.
      * intros x Hx. apply elem_of_cons in Hx as [->|Hx]; [|by apply Hall].
        exists dy. split; [done|]. by apply (num_le_trans _ init).
      * destruct Hv as [->|(x & Hx & Hxv)]; [by left|].
        right. exists x. split; [by right|done].
Qed.

Lemma StraightLineHeuristic_targets_elem (endTag : string) (m : CityMap R)
    (g : GeoLocation R) :
  g ∈ StraightLineHeuristic_targets endTag m <->
  exists l, geoLocations m !! l = Some g /\ endTag ∈ tags_at m l.
Proof.
  unfold StraightLineHeuristic_targets.
  change (map ?f ?xs) with (f <$> xs). rewrite list_elem_of_fmap. split.
  - intros ([l g0] & -> & Hin). apply list_elem_of_filter in Hin as [Htag Hin].
    apply elem_of_map_to_list in Hin. apply bool_decide_eq_true in Htag. eauto.
  - intros (l & Hl & Htag). exists (l, g). split; [done|].
    apply list_elem_of_filter. split.
    + simpl. by apply bool_decide_eq_true.
    + by apply elem_of_map_to_list.
Qed.

(** X10.  Under the laws of a total order on the numbers: at a state whose
    location has coordinates, [StraightLineHeuristic.evaluate] returns
    exactly when [computeDistance] returns for every location that carries
    the end tag; the value it returns exceeds neither [10000000.0] nor the
    straight-line distance from any of those locations, and it is
    [10000000.0] or the distance from one of them. *)
Theorem StraightLineHeuristic_minimum (endTag : string) (m : CityMap R)
    (state : State) (g : GeoLocation R) :
  geoLocations m !! location state = Some g ->
  ((forall l gl, geoLocations m !! l = Some gl -> endTag ∈ tags_at m l ->
      exists d, computeDistance gl g = Ok d)
   <-> exists v, StraightLineHeuristic_evaluate computeDistance endTag m state = Ok v) /\
  (forall v,
     StraightLineHeuristic_evaluate computeDistance endTag m state = Ok v ->
     num_ltb (num_float 10000000) v = false /\
     (forall l gl, geoLocations m !! l = Some gl -> endTag ∈ tags_at m l ->
        exists d, computeDistance gl g = Ok d /\ num_ltb d v = false) /\
     (v = num_float 10000000 \/
      exists l gl, geoLocations m !! l = Some gl /\ endTag ∈ tags_at m l /\
                   computeDistance gl g = Ok v)).
Proof.
  intros Hg. unfold StraightLineHeuristic_evaluate, getitem. rewrite Hg. simpl.
  split; [split|].
  - intros Hdefined. apply StraightLineHeuristic_loop_defined.
    intros target Htarget.
    apply StraightLineHeuristic_targets_elem in Htarget as (l & Hl & Htag). eauto.
  - intros [v Hv] l gl Hl Htag.
    apply StraightLineHeuristic_loop_bound in Hv as (_ & Hall & _).
    destruct (Hall gl) as (d & Hd & _); [|eauto].
    apply StraightLineHeuristic_targets_elem. eauto.
  - intros v Hv.
    apply StraightLineHeuristic_loop_bound in Hv as (Hinit & Hall & Hv).
    split; [exact Hinit|]. split.
    + intros l gl Hl Htag. apply Hall, StraightLineHeuristic_targets_elem. eauto.
    + destruct Hv as [Hv|(gl & Hgl & Hv)]; [by left|right].
      apply StraightLineHeuristic_targets_elem in Hgl as (l & Hl & Htag). eauto.
Qed.

End HeuristicFacts.

Section ReductionFacts.
Context {R : Type} `{Number R}.
Import mapUtil util submission grader Props.

Variable computeDistance : GeoLocation R -> GeoLocation R -> result R.


End ReductionFacts.

(* ===================================================================== *)
(** * Growth of the graph model *)
(* ===================================================================== *)

Section GrowthFacts.
Context {R : Type} `{Number R}.
Import mapUtil util submission grader Props.

Variable computeDistance : GeoLocation R -> GeoLocation R -> result R.

Local Abbreviation addConnection := (addConnection computeDistance).
Local Abbreviation addLandmark := (addLandmark computeDistance).
Local Abbreviation addLandmarks := (addLandmarks computeDistance).
Local Abbreviation run := (run computeDistance).
Local Abbreviation exec := (exec computeDistance).

(** X12.  After a call of [addConnection] that returns, the distance (the
    one given, or [computeDistance] of the two coordinates) can be read back
    in both directions, every other pair of labels reads as before, and the
    coordinates and the tags are untouched. *)
Theorem addConnection_lookup (source target : string) (distance0 : option R)
    (m m' : CityMap R) :
  addConnection source target distance0 m = Ok m' ->
  exists d,
    match distance0 with
    | Some d0 => d = d0
    | None => exists g1 g2, geoLocations m !! source = Some g1 /\
                            geoLocations m !! target = Some g2 /\
                            computeDistance g1 g2 = Ok d
    end /\
    distance m' source target = Some d /\
    distance m' target source = Some d /\
    (forall a b, ~ (a = source /\ b = target) -> ~ (a = target /\ b = source) ->
                 distance m' a b = distance m a b) /\
    geoLocations m' = geoLocations m /\ tags m' = tags m.
Proof.
  intros Hrun.
  apply (addConnection_Ok computeDistance) in Hrun as (d & Hd0 & Hg & Ht & Hds).
  exists d. split; [exact Hd0|].
  assert (forall a b,
            distance m' a b =
            if decide (a = target /\ b = source) then Some d
            else if decide (a = source /\ b = target) then Some d
            else distance m a b) as Hd.
  { intros a b. unfold distance. rewrite Hds. by rewrite !lookup_set_distance. }
  repeat split; try done.
  - rewrite Hd. repeat case_decide; try done. tauto.
  - rewrite Hd. by rewrite decide_True by tauto.
  - intros a b H1 H2. rewrite Hd. by rewrite !decide_False by tauto.
Qed.

(** X13.  [addConnection] with an explicit distance never raises, whatever
    the labels.  Without a distance it raises [KeyError] when one of the
    two labels has no coordinates; when both have, it raises exactly when
    [computeDistance] raises on the two coordinates, with the exception of
    that call. *)
Theorem addConnection_raises (source target : string) (m : CityMap R) :
  (forall d, exists m', addConnection source target (Some d) m = Ok m') /\
  (geoLocations m !! source = None \/ geoLocations m !! target = None ->
   addConnection source target None m = Raise KeyError) /\
  (forall g1 g2 e,
     geoLocations m !! source = Some g1 -> geoLocations m !! target = Some g2 ->
     (addConnection source target None m = Raise e <-> computeDistance g1 g2 = Raise e)).
Proof.
  split; [intros d; eexists; reflexivity|].
  unfold mapUtil.addConnection, getitem.
  destruct (geoLocations m !! source) as [g1|]; simpl;
    destruct (geoLocations m !! target) as [g2|]; simpl.
  - split; [by intros [[=]|[=]]|]. intros g1' g2' e [= <-] [= <-].
    destruct (computeDistance g1 g2) as [d|e0]; simpl;
      [split; intros [=]|split; intros [= <-]; reflexivity].
  - split; [done|]. by intros g1' g2' e _ [=].
  - split; [done|]. by intros g1' g2' e [=].
  - split; [done|]. by intros g1' g2' e [=].
Qed.

(** ** Tag lists *)

Lemma addLandmark_inv tol item (m m' : CityMap R) :
  addLandmark tol item m = Ok m' ->
  m' = m \/
  exists bestLabel g,
    geoLocations m !! bestLabel = Some g /\
    m' = {| geoLocations := geoLocations m;
            tags := append_key "amenity" (amenity item) bestLabel
                      (append_key "landmark" (landmark item) bestLabel (tags m));
            distances := distances m |}.
Proof.
  unfold mapUtil.addLandmark. intros Hrun.
  apply bind_Ok_inv in Hrun as (items & Hitems & Hrun).
  apply bind_Ok_inv in Hrun as ([bestDistance bestLabel] & Hmin & Hm).
  apply min_tuple_elem in Hmin.
  apply (landmark_distances_Ok computeDistance) in Hitems as [Hfrom _].
  destruct (Hfrom _ _ Hmin) as (g0 & Hin & _).
  destruct (num_ltb _ tol); injection Hm as <-; [right; eauto|by left].
Qed.

Lemma append_key_lookup (key : string) (value : option string) (label : string)
    (ts : gmap string (list string)) (l : string) (old : list string) :
  ts !! l = Some old ->
  exists extra, append_key key value label ts !! l = Some (old ++ extra).
Proof.
  intros Hl. unfold append_key, append_tag, getdefault.
  destruct value as [v|]; [|exists []; by rewrite app_nil_r].
  destruct (decide (label = l)) as [->|Hne].
  - rewrite lookup_insert_eq, Hl. simpl. eauto.
  - rewrite lookup_insert_ne by done. exists []. by rewrite app_nil_r.
Qed.

Lemma append_key_None (key : string) (value : option string) (label : string)
    (ts : gmap string (list string)) (l : string) :
  is_Some (ts !! label) -> ts !! l = None ->
  append_key key value label ts !! l = None.
Proof.
  intros [old Hlabel] Hl. unfold append_key, append_tag.
  destruct value as [v|]; [|done].
  rewrite lookup_insert_ne; [done|]. intros ->. congruence.
Qed.

Lemma addLandmark_tags tol item (m m' : CityMap R) :
  tags_labelled m -> addLandmark tol item m = Ok m' ->
  geoLocations m' = geoLocations m /\ distances m' = distances m /\
  (forall l old, tags m !! l = Some old ->
     exists extra, tags m' !! l = Some (old ++ extra)) /\
  (forall l, tags m !! l = None -> tags m' !! l = None).
Proof.
  intros Hlab Hrun.
  apply addLandmark_inv in Hrun as [->|(bestLabel & g & Hbest & ->)].
  { repeat split; try done. intros l old Hl. exists []. by rewrite app_nil_r. }
  simpl. split; [done|]. split; [done|].
  assert (is_Some (tags m !! bestLabel)) as Hsome.
  { specialize (Hlab bestLabel). destruct (tags m !! bestLabel); [eauto|congruence]. }
  split.
  - intros l old Hl.
    destruct (append_key_lookup "landmark" (landmark item) bestLabel _ _ _ Hl)
      as [e1 H1].
    destruct (append_key_lookup "amenity" (amenity item) bestLabel _ _ _ H1)
      as [e2 H2].
    exists (e1 ++ e2). by rewrite app_assoc.
  - intros l Hl. apply append_key_None.
    + destruct Hsome as [old Hold].
      destruct (append_key_lookup "landmark" (landmark item) bestLabel _ _ _ Hold)
        as [e1 ->]. eauto.
    + by apply append_key_None.
Qed.

Lemma tags_labelled_grow (m m' : CityMap R) :
  tags_labelled m ->
  geoLocations m' = geoLocations m ->
  (forall l old, tags m !! l = Some old ->
     exists extra, tags m' !! l = Some (old ++ extra)) ->
  (forall l, tags m !! l = None -> tags m' !! l = None) ->
  tags_labelled m'.
Proof.
  intros Hlab Hg Hsome Hnone l. specialize (Hlab l). rewrite Hg.
  destruct (tags m !! l) as [old|] eqn:Hl.
  - destruct (Hsome l old Hl) as [extra ->].
    destruct Hlab as [Hgeo [rest ->]]. split; [done|]. simpl. eauto.
  - by rewrite (Hnone l Hl).
Qed.

Lemma addLandmarks_tags landmarks tol (m m' : CityMap R) :
  tags_labelled m -> addLandmarks landmarks tol m = Ok m' ->
  tags_labelled m' /\
  (forall l old, tags m !! l = Some old ->
     exists extra, tags m' !! l = Some (old ++ extra)).
Proof.
  revert m. induction landmarks as [|item rest IH]; intros m Hlab; simpl.
  - intros [= <-]. split; [done|]. intros l old Hl. exists []. by rewrite app_nil_r.
  - intros Hrun. apply bind_Ok_inv in Hrun as (m1 & H1 & Hrest).
    destruct (addLandmark_tags _ _ _ _ Hlab H1) as (Hg & _ & Hsome & Hnone).
    destruct (IH m1) as [Hlab' Hsome']; [by eapply tags_labelled_grow|done|].
    split; [done|]. intros l old Hl.
    destruct (Hsome l old Hl) as [e1 H1'].
    destruct (Hsome' l _ H1') as [e2 H2']. exists (e1 ++ e2). by rewrite app_assoc.
Qed.

Lemma tags_labelled_exec (c : call R) (m m' : CityMap R) :
  tags_labelled m -> exec c m = Ok m' -> tags_labelled m'.
Proof.
  intros Hlab Hexec. destruct c as [l g ts|s t d0|ls tol]; simpl in Hexec.
  - apply addLocation_Ok in Hexec as (Hfresh & Hg & Ht & _).
    intros l'. rewrite Hg, Ht. destruct (decide (l = l')) as [->|Hne].
    + rewrite !lookup_insert_eq. split; eauto.
    + rewrite !lookup_insert_ne by done. apply Hlab.
  - apply (addConnection_Ok computeDistance) in Hexec as (d & _ & Hg & Ht & _).
    intros l'. rewrite Hg, Ht. apply Hlab.
  - by apply (addLandmarks_tags _ _ _ _ Hlab) in Hexec as [? _].
Qed.

Lemma tags_labelled_init : tags_labelled (CityMap_init (R := R)).
Proof. intros l. simpl. by rewrite !lookup_empty. Qed.

(** X14.  On every map built by calls, the locations and the labels with a
    tag list are the same, and the tag list of a location starts with its
    own label tag [label=<label>]. *)
Theorem built_tags_labelled (calls : list (call R)) (m : CityMap R) (l : string) :
  run calls CityMap_init = Ok m ->
  (is_Some (tags m !! l) <-> is_Some (geoLocations m !! l)) /\
  (is_Some (geoLocations m !! l) -> exists rest, tags_at m l = makeTag "label" l :: rest).
Proof.
  intros Hrun.
  assert (tags_labelled m) as Hlab.
  { eapply (run_preserves computeDistance tags_labelled);
      [apply tags_labelled_exec|apply tags_labelled_init|exact Hrun]. }
  specialize (Hlab l). unfold tags_at, getdefault.
  destruct (tags m !! l) as [ts|].
  - destruct Hlab as [Hgeo Hrest]. by repeat split.
  - rewrite Hlab. split; [split; intros [? [=]]|intros [? [=]]].
Qed.

(** ** Nothing is removed *)

Lemma grows_exec (c : call R) (m m' : CityMap R) :
  tags_labelled m -> exec c m = Ok m' ->
  (forall l g, geoLocations m !! l = Some g -> geoLocations m' !! l = Some g) /\
  (forall l old, tags m !! l = Some old ->
     exists extra, tags m' !! l = Some (old ++ extra)) /\
  (forall a b, is_Some (distance m a b) -> is_Some (distance m' a b)).
Proof.
  intros Hlab Hexec. destruct c as [l g ts|s t d0|ls tol]; simpl in Hexec.
  - apply addLocation_Ok in Hexec as (Hfresh & Hg & Ht & Hd).
    split; [|split].
    + intros l' g' Hl'. rewrite Hg. rewrite lookup_insert_ne; [done|congruence].
    + intros l' old Hl'. rewrite Ht. exists []. rewrite app_nil_r.
      rewrite lookup_insert_ne; [done|]. intros ->.
      specialize (Hlab l'). rewrite Hl' in Hlab. destruct Hlab as [[? ?] _]. congruence.
    + intros a b. unfold distance. by rewrite Hd.
  - pose proof (addConnection_Ok computeDistance _ _ _ _ _ Hexec) as (_ & _ & Hg & Ht & _).
    apply (distance_addConnection computeDistance) in Hexec as (d & Hd).
    split; [|split].
    + intros l' g'. by rewrite Hg.
    + intros l' old Hl'. rewrite Ht. exists []. by rewrite app_nil_r.
    + intros a b Hab. rewrite Hd. case_decide; eauto.
  - pose proof (addLandmarks_frame computeDistance _ _ _ _ Hexec) as [Hg Hd].
    apply (addLandmarks_tags _ _ _ _ Hlab) in Hexec as [_ Hsome].
    split; [|split].
    + intros l' g'. by rewrite Hg.
    + exact Hsome.
    + intros a b. unfold distance. by rewrite Hd.
Qed.

(** X15.  Further calls on a built map remove nothing: every location keeps
    its coordinates, every tag list keeps its tags in place and only gets
    tags appended, and every connection stays. *)
Theorem built_map_grows (calls more : list (call R)) (m m' : CityMap R) :
  run calls CityMap_init = Ok m ->
  run more m = Ok m' ->
  (forall l g, geoLocations m !! l = Some g -> geoLocations m' !! l = Some g) /\
  (forall l old, tags m !! l = Some old ->
     exists extra, tags m' !! l = Some (old ++ extra)) /\
  (forall a b, is_Some (distance m a b) -> is_Some (distance m' a b)).
Proof.
  intros Hrun.
  assert (tags_labelled m) as Hlab.
  { eapply (run_preserves computeDistance tags_labelled);
      [apply tags_labelled_exec|apply tags_labelled_init|exact Hrun]. }
  clear Hrun. revert m Hlab.
  induction more as [|c rest IH]; intros m Hlab; simpl.
  - intros [= <-]. repeat split; try done.
    intros l old Hl. exists []. by rewrite app_nil_r.
  - intros Hmore. apply bind_Ok_inv in Hmore as (m1 & H1 & Hrest).
    destruct (grows_exec _ _ _ Hlab H1) as (Hg1 & Ht1 & Hd1).
    destruct (IH m1 (tags_labelled_exec _ _ _ Hlab H1) Hrest) as (Hg2 & Ht2 & Hd2).
    split; [|split].
    + eauto.
    + intros l old Hl. destruct (Ht1 l old Hl) as [e1 H1'].
      destruct (Ht2 l _ H1') as [e2 H2']. exists (e1 ++ e2). by rewrite app_assoc.
    + eauto.
Qed.

End GrowthFacts.

(* ===================================================================== *)
(** * Grid maps *)
(* ===================================================================== *)

Section GridLabels.
Import mapUtil Props.

Lemma pretty_N_go_no_comma (x : N) (s : string) :
  no_comma s -> no_comma (pretty_N_go x s).
Proof.
  revert s. induction (N.lt_wf_0 x) as [x _ IH]; intros s Hs.
  assert (x = 0 \/ 0 < x)%N as [->|Hpos] by lia.
  - by rewrite pretty_N_go_0.
  - rewrite pretty_N_go_step by done. apply IH; [by apply N.div_lt|].
    split; [|done]. unfold pretty_N_char. by repeat case_match.
Qed.

Lemma pretty_N_no_comma (x : N) : no_comma (pretty x).
Proof.
  unfold pretty, pretty_N. case_decide; [by split|].
  by apply pretty_N_go_no_comma.
Qed.

Lemma pretty_Z_no_comma (x : Z) : no_comma (pretty x).
Proof.
  destruct x as [|p|p]; unfold pretty, pretty_Z.
  - by split.
  - apply pretty_N_no_comma.
  - change (no_comma (String "-" (pretty p))).
    split; [done|]. apply pretty_N_no_comma.
Qed.

Lemma comma_split (a a' b b' : string) :
  no_comma a -> no_comma a' ->
  a +:+ String "," b = a' +:+ String "," b' -> a = a' /\ b = b'.
Proof.
  revert a'. induction a as [|c a IH]; intros [|c' a'] Ha Ha' Heq.
  - change (String "," b = String "," b') in Heq. by injection Heq as ->.
  - change (String "," b = String c' (a' +:+ String "," b')) in Heq.
    injection Heq as Hc _. destruct Ha' as [Hc' _]. congruence.
  - change (String c (a +:+ String "," b) = String "," b') in Heq.
    injection Heq as Hc _. destruct Ha as [Hc' _]. congruence.
  - change (String c (a +:+ String "," b) = String c' (a' +:+ String "," b')) in Heq.
    injection Heq as -> Heq. destruct Ha as [_ Ha]. destruct Ha' as [_ Ha'].
    destruct (IH a' Ha Ha' Heq) as [-> ->]. done.
Qed.

Lemma makeGridLabel_inj (x y x' y' : Z) :
  makeGridLabel x y = makeGridLabel x' y' -> x = x' /\ y = y'.
Proof.
  unfold makeGridLabel. intros Heq.
  apply (comma_split _ _ (pretty y) (pretty y')) in Heq as [Hx Hy];
    try apply pretty_Z_no_comma.
  split; by apply (inj pretty).
Qed.

(** X16.  [makeGridLabel] gives different labels to different cells. *)
Theorem makeGridLabel_injective (x y x' y' : Z) :
  makeGridLabel x y = makeGridLabel x' y' <-> x = x' /\ y = y'.
Proof.
  split; [apply makeGridLabel_inj|]. by intros [-> ->].
Qed.

End GridLabels.

Section GridFacts.
Context {R : Type} `{Number R}.
Import mapUtil util submission grader Props.

Variable computeDistance : GeoLocation R -> GeoLocation R -> result R.
Variable times_UNIT_DELTA : Z -> R.

Local Abbreviation addConnection := (addConnection computeDistance).
Local Abbreviation run := (run computeDistance).
Local Abbreviation exec := (exec computeDistance).
Local Abbreviation grid_cell := (grid_cell times_UNIT_DELTA).
Local Abbreviation grid_calls := (grid_calls times_UNIT_DELTA).
Local Abbreviation createGridMap := (createGridMap computeDistance times_UNIT_DELTA).

(** ** Sequences of [addLocation] and explicit [addConnection] calls *)

Lemma added_labels_app (calls1 calls2 : list (call R)) :
  added_labels (calls1 ++ calls2) = added_labels calls1 ++ added_labels calls2.
Proof. apply omap_app. Qed.

Lemma added_labels_flat_map {A} (f : A -> list (call R)) (xs : list A) :
  added_labels (flat_map f xs) = flat_map (fun x => added_labels (f x)) xs.
Proof.
  induction xs as [|x xs IH]; simpl; [done|].
  by rewrite added_labels_app, IH.
Qed.

Lemma NoDup_flat_map {A B} (f : A -> list B) (xs : list A) :
  (forall x1 x2 y, x1 ∈ xs -> x2 ∈ xs -> y ∈ f x1 -> y ∈ f x2 -> x1 = x2) ->
  (forall x, x ∈ xs -> NoDup (f x)) ->
  NoDup xs -> NoDup (flat_map f xs).
Proof.
  induction xs as [|x xs IH]; intros Hinj Hf Hxs; simpl; [constructor|].
  apply NoDup_cons in Hxs as [Hx Hxs]. apply NoDup_app. split; [|split].
  - apply Hf. left.
  - intros y Hy Hy'. apply list_elem_of_In, in_flat_map in Hy' as (x' & Hx' & Hy').
    apply list_elem_of_In in Hx', Hy'.
    assert (x = x') as <-; [|done].
    apply (Hinj x x' y); [left|by right|done|done].
  - apply IH; [|intros; apply Hf; by right|done].
    intros x1 x2 y H1 H2. apply Hinj; by right.
Qed.

Lemma run_explicit_Ok (calls : list (call R)) :
  forallb explicit_call calls = true ->
  forall m0, NoDup (added_labels calls) ->
             (forall l, l ∈ added_labels calls -> geoLocations m0 !! l = None) ->
             exists m, run calls m0 = Ok m.
Proof.
  induction calls as [|c rest IH]; intros Hexp m0 Hnodup Hfresh; simpl; [eauto|].
  simpl in Hexp. apply andb_prop in Hexp as [Hc Hrest].
  destruct c as [l g ts|s t [d|]|ls tol]; try discriminate; simpl.
  - unfold added_labels in Hnodup, Hfresh. simpl in Hnodup, Hfresh.
    apply NoDup_cons in Hnodup as [Hl Hnodup].
    unfold addLocation. rewrite (Hfresh l) by left. simpl.
    apply IH; [done|done|]. intros l' Hl'. simpl.
    rewrite lookup_insert_ne; [apply Hfresh; by right|]. by intros ->.
  - apply IH; [done|done|]. intros l' Hl'. simpl. by apply Hfresh.
Qed.

Lemma run_geoLocations (calls : list (call R)) (m0 m : CityMap R) (l : string) :
  run calls m0 = Ok m ->
  (is_Some (geoLocations m !! l) <->
   is_Some (geoLocations m0 !! l) \/ l ∈ added_labels calls).
Proof.
  revert m0. induction calls as [|c rest IH]; intros m0; simpl.
  - intros [= <-]. unfold added_labels. simpl. rewrite elem_of_nil. tauto.
  - intros Hrun. apply bind_Ok_inv in Hrun as (m1 & H1 & Hrest).
    rewrite (IH m1 Hrest). destruct c as [l0 g ts|s t d0|ls tol]; simpl in H1.
    + apply addLocation_Ok in H1 as (_ & Hg & _). rewrite Hg.
      unfold added_labels. simpl. rewrite lookup_insert_is_Some, elem_of_cons.
      destruct (decide (l0 = l)); intuition congruence.
    + apply (addConnection_Ok computeDistance) in H1 as (_ & _ & Hg & _).
      rewrite Hg. unfold added_labels. simpl. tauto.
    + apply (addLandmarks_frame computeDistance) in H1 as [Hg _].
      rewrite Hg. unfold added_labels. simpl. tauto.
Qed.

Lemma run_explicit_tags_keep (calls : list (call R)) :
  forallb explicit_call calls = true ->
  forall m0 m l,
    run calls m0 = Ok m -> is_Some (geoLocations m0 !! l) ->
    tags m !! l = tags m0 !! l /\ geoLocations m !! l = geoLocations m0 !! l.
Proof.
  induction calls as [|c rest IH]; intros Hexp m0 m l; simpl.
  - by intros [= <-].
  - simpl in Hexp. apply andb_prop in Hexp as [Hc Hrest].
    intros Hrun Hl. apply bind_Ok_inv in Hrun as (m1 & H1 & Hrun).
    destruct c as [l0 g ts|s t [d|]|ls tol]; try discriminate; simpl in H1.
    + apply addLocation_Ok in H1 as (Hfresh & Hg & Ht & _).
      assert (l0 <> l) as Hne by (intros ->; destruct Hl; congruence).
      destruct (IH Hrest m1 m l Hrun) as [Ht' Hg'].
      { rewrite Hg. by rewrite lookup_insert_ne. }
      rewrite Ht', Hg', Hg, Ht. by rewrite !lookup_insert_ne.
    + apply (addConnection_Ok computeDistance) in H1 as (_ & _ & Hg & Ht & _).
      destruct (IH Hrest m1 m l Hrun) as [Ht' Hg']; [by rewrite Hg|].
      by rewrite Ht', Hg', Hg, Ht.
Qed.

Lemma run_explicit_tags (calls : list (call R)) :
  forallb explicit_call calls = true ->
  forall m0 m l g ts,
    run calls m0 = Ok m -> AddLocation l g ts ∈ calls ->
    tags m !! l = Some (makeTag "label" l :: ts) /\ geoLocations m !! l = Some g.
Proof.
  induction calls as [|c rest IH]; intros Hexp m0 m l g ts; simpl.
  - intros _ Hin. by apply elem_of_nil in Hin.
  - simpl in Hexp. apply andb_prop in Hexp as [Hc Hrest].
    intros Hrun Hin. apply bind_Ok_inv in Hrun as (m1 & H1 & Hrun).
    apply elem_of_cons in Hin as [<-|Hin]; [|by eapply IH].
    simpl in H1. apply addLocation_Ok in H1 as (_ & Hg & Ht & _).
    destruct (run_explicit_tags_keep rest Hrest m1 m l Hrun) as [-> ->].
    + rewrite Hg, lookup_insert_eq. eauto.
    + by rewrite Ht, Hg, !lookup_insert_eq.
Qed.

Lemma exec_distance_keep (c : call R) (m m' : CityMap R) (a b : string) :
  exec c m = Ok m' -> is_Some (distance m a b) -> is_Some (distance m' a b).
Proof.
  intros Hexec. destruct c as [l g ts|s t d0|ls tol]; simpl in Hexec.
  - apply addLocation_Ok in Hexec as (_ & _ & _ & Hd). unfold distance. by rewrite Hd.
  - apply (distance_addConnection computeDistance) in Hexec as (d & Hd).
    rewrite Hd. case_decide; eauto.
  - apply (addLandmarks_frame computeDistance) in Hexec as [_ Hd].
    unfold distance. by rewrite Hd.
Qed.

Lemma run_distance_keep (calls : list (call R)) (m0 m : CityMap R) (a b : string) :
  run calls m0 = Ok m -> is_Some (distance m0 a b) -> is_Some (distance m a b).
Proof.
  revert m0. induction calls as [|c rest IH]; intros m0; simpl.
  - by intros [= <-].
  - intros Hrun Hab. apply bind_Ok_inv in Hrun as (m1 & H1 & Hrun).
    eapply IH; [exact Hrun|]. by eapply exec_distance_keep.
Qed.

Lemma run_connection_present (calls : list (call R)) (m0 m : CityMap R)
    (s t : string) (d0 : option R) :
  run calls m0 = Ok m -> AddConnection s t d0 ∈ calls ->
  is_Some (distance m s t) /\ is_Some (distance m t s).
Proof.
  revert m0. induction calls as [|c rest IH]; intros m0; simpl.
  - intros _ Hin. by apply elem_of_nil in Hin.
  - intros Hrun Hin. apply bind_Ok_inv in Hrun as (m1 & H1 & Hrun).
    apply elem_of_cons in Hin as [<-|Hin]; [|by eapply IH].
    simpl in H1. apply (distance_addConnection computeDistance) in H1 as (d & Hd).
    split; eapply run_distance_keep; try exact Hrun; rewrite Hd;
      rewrite decide_True by tauto; eauto.
Qed.

Lemma run_explicit_distance_origin (calls : list (call R)) :
  forallb explicit_call calls = true ->
  forall m0 m a b d,
    run calls m0 = Ok m -> distance m a b = Some d ->
    distance m0 a b = Some d \/
    exists s t, AddConnection s t (Some d) ∈ calls /\
                ((a = s /\ b = t) \/ (a = t /\ b = s)).
Proof.
  induction calls as [|c rest IH]; intros Hexp m0 m a b d; simpl.
  - intros [= <-]. by left.
  - simpl in Hexp. apply andb_prop in Hexp as [Hc Hrest].
    intros Hrun Hab. apply bind_Ok_inv in Hrun as (m1 & H1 & Hrun).
    destruct (IH Hrest m1 m a b d Hrun Hab) as [H1d|(s & t & Hin & Hst)].
    2: { right. exists s, t. split; [by right|done]. }
    destruct c as [l0 g ts|s t [d'|]|ls tol]; try discriminate; simpl in H1.
    + apply addLocation_Ok in H1 as (_ & _ & _ & Hd).
      left. unfold distance in *. by rewrite <- Hd.
    + apply (addConnection_Ok computeDistance) in H1 as (d1 & -> & _ & _ & Hds).
      unfold distance in H1d. rewrite Hds, !lookup_set_distance in H1d.
      destruct (decide (a = t /\ b = s)) as [Hts|_].
      { right. exists s, t. split; [|tauto]. injection H1d as ->. left. }
      destruct (decide (a = s /\ b = t)) as [Hst|_].
      { right. exists s, t. split; [|tauto]. injection H1d as ->. left. }
      by left.
Qed.

(** ** The calls of [createGridMap] *)

Lemma grid_calls_elem (c : call R) (width height : Z) :
  c ∈ grid_calls width height <->
  exists x y : nat, (x < Z.to_nat width)%nat /\ (y < Z.to_nat height)%nat /\
                    c ∈ grid_cell x y [].
Proof.
  unfold mapUtil.grid_calls. rewrite list_elem_of_In, in_flat_map. split.
  - intros (x & Hx & Hc). apply in_flat_map in Hc as (y & Hy & Hc).
    apply in_seq in Hx, Hy. exists x, y. rewrite list_elem_of_In. repeat split; [lia|lia|done].
  - intros (x & y & Hx & Hy & Hc). exists x. split; [apply in_seq; lia|].
    apply in_flat_map. exists y. split; [apply in_seq; lia|]. by apply list_elem_of_In.
Qed.

Lemma grid_cell_added (x y : nat) (custom : list string) :
  added_labels (grid_cell x y custom) = [makeGridLabel (Z.of_nat x) (Z.of_nat y)].
Proof.
  unfold mapUtil.grid_cell, added_labels.
  by destruct (0 <? x)%nat, (0 <? y)%nat.
Qed.

Lemma grid_calls_explicit (width height : Z) :
  forallb explicit_call (grid_calls width height) = true.
Proof.
  apply forallb_forall. intros c Hc.
  apply list_elem_of_In, grid_calls_elem in Hc as (x & y & _ & _ & Hc).
  unfold mapUtil.grid_cell in Hc.
  destruct (0 <? x)%nat, (0 <? y)%nat; simpl in Hc;
    repeat (apply elem_of_cons in Hc as [->|Hc]; [done|]);
    by apply elem_of_nil in Hc.
Qed.

Lemma grid_calls_added (width height : Z) (l : string) :
  l ∈ added_labels (grid_calls width height) <->
  exists x y : Z, 0 <= x < width /\ 0 <= y < height /\ l = makeGridLabel x y.
Proof.
  unfold mapUtil.grid_calls. rewrite added_labels_flat_map.
  rewrite list_elem_of_In, in_flat_map. split.
  - intros (x & Hx & Hl). rewrite added_labels_flat_map in Hl.
    apply in_flat_map in Hl as (y & Hy & Hl). rewrite grid_cell_added in Hl.
    apply in_seq in Hx, Hy. destruct Hl as [<-|[]].
    exists (Z.of_nat x), (Z.of_nat y). repeat split; lia.
  - intros (x & y & Hx & Hy & ->). exists (Z.to_nat x). split; [apply in_seq; lia|].
    rewrite added_labels_flat_map. apply in_flat_map.
    exists (Z.to_nat y). split; [apply in_seq; lia|].
    rewrite grid_cell_added, !Z2Nat.id by lia. by left.
Qed.

Lemma grid_calls_NoDup (width height : Z) :
  NoDup (added_labels (grid_calls width height)).
Proof.
  unfold mapUtil.grid_calls. rewrite added_labels_flat_map.
  apply NoDup_flat_map; [| |apply NoDup_ListNoDup, seq_NoDup].
  - intros x1 x2 l _ _ H1 H2. rewrite added_labels_flat_map in H1, H2.
    apply list_elem_of_In, in_flat_map in H1 as (y1 & _ & H1).
    apply list_elem_of_In, in_flat_map in H2 as (y2 & _ & H2).
    rewrite grid_cell_added in H1, H2. destruct H1 as [<-|[]]. destruct H2 as [H2|[]].
    apply makeGridLabel_inj in H2 as [Hx _]. lia.
  - intros x _. rewrite added_labels_flat_map.
    apply NoDup_flat_map; [| |apply NoDup_ListNoDup, seq_NoDup].
    + intros y1 y2 l _ _ H1 H2. rewrite grid_cell_added in H1, H2.
      apply list_elem_of_singleton in H1, H2. subst l.
      apply makeGridLabel_inj in H2 as [_ Hy]. lia.
    + intros y _. rewrite grid_cell_added. apply NoDup_singleton.
Qed.

(** X17.  [createGridMap(width, height)] never raises.  The locations of
    the map it returns are the labels of the cells [(x, y)] with
    [0 <= x < width] and [0 <= y < height], and the tag list of a cell is
    its label tag followed by [x=<x>] and [y=<y>]. *)
Theorem createGridMap_locations (width height : Z) :
  exists m,
    createGridMap width height = Ok m /\
    (forall l, is_Some (geoLocations m !! l) <->
               exists x y : Z, 0 <= x < width /\ 0 <= y < height /\
                               l = makeGridLabel x y) /\
    (forall x y : Z, 0 <= x < width -> 0 <= y < height ->
       tags_at m (makeGridLabel x y) =
       [makeTag "label" (makeGridLabel x y); makeTag "x" (pretty x); makeTag "y" (pretty y)]).
Proof.
  destruct (run_explicit_Ok (grid_calls width height) (grid_calls_explicit _ _)
              CityMap_init (grid_calls_NoDup _ _)) as [m Hm].
  { intros l _. simpl. apply lookup_empty. }
  exists m. split; [exact Hm|]. split.
  - intros l. rewrite (run_geoLocations _ _ _ l Hm), grid_calls_added.
    simpl. rewrite lookup_empty. split; [intros [[? [=]]|?]; done|by right].
  - intros x y Hx Hy.
    destruct (run_explicit_tags (grid_calls width height) (grid_calls_explicit _ _)
                CityMap_init m (makeGridLabel x y)
                {| latitude := times_UNIT_DELTA x; longitude := times_UNIT_DELTA y |}
                [makeTag "x" (pretty x); makeTag "y" (pretty y)] Hm) as [Ht _].
    + apply grid_calls_elem. exists (Z.to_nat x), (Z.to_nat y).
      split; [lia|]. split; [lia|]. unfold mapUtil.grid_cell.
      rewrite !Z2Nat.id by lia. apply elem_of_app. left. left.
    + unfold tags_at, getdefault. by rewrite Ht.
Qed.

Lemma grid_connection_elem (s t : string) (d : R) (width height : Z) :
  AddConnection s t (Some d) ∈ grid_calls width height ->
  d = num_of_Z 1 /\
  exists x y : Z, 0 <= x < width /\ 0 <= y < height /\ t = makeGridLabel x y /\
    ((0 < x /\ s = makeGridLabel (x - 1) y) \/ (0 < y /\ s = makeGridLabel x (y - 1))).
Proof.
  intros Hin. apply grid_calls_elem in Hin as (x & y & Hx & Hy & Hin).
  unfold mapUtil.grid_cell in Hin.
  apply elem_of_cons in Hin as [[=]|Hin].
  apply elem_of_app in Hin as [Hin|Hin].
  - destruct (0 <? x)%nat eqn:Hpos; [|by apply elem_of_nil in Hin].
    apply Nat.ltb_lt in Hpos.
    apply list_elem_of_singleton in Hin. injection Hin as -> -> ->.
    split; [done|]. exists (Z.of_nat x), (Z.of_nat y).
    repeat split; try lia. left. split; [lia|done].
  - destruct (0 <? y)%nat eqn:Hpos; [|by apply elem_of_nil in Hin].
    apply Nat.ltb_lt in Hpos.
    apply list_elem_of_singleton in Hin. injection Hin as -> -> ->.
    split; [done|]. exists (Z.of_nat x), (Z.of_nat y).
    repeat split; try lia. right. split; [lia|done].
Qed.

(** X18.  On the map of [createGridMap(width, height)] every stored
    distance is [1], and two cells are connected exactly when they are
    neighbours in a row or in a column of the grid. *)
Theorem createGridMap_connections (width height : Z) (m : CityMap R) :
  createGridMap width height = Ok m ->
  (forall a b d, distance m a b = Some d -> d = num_of_Z 1) /\
  (forall x y x' y' : Z,
     0 <= x < width -> 0 <= y < height -> 0 <= x' < width -> 0 <= y' < height ->
     (is_Some (distance m (makeGridLabel x y) (makeGridLabel x' y')) <->
      (x = x' /\ (y' = y + 1 \/ y = y' + 1)) \/
      (y = y' /\ (x' = x + 1 \/ x = x' + 1)))).
Proof.
  intros Hm. unfold mapUtil.createGridMap in Hm.
  pose proof (run_explicit_distance_origin (grid_calls width height)
                (grid_calls_explicit _ _) CityMap_init m) as Horigin.
  split.
  - intros a b d Hab.
    destruct (Horigin a b d Hm Hab) as [Hinit|(s & t & Hin & _)].
    + unfold distance in Hinit. simpl in Hinit. by rewrite lookup_empty in Hinit.
    + by apply grid_connection_elem in Hin as [-> _].
  - intros x y x' y' Hx Hy Hx' Hy'. split.
    + intros [d Hab].
      destruct (Horigin _ _ d Hm Hab) as [Hinit|(s & t & Hin & Hst)].
      { unfold distance in Hinit. simpl in Hinit. by rewrite lookup_empty in Hinit. }
      apply grid_connection_elem in Hin
        as (_ & x0 & y0 & _ & _ & -> & [[Hpos ->]|[Hpos ->]]);
        destruct Hst as [[H1 H2]|[H1 H2]];
        apply makeGridLabel_inj in H1 as [? ?];
        apply makeGridLabel_inj in H2 as [? ?]; lia.
    + assert (forall x0 y0 : Z, 0 <= x0 < width -> 0 <= y0 < height -> 0 < x0 ->
                AddConnection (makeGridLabel (x0 - 1) y0) (makeGridLabel x0 y0)
                  (Some (num_of_Z 1)) ∈ grid_calls width height) as Hrow.
      { intros x0 y0 Hx0 Hy0 Hpos. apply grid_calls_elem.
        exists (Z.to_nat x0), (Z.to_nat y0). split; [lia|]. split; [lia|].
        unfold mapUtil.grid_cell. rewrite !Z2Nat.id by lia.
        right. apply elem_of_app. left.
        destruct (0 <? Z.to_nat x0)%nat eqn:Hlt; [left|].
        apply Nat.ltb_ge in Hlt. lia. }
      assert (forall x0 y0 : Z, 0 <= x0 < width -> 0 <= y0 < height -> 0 < y0 ->
                AddConnection (makeGridLabel x0 (y0 - 1)) (makeGridLabel x0 y0)
                  (Some (num_of_Z 1)) ∈ grid_calls width height) as Hcol.
      { intros x0 y0 Hx0 Hy0 Hpos. apply grid_calls_elem.
        exists (Z.to_nat x0), (Z.to_nat y0). split; [lia|]. split; [lia|].
        unfold mapUtil.grid_cell. rewrite !Z2Nat.id by lia.
        right. apply elem_of_app. right.
        destruct (0 <? Z.to_nat y0)%nat eqn:Hlt; [left|].
        apply Nat.ltb_ge in Hlt. lia. }
      intros [[<- [->| ->]]|[<- [->| ->]]].
      * destruct (run_connection_present _ _ _ _ _ _ Hm (Hcol x (y + 1) Hx Hy' ltac:(lia)))
          as [Hst _]. by replace (y + 1 - 1) with y in Hst by lia.
      * destruct (run_connection_present _ _ _ _ _ _ Hm (Hcol x (y' + 1) Hx Hy ltac:(lia)))
          as [_ Hts]. by replace (y' + 1 - 1) with y' in Hts by lia.
      * destruct (run_connection_present _ _ _ _ _ _ Hm (Hrow (x + 1) y Hx' Hy ltac:(lia)))
          as [Hst _]. by replace (x + 1 - 1) with x in Hst by lia.
      * destruct (run_connection_present _ _ _ _ _ _ Hm (Hrow (x' + 1) y Hx Hy ltac:(lia)))
          as [_ Hts]. by replace (x' + 1 - 1) with x' in Hts by lia.
Qed.

(** X20.  On the map of [createGridMap(width, height)], the end tag
    [makeTag("label", makeGridLabel(x, y))] of a cell designates that cell
    and no other: [ShortestPathProblem.isEnd] accepts the state at a cell
    exactly when it is the cell [(x, y)]. *)
Theorem createGridMap_label_tag (width height : Z) (m : CityMap R)
    (startLocation : string) (x y x' y' : Z) (mem : option (list string)) :
  createGridMap width height = Ok m ->
  0 <= x' < width -> 0 <= y' < height ->
  (isEnd (ShortestPathProblem startLocation (makeTag "label" (makeGridLabel x y)) m)
     {| location := makeGridLabel x' y'; memory := mem |} = true
   <-> x = x' /\ y = y').
Proof.
  intros Hm Hx' Hy'. unfold mapUtil.createGridMap in Hm.
  destruct (run_explicit_tags (grid_calls width height) (grid_calls_explicit _ _)
              CityMap_init m (makeGridLabel x' y')
              {| latitude := times_UNIT_DELTA x'; longitude := times_UNIT_DELTA y' |}
              [makeTag "x" (pretty x'); makeTag "y" (pretty y')] Hm) as [Ht _].
  { apply grid_calls_elem. exists (Z.to_nat x'), (Z.to_nat y').
    split; [lia|]. split; [lia|]. unfold mapUtil.grid_cell.
    rewrite !Z2Nat.id by lia. apply elem_of_app. left. left. }
  simpl. unfold ShortestPathProblem_isEnd, tags_at, getdefault. simpl.
  rewrite Ht. simpl. rewrite contains_true, !elem_of_cons, elem_of_nil.
  split.
  - intros [Heq|[Heq|[Heq|[]]]];
      cbv beta iota zeta fix delta [makeTag String.append] in Heq;
      try discriminate.
    injection Heq as Heq. by apply makeGridLabel_inj.
  - intros [-> ->]. by left.
Qed.

(** ** createGridMapWithCustomTags *)

Local Abbreviation createGridMapWithCustomTags :=
  (createGridMapWithCustomTags computeDistance times_UNIT_DELTA).
Local Abbreviation custom_cells := (custom_cells computeDistance times_UNIT_DELTA).

Lemma run_app (calls1 calls2 : list (call R)) (m : CityMap R) :
  run (calls1 ++ calls2) m = (m1 ← run calls1 m; run calls2 m1).
Proof.
  revert m. induction calls1 as [|c rest IH]; intros m; simpl; [done|].
  destruct (exec c m) as [m1|e]; simpl; [apply IH|done].
Qed.

Lemma grid_cells_elem (width height : Z) (x y : nat) :
  (x, y) ∈ grid_cells width height <->
  (x < Z.to_nat width)%nat /\ (y < Z.to_nat height)%nat.
Proof.
  unfold grid_cells. rewrite list_elem_of_In, in_flat_map. split.
  - intros (x0 & Hx & Hy). apply in_map_iff in Hy as (y0 & [= -> ->] & Hy).
    apply in_seq in Hx, Hy. lia.
  - intros [Hx Hy]. exists x. split; [apply in_seq; lia|].
    apply in_map_iff. exists y. split; [done|apply in_seq; lia].
Qed.

Lemma grid_cells_NoDup (width height : Z) : NoDup (grid_cells width height).
Proof.
  unfold grid_cells. apply NoDup_flat_map; [| |apply NoDup_ListNoDup, seq_NoDup].
  - intros x1 x2 [x y] _ _ H1 H2.
    apply list_elem_of_In, in_map_iff in H1 as (? & [= -> _] & _).
    by apply list_elem_of_In, in_map_iff in H2 as (? & [= -> _] & _).
  - intros x _. apply (NoDup_fmap_2 (pair x)), NoDup_seq.
Qed.

(** The calls that the loops make when every cell has its entry. *)
Lemma custom_cells_run (custom : gmap (Z * Z) (list string)) (cells : list (nat * nat))
    (m : CityMap R) :
  (forall x y, (x, y) ∈ cells -> is_Some (custom !! (Z.of_nat x, Z.of_nat y))) ->
  custom_cells custom cells m =
  run (flat_map (fun c : nat * nat =>
                   grid_cell c.1 c.2
                     (default [] (custom !! (Z.of_nat c.1, Z.of_nat c.2)))) cells) m.
Proof.
  revert m. induction cells as [|[x y] rest IH]; intros m Hall; [done|].
  change (custom_cells custom ((x, y) :: rest) m) with
    (match custom !! (Z.of_nat x, Z.of_nat y) with
     | None => Raise KeyError
     | Some ts => m' ← run (grid_cell x y ts) m; custom_cells custom rest m'
     end).
  destruct (Hall x y) as [ts Hts]; [left|].
  change (flat_map ?f ((x, y) :: rest)) with (f (x, y) ++ flat_map f rest).
  rewrite run_app. cbv beta. change ((x, y).1) with x. change ((x, y).2) with y.
  rewrite Hts. change (default [] (Some ts)) with ts.
  destruct (run (grid_cell x y ts) m) as [m1|e]; [|done].
  apply IH. intros x0 y0 Hin. apply Hall. by right.
Qed.

Lemma custom_cells_Ok (custom : gmap (Z * Z) (list string)) (cells : list (nat * nat))
    (m m' : CityMap R) :
  custom_cells custom cells m = Ok m' ->
  forall x y, (x, y) ∈ cells -> is_Some (custom !! (Z.of_nat x, Z.of_nat y)).
Proof.
  revert m. induction cells as [|[x0 y0] rest IH]; intros m Hrun x y Hin.
  - by apply elem_of_nil in Hin.
  - change (custom_cells custom ((x0, y0) :: rest) m) with
      (match custom !! (Z.of_nat x0, Z.of_nat y0) with
       | None => Raise KeyError
       | Some ts => m' ← run (grid_cell x0 y0 ts) m; custom_cells custom rest m'
       end) in Hrun.
    destruct (custom !! (Z.of_nat x0, Z.of_nat y0)) as [ts|] eqn:Hts; [|discriminate].
    apply bind_Ok_inv in Hrun as (m1 & _ & Hrest).
    apply elem_of_cons in Hin as [[= -> ->]|Hin]; [eauto|by eapply IH].
Qed.

Lemma custom_calls_elem (custom : gmap (Z * Z) (list string)) (width height : Z)
    (c : call R) :
  c ∈ flat_map (fun c : nat * nat =>
                  grid_cell c.1 c.2
                    (default [] (custom !! (Z.of_nat c.1, Z.of_nat c.2))))
               (grid_cells width height) <->
  exists x y : nat, (x < Z.to_nat width)%nat /\ (y < Z.to_nat height)%nat /\
    c ∈ grid_cell x y (default [] (custom !! (Z.of_nat x, Z.of_nat y))).
Proof.
  rewrite list_elem_of_In, in_flat_map. split.
  - intros ([x y] & Hcell & Hc). apply list_elem_of_In, grid_cells_elem in Hcell.
    exists x, y. rewrite list_elem_of_In. tauto.
  - intros (x & y & Hx & Hy & Hc). exists (x, y).
    split; [by apply list_elem_of_In, grid_cells_elem|by apply list_elem_of_In].
Qed.

(** X25.  [createGridMapWithCustomTags(width, height, tags)] returns a map
    exactly when [tags] has an entry for every cell of the grid (a missing
    entry makes it raise).  The locations of the map it returns are the
    cells, and the tag list of a cell is its label tag, [x=<x>], [y=<y>]
    and then the cell's entry of [tags]. *)
Theorem createGridMapWithCustomTags_locations (width height : Z)
    (custom : gmap (Z * Z) (list string)) :
  ((exists m, createGridMapWithCustomTags width height custom = Ok m) <->
   forall x y : Z, 0 <= x < width -> 0 <= y < height -> is_Some (custom !! (x, y))) /\
  forall m, createGridMapWithCustomTags width height custom = Ok m ->
    (forall l, is_Some (geoLocations m !! l) <->
               exists x y : Z, 0 <= x < width /\ 0 <= y < height /\
                               l = makeGridLabel x y) /\
    (forall (x y : Z) ts, 0 <= x < width -> 0 <= y < height ->
       custom !! (x, y) = Some ts ->
       tags_at m (makeGridLabel x y) =
       [makeTag "label" (makeGridLabel x y); makeTag "x" (pretty x); makeTag "y" (pretty y)]
       ++ ts).
Proof.
  unfold mapUtil.createGridMapWithCustomTags.
  set (calls := flat_map (fun c : nat * nat =>
                  grid_cell c.1 c.2
                    (default [] (custom !! (Z.of_nat c.1, Z.of_nat c.2))))
                (grid_cells width height)).
  assert (forallb explicit_call calls = true) as Hexp.
  { apply forallb_forall. intros c Hc.
    apply list_elem_of_In, custom_calls_elem in Hc as (x & y & _ & _ & Hc).
    unfold mapUtil.grid_cell in Hc.
    destruct (0 <? x)%nat, (0 <? y)%nat; simpl in Hc;
      repeat (apply elem_of_cons in Hc as [->|Hc]; [done|]);
      by apply elem_of_nil in Hc. }
  assert (added_labels calls =
          flat_map (fun c : nat * nat => [makeGridLabel (Z.of_nat c.1) (Z.of_nat c.2)])
                   (grid_cells width height)) as Hadded.
  { unfold calls. rewrite added_labels_flat_map. apply flat_map_ext.
    intros [x y]. apply grid_cell_added. }
  assert (forall l, l ∈ added_labels calls <->
            exists x y : Z, 0 <= x < width /\ 0 <= y < height /\ l = makeGridLabel x y)
    as Hlabels.
  { intros l. rewrite Hadded, list_elem_of_In, in_flat_map. split.
    - intros ([x y] & Hcell & [<-|[]]). apply list_elem_of_In, grid_cells_elem in Hcell.
      exists (Z.of_nat x), (Z.of_nat y). simpl. repeat split; lia.
    - intros (x & y & Hx & Hy & ->). exists (Z.to_nat x, Z.to_nat y). split.
      + apply list_elem_of_In, grid_cells_elem. lia.
      + simpl. rewrite !Z2Nat.id by lia. by left. }
  assert (NoDup (added_labels calls)) as Hnodup.
  { rewrite Hadded. apply NoDup_flat_map; [| |apply grid_cells_NoDup].
    - intros [x1 y1] [x2 y2] l _ _ H1 H2.
      apply list_elem_of_singleton in H1, H2. subst l.
      apply makeGridLabel_inj in H2 as [Hx Hy]. simpl in Hx, Hy.
      f_equal; lia.
    - intros c _. apply NoDup_singleton. }
  assert ((forall x y : Z, 0 <= x < width -> 0 <= y < height -> is_Some (custom !! (x, y)))
          <-> forall x y : nat, (x, y) ∈ grid_cells width height ->
                is_Some (custom !! (Z.of_nat x, Z.of_nat y))) as Hpresent.
  { split.
    - intros Hall x y Hin. apply grid_cells_elem in Hin. apply Hall; lia.
    - intros Hall x y Hx Hy. specialize (Hall (Z.to_nat x) (Z.to_nat y)).
      rewrite !Z2Nat.id in Hall by lia. apply Hall, grid_cells_elem. lia. }
  split.
  - rewrite Hpresent. split.
    + intros [m Hm]. by eapply custom_cells_Ok.
    + intros Hall. rewrite custom_cells_run by done.
      apply run_explicit_Ok; [done|done|]. intros l _. apply lookup_empty.
  - intros m Hm.
    assert (forall x y : nat, (x, y) ∈ grid_cells width height ->
              is_Some (custom !! (Z.of_nat x, Z.of_nat y))) as Hall
      by (by eapply custom_cells_Ok).
    rewrite custom_cells_run in Hm by done. fold calls in Hm. split.
    + intros l. rewrite (run_geoLocations _ _ _ l Hm), Hlabels.
      simpl. rewrite lookup_empty. split; [intros [[? [=]]|?]; done|by right].
    + intros x y ts Hx Hy Hts.
      destruct (run_explicit_tags calls Hexp CityMap_init m (makeGridLabel x y)
                  {| latitude := times_UNIT_DELTA x; longitude := times_UNIT_DELTA y |}
                  ([makeTag "x" (pretty x); makeTag "y" (pretty y)] ++ ts) Hm)
        as [Ht _].
      * apply custom_calls_elem. exists (Z.to_nat x), (Z.to_nat y).
        split; [lia|]. split; [lia|]. unfold mapUtil.grid_cell.
        rewrite !Z2Nat.id by lia. rewrite Hts. apply elem_of_app. left. left.
      * unfold tags_at, getdefault. by rewrite Ht.
Qed.

End GridFacts.

(* ===================================================================== *)
(** * States at labels that were never added *)
(* ===================================================================== *)

Section UnknownLabels.
Context {R : Type} `{Number R}.
Import mapUtil util submission grader Props.

Variable computeDistance : GeoLocation R -> GeoLocation R -> result R.

Local Abbreviation run := (run computeDistance).

(** A label that [addLocation] never added and that no [addConnection]
    with an explicit distance names gets no entry in [distances]: an
    [addConnection] without a distance that names it raises. *)
Lemma run_distances_unnamed (calls : list (call R)) (label : string) :
  label ∉ added_labels calls ->
  (forall c, c ∈ calls -> ~ names_endpoint c label) ->
  forall m0 m,
    geoLocations m0 !! label = None -> distances m0 !! label = None ->
    run calls m0 = Ok m -> distances m !! label = None.
Proof.
  induction calls as [|c rest IH]; intros Hadded Hnamed m0 m Hg0 Hd0; simpl.
  - by intros [= <-].
  - intros Hrun. apply bind_Ok_inv in Hrun as (m1 & H1 & Hrest).
    assert (forall c', c' ∈ rest -> ~ names_endpoint c' label) as Hnamed'.
    { intros c' Hc'. apply Hnamed. by right. }
    specialize (Hnamed c (list_elem_of_here _ _)).
    destruct c as [l g ts|s t d0|ls tol]; simpl in H1.
    + unfold added_labels in Hadded. simpl in Hadded.
      apply not_elem_of_cons in Hadded as [Hne Hadded].
      apply (addLocation_Ok) in H1 as (_ & Hg & _ & Hd).
      apply (IH Hadded Hnamed' m1 m); [|congruence|done].
      rewrite Hg. by rewrite lookup_insert_ne.
    + apply (addConnection_Ok computeDistance) in H1 as (d & Hd0' & Hg & _ & Hd).
      assert (label <> s /\ label <> t) as [Hs Ht].
      { destruct d0 as [d0|].
        - simpl in Hnamed. split; intros ->; apply Hnamed; auto.
        - destruct Hd0' as (g1 & g2 & Hg1 & Hg2 & _). split; intros ->; congruence. }
      apply (IH Hadded Hnamed' m1 m); [congruence| |done].
      rewrite Hd. unfold set_distance. by rewrite !lookup_insert_ne.
    + apply (addLandmarks_frame computeDistance) in H1 as [Hg Hd].
      apply (IH Hadded Hnamed' m1 m); [congruence|congruence|done].
Qed.

(** C10, amended.  On a map built by calls, for a state whose location
    label was never added by [addLocation]: [ShortestPathProblem.isEnd]
    returns [False] and [ShortestPathProblem.successorsAndCosts] returns
    without raising; it returns the empty list when, moreover, no
    [addConnection] call with an explicit distance named the label as an
    endpoint. *)
Theorem unknown_label_is_inert (calls : list (call R)) (cityMap : CityMap R)
    (startLocation endTag label : string) (mem : option (list string)) :
  run calls CityMap_init = Ok cityMap ->
  label ∉ added_labels calls ->
  let problem := ShortestPathProblem startLocation endTag cityMap in
  let state := {| location := label; memory := mem |} in
  isEnd problem state = false /\
  (exists succs, successorsAndCosts problem state = Ok succs) /\
  ((forall c, c ∈ calls -> ~ names_endpoint c label) ->
   successorsAndCosts problem state = Ok []).
Proof.
  intros Hrun Hadded problem state.
  assert (geoLocations cityMap !! label = None) as Hgeo.
  { apply eq_None_not_Some. intros Hsome.
    apply (run_geoLocations computeDistance calls CityMap_init cityMap label Hrun)
      in Hsome as [[g Hg]|Hin]; [|done].
    simpl in Hg. by rewrite lookup_empty in Hg. }
  assert (tags cityMap !! label = None) as Htags.
  { assert (tags_labelled cityMap) as Hlab.
    { eapply (run_preserves computeDistance tags_labelled);
        [apply tags_labelled_exec|apply tags_labelled_init|exact Hrun]. }
    specialize (Hlab label). destruct (tags cityMap !! label); [|done].
    destruct Hlab as [[g Hg] _]. congruence. }
  split; [by apply isEnd_without_tags|]. split; [eexists; reflexivity|].
  intros Hnamed. apply successors_without_distances. simpl.
  by apply (run_distances_unnamed calls label Hadded Hnamed CityMap_init cityMap).
Qed.

End UnknownLabels.

(* ===================================================================== *)
(** * The theorems at concrete maps *)
(* ===================================================================== *)

Section Concrete.
Import mapUtil util submission grader Props Examples.

Lemma two_nodes_built :
  run flat_distance two_nodes_calls CityMap_init = Ok two_nodes.
Proof. vm_compute. reflexivity. Qed.

Lemma distances_symmetric_witness :
  run flat_distance two_nodes_calls CityMap_init = Ok two_nodes /\
  forall a b, distance two_nodes a b = distance two_nodes b a.
Proof.
  split; [vm_compute; reflexivity|].
  apply (distances_symmetric flat_distance two_nodes_calls two_nodes).
  vm_compute. reflexivity.
Defined.

Lemma distances_labels_known_witness :
  run flat_distance two_nodes_calls CityMap_init = Ok two_nodes /\
  run_endpoints_known flat_distance two_nodes_calls CityMap_init = true /\
  labels_closed two_nodes.
Proof.
  split; [vm_compute; reflexivity|]. split; [vm_compute; reflexivity|].
  apply (distances_labels_known flat_distance two_nodes_calls two_nodes);
    vm_compute; reflexivity.
Defined.

(** C6 as stated fails: one [addConnection("a", "b", 1)] on a new map
    succeeds and leaves ["a"] and ["b"] in [distances] although
    [geoLocations] is empty. *)
Lemma dangling_connection_not_closed :
  run flat_distance dangling_calls CityMap_init = Ok dangling /\
  distance dangling "a" "b" = Some 1 /\
  geoLocations dangling !! "a" = None /\
  ~ labels_closed dangling.
Proof.
  split; [vm_compute; reflexivity|]. split; [vm_compute; reflexivity|].
  split; [vm_compute; reflexivity|].
  intros [Houter _]. destruct (Houter "a") as [g Hg].
  - eexists. vm_compute. reflexivity.
  - vm_compute in Hg. discriminate.
Qed.

Lemma zz_not_added : "zz" ∉ added_labels two_nodes_calls.
Proof.
  unfold added_labels, two_nodes_calls. simpl.
  intros Hin. repeat (apply elem_of_cons in Hin as [[=]|Hin]).
  by apply elem_of_nil in Hin.
Qed.

Lemma zz_not_named : forall c, c ∈ two_nodes_calls -> ~ names_endpoint c "zz".
Proof.
  intros c Hc. unfold two_nodes_calls in Hc.
  repeat (apply elem_of_cons in Hc as [->|Hc]); simpl;
    try (by apply elem_of_nil in Hc); try tauto.
  intros [?|?]; discriminate.
Qed.

Lemma unknown_label_is_inert_witness :
  run flat_distance two_nodes_calls CityMap_init = Ok two_nodes /\
  isEnd (ShortestPathProblem "a" "e" two_nodes) {| location := "zz"; memory := None |}
    = false /\
  successorsAndCosts (ShortestPathProblem "a" "e" two_nodes)
    {| location := "zz"; memory := None |} = Ok [].
Proof.
  split; [vm_compute; reflexivity|].
  destruct (unknown_label_is_inert flat_distance two_nodes_calls two_nodes
              "a" "e" "zz" None) as (Hend & _ & Hsuccs).
  - vm_compute. reflexivity.
  - apply zz_not_added.
  - split; [exact Hend|]. apply Hsuccs, zz_not_named.
Defined.

(** C10 as stated fails: after [addConnection("a", "b", 1)] on a new map
    the label ["a"] was never added, and the state at ["a"] has the
    successor ["b"]. *)
Lemma unknown_label_has_successors :
  run flat_distance dangling_calls CityMap_init = Ok dangling /\
  ("a" ∉ added_labels dangling_calls) /\
  geoLocations dangling !! "a" = None /\
  successorsAndCosts (ShortestPathProblem "a" "e" dangling)
    {| location := "a"; memory := None |} =
    Ok [("b", {| location := "b"; memory := None |}, 1)] /\
  successorsAndCosts (ShortestPathProblem "a" "e" dangling)
    {| location := "a"; memory := None |} <> Ok [].
Proof.
  split; [vm_compute; reflexivity|]. split; [apply not_elem_of_nil|].
  split; [vm_compute; reflexivity|]. split; [vm_compute; reflexivity|].
  vm_compute. discriminate.
Qed.

(** C1 at a waypoint problem.  The problem's own successor of the start
    state keeps the memory [("w",)] and costs [1 + 50]; the successor that
    the reduction returns, with the zero heuristic, has no memory and
    costs [1]. *)
Theorem aStarReduction_drops_memory :
  startState waypoints_problem = {| location := "a"; memory := Some ["w"] |} /\
  successorsAndCosts waypoints_problem (startState waypoints_problem) =
    Ok [("b", {| location := "b"; memory := Some ["w"] |}, 51)] /\
  successorsAndCosts (aStarReduction waypoints_problem (ZeroHeuristic "e" two_nodes))
    (startState waypoints_problem) =
    Ok [("b", {| location := "b"; memory := None |}, 1)].
Proof. repeat split; vm_compute; reflexivity. Qed.

Lemma plain_steps_follow :
  follows (ShortestPathProblem "a" "e" two_nodes)
    (startState (ShortestPathProblem "a" "e" two_nodes)) plain_steps.
Proof.
  split; [|exact I]. eexists. split; [vm_compute; reflexivity|left].
Qed.

Lemma two_nodes_distances (a b : string) (d : Z) :
  (b, d) ∈ distances_at two_nodes a -> d = 1.
Proof.
  unfold distances_at, getdefault. intros Hin.
  destruct (distances two_nodes !! a) as [inner|] eqn:Ha; simpl in Hin;
    [|by apply elem_of_nil in Hin].
  apply elem_of_map_to_list in Ha.
  assert (map_to_list (distances two_nodes) = [("a", [("b", 1)]); ("b", [("a", 1)])]
          \/ map_to_list (distances two_nodes) = [("b", [("a", 1)]); ("a", [("b", 1)])])
    as [Heq|Heq] by (vm_compute; tauto).
  - rewrite Heq in Ha.
    repeat (apply elem_of_cons in Ha as [[= -> ->]|Ha]);
      try (by apply elem_of_nil in Ha);
      apply list_elem_of_singleton in Hin; by injection Hin.
  - rewrite Heq in Ha.
    repeat (apply elem_of_cons in Ha as [[= -> ->]|Ha]);
      try (by apply elem_of_nil in Ha);
      apply list_elem_of_singleton in Hin; by injection Hin.
Qed.

Lemma float_edge_distances (a b : string) (d : pynum) :
  (b, d) ∈ distances_at float_edge a -> d = num_float 1.
Proof.
  unfold distances_at, getdefault. intros Hin.
  destruct (distances float_edge !! a) as [inner|] eqn:Ha; simpl in Hin;
    [|by apply elem_of_nil in Hin].
  apply elem_of_map_to_list in Ha.
  assert (map_to_list (distances float_edge) =
          [("a", [("b", num_float 1)]); ("b", [("a", num_float 1)])]
          \/ map_to_list (distances float_edge) =
          [("b", [("a", num_float 1)]); ("a", [("b", num_float 1)])]) as [Heq|Heq]
    by (vm_compute; tauto).
  - rewrite Heq in Ha.
    repeat (apply elem_of_cons in Ha as [[= -> ->]|Ha]);
      try (by apply elem_of_nil in Ha);
      apply list_elem_of_singleton in Hin; by injection Hin.
  - rewrite Heq in Ha.
    repeat (apply elem_of_cons in Ha as [[= -> ->]|Ha]);
      try (by apply elem_of_nil in Ha);
      apply list_elem_of_singleton in Hin; by injection Hin.
Qed.



(** The search does find the path on [two_nodes]. *)
Example two_nodes_search :
  solve 4 (ShortestPathProblem "a" "e" two_nodes) =
  Finished {| actions := Some ["b"];
              pathCost := Some 1;
              pastCosts := [({| location := "a"; memory := None |}, 0)] |}.
Proof. vm_compute. reflexivity. Qed.

(** C9 as stated fails: on [two_nodes] no location carries the tag
    ["nope"], and [StraightLineHeuristic.evaluate] returns [10000000.0] for
    the state at ["a"]; it raises nothing. *)
Lemma StraightLineHeuristic_returns_initial_value :
  StraightLineHeuristic_targets "nope" two_nodes = [] /\
  StraightLineHeuristic_evaluate flat_distance "nope" two_nodes
    {| location := "a"; memory := None |} = Ok 10000000 /\
  ~ exists e, StraightLineHeuristic_evaluate flat_distance "nope" two_nodes
                {| location := "a"; memory := None |} = Raise e.
Proof.
  split; [vm_compute; reflexivity|]. split; [vm_compute; reflexivity|].
  intros [e He]. vm_compute in He. discriminate.
Qed.

Lemma evaluate_without_targets_witness :
  StraightLineHeuristic_targets "nope" two_nodes = [] /\
  StraightLineHeuristic_evaluate flat_distance "nope" two_nodes
    {| location := "a"; memory := None |} =
    match geoLocations two_nodes !! "a" with
    | Some _ => Ok (num_float 10000000)
    | None => Raise KeyError
    end.
Proof.
  split; [vm_compute; reflexivity|].
  apply (evaluate_without_targets flat_distance "nope" two_nodes
           {| location := "a"; memory := None |}).
  vm_compute. reflexivity.
Defined.

(** C8 at one landmark on a new map. *)
Example addLandmarks_new_map :
  addLandmarks flat_distance [one_landmark] default_tolerance CityMap_init =
  Raise ValueError.
Proof. vm_compute. reflexivity. Qed.

(** On [two_nodes] the same landmark is snapped onto ["a"]. *)
Example addLandmarks_two_nodes :
  exists m, addLandmarks flat_distance [one_landmark] default_tolerance two_nodes = Ok m /\
            tags_at m "a" = ["label=a"; "landmark=gates"] /\
            tags_at m "b" = ["label=b"; "e"].
Proof. eexists. repeat split; vm_compute; reflexivity. Qed.

Example locationFromTag_two_nodes :
  locationFromTag "e" two_nodes = Some "b" /\ locationFromTag "nope" two_nodes = None.
Proof. split; vm_compute; reflexivity. Qed.

End Concrete.

(* ===================================================================== *)
(** * Further theorems at concrete maps *)
(* ===================================================================== *)

Section ConcreteMore.
Import mapUtil util submission grader Props Examples.

Lemma waypoint_steps_follow :
  follows (WaypointsShortestPathProblem "a" ["label=a"] "e" two_nodes)
    (startState (WaypointsShortestPathProblem "a" ["label=a"] "e" two_nodes))
    waypoint_steps.
Proof.
  split; [|exact I]. eexists. split; [vm_compute; reflexivity|left].
Qed.

Lemma two_nodes_labels_closed : labels_closed two_nodes.
Proof.
  apply (labels_closed_run flat_distance two_nodes_calls CityMap_init).
  - apply labels_closed_init.
  - vm_compute. reflexivity.
  - vm_compute. reflexivity.
Qed.


Lemma ShortestPath_solution_valid_witness :
  checkValid (extractPath "a" (map (fun step => step.1.1) plain_steps)) two_nodes
    "a" "e" [] = Some true.
Proof.
  apply (ShortestPath_solution_valid "a" "e" two_nodes plain_steps).
  - apply plain_steps_follow.
  - vm_compute. reflexivity.
Defined.

Lemma Waypoints_solution_valid_witness :
  checkValid (extractPath "a" (map (fun step => step.1.1) waypoint_steps)) two_nodes
    "a" "e" ["label=a"] = Some true.
Proof.
  apply (Waypoints_solution_valid "a" ["label=a"] "e" two_nodes waypoint_steps).
  - apply waypoint_steps_follow.
  - vm_compute. reflexivity.
Defined.


Lemma Waypoints_order_irrelevant_witness :
  WaypointsShortestPathProblem "a" ["x"; "y"] "e" two_nodes =
    WaypointsShortestPathProblem "a" ["y"; "x"] "e" two_nodes /\
  successorsAndCosts (WaypointsShortestPathProblem "a" ["x"; "y"] "e" two_nodes)
    {| location := "a"; memory := Some ["x"; "y"] |} =
  successorsAndCosts (WaypointsShortestPathProblem "a" ["x"; "y"] "e" two_nodes)
    {| location := "a"; memory := Some ["y"; "x"] |}.
Proof.
  apply (Waypoints_order_irrelevant "a" ["x"; "y"] ["y"; "x"] "e" two_nodes "a"
           ["x"; "y"] ["y"; "x"]); apply perm_swap.
Defined.

Lemma Waypoints_memory_canonical_witness :
  exists mem,
    memory (final_state
              (startState (WaypointsShortestPathProblem "a" ["label=a"] "e" two_nodes))
              waypoint_steps) = Some mem /\
    Sorted str_le mem /\ mem ⊆+ ["label=a"].
Proof.
  apply (Waypoints_memory_canonical "a" ["label=a"] "e" two_nodes waypoint_steps).
  apply waypoint_steps_follow.
Defined.

Lemma Waypoints_without_tags_witness :
  (forall x : Z, num_add x (num_of_Z 0) = x) /\
  exists succs,
    successorsAndCosts (ShortestPathProblem "a" "e" two_nodes)
      {| location := "a"; memory := None |} = Ok succs /\
    successorsAndCosts (WaypointsShortestPathProblem "a" [] "e" two_nodes)
      {| location := "a"; memory := Some [] |} =
    Ok (map (fun step : string * State * Z =>
               (step.1.1, {| location := location step.1.2; memory := Some [] |}, step.2))
            succs).
Proof.
  split; [intros x; simpl; lia|].
  apply (Waypoints_without_tags "a" "e" two_nodes "a").
  intros x. simpl. lia.
Defined.

Lemma StraightLineHeuristic_minimum_witness :
  geoLocations two_nodes !! "a" = Some (at_ 0 0) /\
  StraightLineHeuristic_evaluate flat_distance "e" two_nodes
    {| location := "a"; memory := None |} = Ok 1 /\
  num_ltb (num_float 10000000) 1 = false /\
  exists l gl, geoLocations two_nodes !! l = Some gl /\ "e" ∈ tags_at two_nodes l /\
               flat_distance gl (at_ 0 0) = Ok 1.
Proof.
  split; [vm_compute; reflexivity|]. split; [vm_compute; reflexivity|].
  destruct (StraightLineHeuristic_minimum flat_distance "e" two_nodes
              {| location := "a"; memory := None |} (at_ 0 0))
    as [_ Hmin]; [vm_compute; reflexivity|].
  destruct (Hmin 1) as (Hbound & _ & [Hinit|Hfrom]); [vm_compute; reflexivity| |].
  - vm_compute in Hinit. discriminate.
  - split; [exact Hbound|exact Hfrom].
Defined.


Lemma addConnection_lookup_witness :
  addConnection flat_distance "a" "b" (Some 5) two_nodes = Ok reconnected /\
  exists d, distance reconnected "a" "b" = Some d /\ distance reconnected "b" "a" = Some d.
Proof.
  split; [vm_compute; reflexivity|].
  destruct (addConnection_lookup flat_distance "a" "b" (Some 5) two_nodes reconnected)
    as (d & _ & Hab & Hba & _); [vm_compute; reflexivity|].
  exists d. split; [exact Hab|exact Hba].
Defined.

Lemma built_tags_labelled_witness :
  (is_Some (tags two_nodes !! "a") <-> is_Some (geoLocations two_nodes !! "a")) /\
  (is_Some (geoLocations two_nodes !! "a") ->
   exists rest, tags_at two_nodes "a" = makeTag "label" "a" :: rest).
Proof.
  apply (built_tags_labelled flat_distance two_nodes_calls two_nodes "a").
  vm_compute. reflexivity.
Defined.

Lemma built_map_grows_witness :
  (forall l g, geoLocations two_nodes !! l = Some g ->
               geoLocations reconnected !! l = Some g) /\
  (forall l old, tags two_nodes !! l = Some old ->
     exists extra, tags reconnected !! l = Some (old ++ extra)) /\
  (forall a b, is_Some (distance two_nodes a b) -> is_Some (distance reconnected a b)).
Proof.
  apply (built_map_grows flat_distance two_nodes_calls
           [AddConnection "a" "b" (Some 5)] two_nodes reconnected);
    vm_compute; reflexivity.
Defined.

Lemma createGridMap_connections_witness :
  createGridMap flat_distance (fun z => z) 2 2 = Ok grid_2x2 /\
  (forall a b d, distance grid_2x2 a b = Some d -> d = num_of_Z 1).
Proof.
  split; [vm_compute; reflexivity|].
  apply (createGridMap_connections flat_distance (fun z => z) 2 2 grid_2x2).
  vm_compute. reflexivity.
Defined.

Lemma createGridMap_label_tag_witness :
  isEnd (ShortestPathProblem "0,0" (makeTag "label" (makeGridLabel 1 1)) grid_2x2)
    {| location := makeGridLabel 1 0; memory := None |} = true
  <-> 1 = 1 /\ 1 = 0.
Proof.
  apply (createGridMap_label_tag flat_distance (fun z => z) 2 2 grid_2x2 "0,0"
           1 1 1 0 None); [vm_compute; reflexivity|lia|lia].
Defined.

Lemma ShortestPath_undirected_witness :
  exists succs_a succs_b,
    successorsAndCosts (ShortestPathProblem "a" "e" two_nodes)
      {| location := "a"; memory := None |} = Ok succs_a /\
    successorsAndCosts (ShortestPathProblem "a" "e" two_nodes)
      {| location := "b"; memory := None |} = Ok succs_b /\
    (("b", {| location := "b"; memory := None |}, 1) ∈ succs_a <->
     ("a", {| location := "a"; memory := None |}, 1) ∈ succs_b).
Proof.
  apply (ShortestPath_undirected flat_distance two_nodes_calls "a" "e" two_nodes
           "a" "b" 1).
  vm_compute. reflexivity.
Defined.

Lemma addLandmarks_succeeds_witness :
  exists m', addLandmarks flat_distance [one_landmark] default_tolerance two_nodes = Ok m' /\
             geoLocations m' = geoLocations two_nodes /\
             distances m' = distances two_nodes.
Proof.
  destruct (addLandmarks_succeeds flat_distance [one_landmark] default_tolerance
              two_nodes) as [[Hreturns _] Hframe].
  - intros Hempty.
    assert (geoLocations two_nodes !! "a" = None) as Ha
      by (rewrite Hempty; apply lookup_empty).
    vm_compute in Ha. discriminate.
  - destruct Hreturns as [m' Hm'].
    + intros item l g _ _. eexists. reflexivity.
    + exists m'. split; [exact Hm'|]. exact (Hframe m' Hm').
Defined.

Lemma addLandmark_nearest_witness :
  addLandmark flat_distance default_tolerance one_landmark two_nodes = Ok with_landmark /\
  exists bestLabel g bestDistance,
    geoLocations two_nodes !! bestLabel = Some g /\
    flat_distance (geo one_landmark) g = Ok bestDistance /\
    forall l' g', geoLocations two_nodes !! l' = Some g' ->
      exists d', flat_distance (geo one_landmark) g' = Ok d' /\
                 num_ltb d' bestDistance = false.
Proof.
  split; [vm_compute; reflexivity|].
  destruct (addLandmark_nearest flat_distance default_tolerance one_landmark
              two_nodes with_landmark)
    as (bestLabel & g & bestDistance & Hbest & Hdistance & Hnearest & _);
    [vm_compute; reflexivity|].
  exists bestLabel, g, bestDistance.
  split; [exact Hbest|]. split; [exact Hdistance|exact Hnearest].
Defined.

Lemma unmentioned_label_absent_witness :
  tags two_nodes !! "zz" = None /\ distances two_nodes !! "zz" = None.
Proof.
  apply (unmentioned_label_absent flat_distance two_nodes_calls two_nodes "zz").
  - vm_compute. reflexivity.
  - intros c Hc. unfold two_nodes_calls in Hc.
    repeat (apply elem_of_cons in Hc as [->|Hc]); simpl;
      try (by apply elem_of_nil in Hc); try discriminate.
    intros [?|?]; discriminate.
Defined.

Lemma Waypoints_collected_before_end_witness :
  exists l, l ∈ removelast (extractPath "a" (map (fun step => step.1.1) waypoint_steps))
            /\ "label=a" ∈ tags_at two_nodes l.
Proof.
  apply (Waypoints_collected_before_end "a" ["label=a"] "e" two_nodes waypoint_steps).
  - apply waypoint_steps_follow.
  - vm_compute. reflexivity.
  - apply list_elem_of_here.
Defined.

Lemma createGridMapWithCustomTags_locations_witness :
  exists m, createGridMapWithCustomTags flat_distance (fun z => z) 1 1
              {[ (0, 0) := ["food"] ]} = Ok m.
Proof.
  apply (createGridMapWithCustomTags_locations flat_distance (fun z => z) 1 1
           {[ (0, 0) := ["food"] ]}).
  intros x y Hx Hy. assert (x = 0) as -> by lia. assert (y = 0) as -> by lia.
  vm_compute. eauto.
Defined.

End ConcreteMore.
